(** * Worldvious client: scheduler, error aggregation and notification fan-out

    A shallow embedding of [WorldviousClient] (the current revision of the
    class, the one with four jobs, [reportFeedback] guarded by the identity
    and the [try]/[catch] inside the job handler), and the properties of its
    specification.  The revision the class started from is embedded on its
    own in the module [Legacy].

    ** Modelling conventions

    - The fields of the class are the record [Client]; everything the class
      reaches through the JavaScript runtime (process environment, live
      timeouts, outstanding HTTP requests, queued promise jobs) is the record
      [World], which also carries the chronological record of what the client
      did to the outside ([trace], newest entry first).
    - One [Event] is one turn of the event loop: a call from the host, a
      timeout firing, or an HTTP request settling.  A turn runs its
      synchronous code and then the promise jobs it queued.  Hops between the
      links of a promise chain inside the client are folded into the turn
      that starts them; the two deferrals that the host can observe are kept
      apart from the synchronous code: the listener call of [_trigger] is an
      explicit queue ([microtasks]), and the end of the handler's chain
      behind a body that returned at once is what [_runJob] hands back
      ([RCompleting]) and [completion] runs.
    - The transport is a black box: [_request] issues a POST and the request
      settles in a later turn with a response or a failure.
    - Records indexed by job name are total functions on [ReportActions]
      into [option]; [errors] and [process.env] are string-keyed records
      kept as association lists of their own properties in insertion order
      (the place JavaScript gives to integer-like keys is not modelled).
      The read [this.errors[errorStr]] of [acceptError] also sees what
      [errors] inherits from [Object.prototype] ([JsRecord.inherited]).
    - Logging is not observable and is left out. *)

From Stdlib Require Import String Ascii List ZArith Bool Arith Lia.
Import ListNotations.
Local Open Scope string_scope.
Local Open Scope list_scope.

Set Implicit Arguments.

(** ** JavaScript values used by the client *)

(** A string-keyed JavaScript object used as a map: own properties in
    insertion order, each key at most once. *)
Module JsRecord.

Definition t (V : Type) : Type := list (string * V).

Fixpoint get {V} (k : string) (m : t V) : option V :=
  match m with
  | [] => None
  | (k', v) :: m' => if String.eqb k k' then Some v else get k m'
  end.

(** [m[k] = v]: overwrite in place, or append a new property. *)
Fixpoint set {V} (k : string) (v : V) (m : t V) : t V :=
  match m with
  | [] => [(k, v)]
  | (k', v') :: m' =>
      if String.eqb k k' then (k', v) :: m' else (k', v') :: set k v m'
  end.

Definition keys {V} (m : t V) : list string := map fst m.
Definition values {V} (m : t V) : list V := map snd m.

(** The property names an object literal inherits from [Object.prototype]:
    the read [m[k]] of one of them finds the inherited member, a function
    or the prototype itself, when [m] has no property [k] of its own. *)
Definition inherited (k : string) : bool :=
  existsb (String.eqb k)
    ["constructor"; "__defineGetter__"; "__defineSetter__"; "hasOwnProperty";
     "__lookupGetter__"; "__lookupSetter__"; "isPrototypeOf";
     "propertyIsEnumerable"; "toString"; "valueOf"; "__proto__";
     "toLocaleString"].

End JsRecord.

(** Truthiness of a [string | undefined]: only a non-empty string passes an
    [if]. *)
Definition truthy (v : option string) : bool :=
  match v with
  | Some s => negb (String.eqb s "")
  | None => false
  end.

(** What a template literal prints for a [string | undefined]. *)
Definition interpolate (v : option string) : string :=
  match v with
  | Some s => s
  | None => "undefined"
  end.

(** JSON-serialisable data as the client handles it: strings and numbers
    it writes itself, and values it passes through unread (counters,
    metrics, answers), kept as their serialised text. *)
Inductive Json : Type :=
| JUndefined
| JStr (s : string)
| JNum (n : Z)
| JOpaque (text : string).

Definition json_of_opt (v : option string) : Json :=
  match v with
  | Some s => JStr s
  | None => JUndefined
  end.

(** An object literal under construction: fields in assignment order. *)
Definition Data : Type := list (string * Json).

(** The values [acceptError] can be handed: [null], [undefined], or any
    other value, of which the client reads the [stack] property and the
    result of [toString()]. *)
Inductive JsValue : Type :=
| JsNull
| JsUndefined
| JsObject (stack : option string) (toString : string).

(** ** [Number.parseInt] with no radix *)
Module JsNumber.

Definition isWhiteSpace (c : ascii) : bool :=
  match nat_of_ascii c with
  | 9 | 10 | 11 | 12 | 13 | 32 => true
  | _ => false
  end%nat.

Fixpoint trimStart (s : string) : string :=
  match s with
  | String c s' => if isWhiteSpace c then trimStart s' else s
  | EmptyString => s
  end.

Definition digitValue (radix : Z) (c : ascii) : option Z :=
  let n := Z.of_nat (nat_of_ascii c) in
  let v :=
    if ((48 <=? n) && (n <=? 57))%Z then Some (n - 48)%Z
    else if ((97 <=? n) && (n <=? 122))%Z then Some (n - 87)%Z
    else if ((65 <=? n) && (n <=? 90))%Z then Some (n - 55)%Z
    else None in
  match v with
  | Some d => if (d <? radix)%Z then Some d else None
  | None => None
  end.

(** The longest prefix of digits, read in [radix]; [None] when the prefix
    is empty. *)
Fixpoint digits (radix : Z) (s : string) (acc : option Z) : option Z :=
  match s with
  | EmptyString => acc
  | String c s' =>
      match digitValue radix c with
      | Some d =>
          let a := match acc with Some a => a | None => 0%Z end in
          digits radix s' (Some (radix * a + d)%Z)
      | None => acc
      end
  end.

(** [None] stands for [NaN].  The result is the mathematical integer; a
    JavaScript number agrees with it up to 2^53. *)
Definition parseInt (input : string) : option Z :=
  let s := trimStart input in
  let '(sign, s) :=
    match s with
    | String "-" r => ((-1)%Z, r)
    | String "+" r => (1%Z, r)
    | _ => (1%Z, s)
    end in
  let '(radix, s) :=
    match s with
    | String "0" (String "x" r) => (16%Z, r)
    | String "0" (String "X" r) => (16%Z, r)
    | _ => (10%Z, s)
    end in
  match digits radix s None with
  | Some n => Some (sign * n)%Z
  | None => None
  end.

End JsNumber.

(** ** The declarations of the class *)

Inductive ReportActions : Type :=
| VersionCheck
| ReportError
| ReportCounters
| ReportMetrics.

Definition ReportActions_eqb (a b : ReportActions) : bool :=
  match a, b with
  | VersionCheck, VersionCheck
  | ReportError, ReportError
  | ReportCounters, ReportCounters
  | ReportMetrics, ReportMetrics => true
  | _, _ => false
  end.

(** [_.keys(this.jobConfigs)]: the order in which the constructor fills the
    record. *)
Definition allJobs : list ReportActions :=
  [VersionCheck; ReportError; ReportCounters; ReportMetrics].

(** A record indexed by job name; [upd] is the assignment [r[name] = v]. *)
Definition upd {V} (r : ReportActions -> V) (name : ReportActions) (v : V)
  : ReportActions -> V :=
  fun n => if ReportActions_eqb name n then v else r n.

(** The closures handed to [_register]. *)
Inductive JobCallback : Type :=
| CheckVersion
| ReportErrors
| ReportCountersCb
| ReportMetricsCb.

Inductive PreScheduleCallback : Type :=
| ResetFirstError.

Module JobInfo.
Record t : Type := make {
  name : ReportActions;
  seconds : Z;
  cb : JobCallback;
  preScheduleCb : option PreScheduleCallback
}.
End JobInfo.

Module JobConfig.
Record t : Type := make {
  enabled : bool;
  delaySeconds : Z;
  disableEnvName : string;
  overrideEnvName : string;
  shouldStartImmediately : bool
}.
Definition disable (c : t) : t :=
  make false (delaySeconds c) (disableEnvName c) (overrideEnvName c)
       (shouldStartImmediately c).
End JobConfig.

Module JobRuntime.
Record t : Type := make { isRunning : bool }.
End JobRuntime.

Module ErrorInfo.
Record t : Type := make { error : string; count : nat }.
End ErrorInfo.

(** Modelled from the spec: the notification types are declared in
    [@kubevious/ui-middleware], which is not part of the sources; the items
    are the two variants of the data model ([NewVersion], [FeedbackRequest]).
    The client only stores and forwards them. *)
Inductive NotificationItem : Type :=
| NewVersion (name version url : string) (changes features : list string)
| FeedbackRequest (id : string) (questions : list string).

(** [WorldviousFeedbackSubmitData], as [reportFeedback] reads it. *)
Module FeedbackSubmitData.
Record t : Type := make { id : string; answers : Json }.
End FeedbackSubmitData.

(** A host callback registered with [onNotificationsChanged], by identity. *)
Definition Listener : Type := nat.

Definition Env : Type := JsRecord.t string.

(** The fields of [WorldviousClient]. *)
Record Client : Type := mkClient {
  name : string;
  version : string;
  enabled : bool;
  id : option string;
  closed : bool;
  isFirstErrorReported : bool;
  jobConfigs : ReportActions -> JobConfig.t;
  timers : ReportActions -> option nat;
  jobs : ReportActions -> option JobInfo.t;
  jobRuntime : ReportActions -> option JobRuntime.t;
  counters : Json;
  metrics : Json;
  errors : JsRecord.t ErrorInfo.t;
  _versionCheckResult : list NotificationItem;
  _notificationsChangeListeners : list Listener
}.

(** ** The runtime around the client *)

(** What the body of a job still has to do when its outstanding request
    settles successfully. *)
Inductive BodyCont : Type :=
| ThenActivate                      (* [_checkVersion]: [_activateNewVersionInfo] *)
| ThenSerial (rest : list Data)     (* [_reportError]: the rest of [MyPromise.serial] *)
| ThenDone.                         (* [_reportCounters], [_reportMetrics] *)

(** Who waits for an outstanding request: the body of execution [x] of job
    [name], or the host (the promise returned by [reportFeedback]). *)
Inductive Continuation : Type :=
| KJob (x : nat) (name : ReportActions) (k : BodyCont)
| KHost.

Inductive ResponseData : Type :=
| Notifications (items : list NotificationItem)
| NoData.

Inductive HttpOutcome : Type :=
| HttpFailed
| HttpOk (data : ResponseData).

(** What the client does to the outside, and the two bookkeeping marks
    ([ErrorAccepted], [BatchSnapshot]) that let a property speak about the
    calls since the last snapshot. *)
Inductive Effect : Type :=
| HttpPost (url : string) (data : Data)
| BodyStart (name : ReportActions)
| PreSchedule (name : ReportActions)
| SetTimeout (h : nat) (name : ReportActions) (ms : Z)
| ClearTimeout (h : nat)
| ListenerCall (cb : Listener) (r : list NotificationItem)
| ErrorAccepted (signature : string)
| BatchSnapshot.

Module Timeout.
(** A live timeout: its handle and what its callback closes over. *)
Record t : Type := make {
  handle : nat;
  name : ReportActions;
  job : JobInfo.t
}.
End Timeout.

Record World : Type := mkWorld {
  this : Client;
  env : Env;
  timeouts : list Timeout.t;
  nextTimeout : nat;
  requests : list (nat * Continuation);
  nextRequest : nat;
  nextExecution : nat;
  awaiting : list (nat * list ReportActions);
  microtasks : list Listener;
  trace : list Effect
}.

(** *** Field assignments *)

Definition setClosed (v : bool) (c : Client) : Client :=
  mkClient (name c) (version c) (enabled c) (id c) v (isFirstErrorReported c)
    (jobConfigs c) (timers c) (jobs c) (jobRuntime c) (counters c) (metrics c)
    (errors c) (_versionCheckResult c) (_notificationsChangeListeners c).

Definition setIsFirstErrorReported (v : bool) (c : Client) : Client :=
  mkClient (name c) (version c) (enabled c) (id c) (closed c) v
    (jobConfigs c) (timers c) (jobs c) (jobRuntime c) (counters c) (metrics c)
    (errors c) (_versionCheckResult c) (_notificationsChangeListeners c).

Definition setTimers (v : ReportActions -> option nat) (c : Client) : Client :=
  mkClient (name c) (version c) (enabled c) (id c) (closed c)
    (isFirstErrorReported c) (jobConfigs c) v (jobs c) (jobRuntime c)
    (counters c) (metrics c) (errors c) (_versionCheckResult c)
    (_notificationsChangeListeners c).

Definition setJobs (v : ReportActions -> option JobInfo.t) (c : Client)
  : Client :=
  mkClient (name c) (version c) (enabled c) (id c) (closed c)
    (isFirstErrorReported c) (jobConfigs c) (timers c) v (jobRuntime c)
    (counters c) (metrics c) (errors c) (_versionCheckResult c)
    (_notificationsChangeListeners c).

Definition setJobRuntime (v : ReportActions -> option JobRuntime.t)
  (c : Client) : Client :=
  mkClient (name c) (version c) (enabled c) (id c) (closed c)
    (isFirstErrorReported c) (jobConfigs c) (timers c) (jobs c) v
    (counters c) (metrics c) (errors c) (_versionCheckResult c)
    (_notificationsChangeListeners c).

Definition setCounters (v : Json) (c : Client) : Client :=
  mkClient (name c) (version c) (enabled c) (id c) (closed c)
    (isFirstErrorReported c) (jobConfigs c) (timers c) (jobs c) (jobRuntime c)
    v (metrics c) (errors c) (_versionCheckResult c)
    (_notificationsChangeListeners c).

Definition setMetrics (v : Json) (c : Client) : Client :=
  mkClient (name c) (version c) (enabled c) (id c) (closed c)
    (isFirstErrorReported c) (jobConfigs c) (timers c) (jobs c) (jobRuntime c)
    (counters c) v (errors c) (_versionCheckResult c)
    (_notificationsChangeListeners c).

Definition setErrors (v : JsRecord.t ErrorInfo.t) (c : Client) : Client :=
  mkClient (name c) (version c) (enabled c) (id c) (closed c)
    (isFirstErrorReported c) (jobConfigs c) (timers c) (jobs c) (jobRuntime c)
    (counters c) (metrics c) v (_versionCheckResult c)
    (_notificationsChangeListeners c).

Definition setVersionCheckResult (v : list NotificationItem) (c : Client)
  : Client :=
  mkClient (name c) (version c) (enabled c) (id c) (closed c)
    (isFirstErrorReported c) (jobConfigs c) (timers c) (jobs c) (jobRuntime c)
    (counters c) (metrics c) (errors c) v (_notificationsChangeListeners c).

Definition setListeners (v : list Listener) (c : Client) : Client :=
  mkClient (name c) (version c) (enabled c) (id c) (closed c)
    (isFirstErrorReported c) (jobConfigs c) (timers c) (jobs c) (jobRuntime c)
    (counters c) (metrics c) (errors c) (_versionCheckResult c) v.

(** [onThis f w]: the client of [w] replaced by [f] of it. *)
Definition onThis (f : Client -> Client) (w : World) : World :=
  mkWorld (f (this w)) (env w) (timeouts w) (nextTimeout w) (requests w)
    (nextRequest w) (nextExecution w) (awaiting w) (microtasks w) (trace w).

Definition emit (e : Effect) (w : World) : World :=
  mkWorld (this w) (env w) (timeouts w) (nextTimeout w) (requests w)
    (nextRequest w) (nextExecution w) (awaiting w) (microtasks w)
    (e :: trace w).

Definition setTimeouts (v : list Timeout.t) (w : World) : World :=
  mkWorld (this w) (env w) v (nextTimeout w) (requests w)
    (nextRequest w) (nextExecution w) (awaiting w) (microtasks w) (trace w).

Definition setRequests (v : list (nat * Continuation)) (w : World) : World :=
  mkWorld (this w) (env w) (timeouts w) (nextTimeout w) v
    (nextRequest w) (nextExecution w) (awaiting w) (microtasks w) (trace w).

Definition setAwaiting (v : list (nat * list ReportActions)) (w : World)
  : World :=
  mkWorld (this w) (env w) (timeouts w) (nextTimeout w) (requests w)
    (nextRequest w) (nextExecution w) v (microtasks w) (trace w).

Definition setMicrotasks (v : list Listener) (w : World) : World :=
  mkWorld (this w) (env w) (timeouts w) (nextTimeout w) (requests w)
    (nextRequest w) (nextExecution w) (awaiting w) v (trace w).

(** *** Runtime services *)

(** [setTimeout(callback, ms)]: a fresh handle. *)
Definition setTimeout (name : ReportActions) (job : JobInfo.t) (ms : Z)
  (w : World) : World * nat :=
  let h := nextTimeout w in
  (emit (SetTimeout h name ms)
     (mkWorld (this w) (env w) (timeouts w ++ [Timeout.make h name job])
        (S h) (requests w) (nextRequest w) (nextExecution w) (awaiting w)
        (microtasks w) (trace w)),
   h).

Definition clearTimeout (h : nat) (w : World) : World :=
  emit (ClearTimeout h)
    (setTimeouts
       (filter (fun t => negb (Nat.eqb (Timeout.handle t) h)) (timeouts w)) w).

(** A new execution of a job body, by number. *)
Definition newExecution (w : World) : World * nat :=
  let x := nextExecution w in
  (mkWorld (this w) (env w) (timeouts w) (nextTimeout w) (requests w)
     (nextRequest w) (S x) (awaiting w) (microtasks w) (trace w),
   x).

(** ** The methods of the class *)

Definition defaultJobConfig (name : ReportActions) : JobConfig.t :=
  match name with
  | VersionCheck =>
      JobConfig.make true (60 * 60) "WORLDVIOUS_VERSION_CHECK_DISABLE"
        "WORLDVIOUS_VERSION_CHECK_TIMEOUT" true
  | ReportError =>
      JobConfig.make true (1 * 60) "WORLDVIOUS_ERROR_REPORT_DISABLE"
        "WORLDVIOUS_ERROR_REPORT_TIMEOUT" false
  | ReportCounters =>
      JobConfig.make true (60 * 60) "WORLDVIOUS_COUNTERS_REPORT_DISABLE"
        "WORLDVIOUS_COUNTERS_REPORT_TIMEOUT" false
  | ReportMetrics =>
      JobConfig.make true (60 * 60) "WORLDVIOUS_METRICS_REPORT_DISABLE"
        "WORLDVIOUS_METRICS_REPORT_TIMEOUT" false
  end.

(** [new WorldviousClient(logger, name, version)] under the environment
    [env]. *)
Definition constructor (env : Env) (name version : string) : Client :=
  let id := JsRecord.get "WORLDVIOUS_ID" env in
  let enabled := true in
  let enabled :=
    if enabled then (if negb (truthy id) then false else enabled)
    else enabled in
  let enabled :=
    if enabled
    then (if negb (truthy (JsRecord.get "WORLDVIOUS_URL" env)) then false
          else enabled)
    else enabled in
  let jobConfigs := fun n =>
    let config := defaultJobConfig n in
    if negb enabled then JobConfig.disable config
    else if truthy (JsRecord.get (JobConfig.disableEnvName config) env)
         then JobConfig.disable config
         else config in
  mkClient name version enabled id false false jobConfigs
    (fun _ => None) (fun _ => None) (fun _ => None)
    (JOpaque "[]") (JOpaque "[]") [] [] [].

(** The world right after construction. *)
Definition boot (env : Env) (name version : string) : World :=
  mkWorld (constructor env name version) env [] 0 [] 0 0 [] [] [].

Definition _register (name : ReportActions) (cb : JobCallback)
  (preScheduleCb : option PreScheduleCallback) (w : World) : World :=
  let config := jobConfigs (this w) name in
  if negb (JobConfig.enabled config) then w
  else
    let seconds := JobConfig.delaySeconds config in
    let seconds :=
      if truthy (Some (JobConfig.overrideEnvName config)) then
        let overrideValue :=
          JsRecord.get (JobConfig.overrideEnvName config) (env w) in
        if truthy overrideValue then
          match JsNumber.parseInt (interpolate overrideValue) with
          | Some parsed => parsed
          | None => seconds
          end
        else seconds
      else seconds in
    onThis (fun c =>
      setJobRuntime (upd (jobRuntime c) name (Some (JobRuntime.make false)))
        (setJobs
           (upd (jobs c) name
              (Some (JobInfo.make name seconds cb preScheduleCb))) c)) w.

Definition _schedule (w : World) : World :=
  let w := _register VersionCheck CheckVersion None w in
  let w := _register ReportError ReportErrors (Some ResetFirstError) w in
  let w := _register ReportCounters ReportCountersCb None w in
  _register ReportMetrics ReportMetricsCb None w.

Definition _makeNewData (c : Client) : Data :=
  [("id", json_of_opt (id c)); ("process", JStr (name c))].

(** [`${process.env.WORLDVIOUS_URL}/${url}`]. *)
Definition requestUrl (env : Env) (url : string) : string :=
  (interpolate (JsRecord.get "WORLDVIOUS_URL" env) ++ "/" ++ url)%string.

Arguments requestUrl : simpl never.

(** [_request(url, data)]: the POST leaves now; [k] is what resumes when it
    settles. *)
Definition _request (url : string) (data : Data) (k : Continuation)
  (w : World) : World :=
  let fullUrl := requestUrl (env w) url in
  let r := nextRequest w in
  emit (HttpPost fullUrl data)
    (mkWorld (this w) (env w) (timeouts w) (nextTimeout w)
       (requests w ++ [(r, k)]) (S r) (nextExecution w) (awaiting w)
       (microtasks w) (trace w)).

(** [_trigger(cb)]: the call of [cb] is a promise job,
    [Promise.resolve(null).then(() => cb(this._versionCheckResult))]; what
    [cb] throws or rejects with is caught there. *)
Definition _trigger (cb : Listener) (w : World) : World :=
  setMicrotasks (microtasks w ++ [cb]) w.

(** The promise jobs queued by [_trigger], run in order at the end of the
    turn; each reads [_versionCheckResult] when it runs. *)
Definition runMicrotasks (w : World) : World :=
  fold_left
    (fun w cb => emit (ListenerCall cb (_versionCheckResult (this w))) w)
    (microtasks w) (setMicrotasks [] w).

Definition onNotificationsChanged (cb : Listener) (w : World) : World :=
  let w :=
    onThis (fun c =>
      setListeners (_notificationsChangeListeners c ++ [cb]) c) w in
  _trigger cb w.

Definition _activateNewVersionInfo (result : list NotificationItem)
  (w : World) : World :=
  let w := onThis (setVersionCheckResult result) w in
  fold_left (fun w cb => _trigger cb w)
    (_notificationsChangeListeners (this w)) w.

(** What calling [job.cb()] gives the handler: an exception, a value that
    is already settled, or a promise waiting for the transport. *)
Inductive BodyResult : Type :=
| Threw
| Returned
| Pending.

(** The bodies of the jobs.  Each is handed [K], which turns the rest of
    the body into the continuation of the request it issues: the handler
    that called the body chains its own completion code behind it. *)
Definition _checkVersion (K : BodyCont -> Continuation) (w : World)
  : World * BodyResult :=
  let data := _makeNewData (this w) in
  let data := data ++ [("version", JStr (version (this w)))] in
  (_request "report/version" data (K ThenActivate) w, Pending).

Definition _reportCounters (K : BodyCont -> Continuation) (w : World)
  : World * BodyResult :=
  let data := _makeNewData (this w) in
  let data := data ++ [("counters", counters (this w))] in
  (_request "report/counters" data (K ThenDone) w, Pending).

Definition _reportMetrics (K : BodyCont -> Continuation) (w : World)
  : World * BodyResult :=
  let data := _makeNewData (this w) in
  let data := data ++ [("metrics", metrics (this w))] in
  (_request "report/metrics" data (K ThenDone) w, Pending).

(** The payload [_reportError] builds for one entry of [errors]. *)
Definition errorPayload (c : Client) (errorInfo : ErrorInfo.t) : Data :=
  let data := _makeNewData c in
  let data := data ++ [("version", JStr (version c))] in
  let data := data ++ [("error", JStr (ErrorInfo.error errorInfo))] in
  data ++ [("count", JNum (Z.of_nat (ErrorInfo.count errorInfo)))].

(** [MyPromise.serial(payloads, data => this._request('report/error',
    data))]: one request at a time; the next one leaves when the previous
    one has succeeded, and a failure rejects the whole. *)
Definition serialRequests (K : BodyCont -> Continuation)
  (payloads : list Data) (w : World) : World * BodyResult :=
  match payloads with
  | [] => (w, Returned)
  | data :: rest =>
      (_request "report/error" data (K (ThenSerial rest)) w, Pending)
  end.

(** The loop of [_reportError] over [_.values(this.errors)]. *)
Definition buildPayloads (c : Client) : list Data :=
  map (errorPayload c) (JsRecord.values (errors c)).

Definition _reportError (K : BodyCont -> Continuation) (w : World)
  : World * BodyResult :=
  if Nat.eqb (length (JsRecord.keys (errors (this w)))) 0 then (w, Returned)
  else
    let payloads := buildPayloads (this w) in
    let w := emit BatchSnapshot (onThis (setErrors []) w) in
    serialRequests K payloads w.

Definition callJob (cb : JobCallback) (K : BodyCont -> Continuation)
  (w : World) : World * BodyResult :=
  match cb with
  | CheckVersion => _checkVersion K w
  | ReportErrors => _reportError K w
  | ReportCountersCb => _reportCounters K w
  | ReportMetricsCb => _reportMetrics K w
  end.

Definition callPreSchedule (cb : PreScheduleCallback) (w : World) : World :=
  match cb with
  | ResetFirstError => onThis (setIsFirstErrorReported false) w
  end.

Definition _getErrorString (error : JsValue) : string :=
  match error with
  | JsNull | JsUndefined => "UNDEFINED ERROR"
  | JsObject stack toString =>
      if truthy stack then interpolate stack else toString
  end.

Definition _stopScheduledJob (name : ReportActions) (w : World) : World :=
  match timers (this w) name with
  | Some timer =>
      let w := clearTimeout timer w in
      onThis (fun c => setTimers (upd (timers c) name None) c) w
  | None => w
  end.

(** What [_runJob] returns: [null], a settled promise, the promise of
    execution [x], which settles when its body and the rearm after it are
    done, or the promise of the handler's chain behind a body of job [name]
    that returned at once: the links of that chain, the last of which lowers
    the running flag and rearms, are promise jobs that have not run when the
    handler returns. *)
Inductive RunResult : Type :=
| RNull
| RResolved
| RAwait (x : nat)
| RCompleting (name : ReportActions).

(** The [else] branch of [_runJob]: arm a timer unless one is pending. *)
Definition armTimer (name : ReportActions) (job : JobInfo.t) (w : World)
  : World :=
  match timers (this w) name with
  | Some _ => w
  | None =>
      let w :=
        match JobInfo.preScheduleCb job with
        | Some pre => callPreSchedule pre (emit (PreSchedule name) w)
        | None => w
        end in
      let '(w, timer) := setTimeout name job (JobInfo.seconds job * 1000) w in
      onThis (fun c => setTimers (upd (timers c) name (Some timer)) c) w
  end.

(** [_runJob(name, false)]. *)
Definition _runJobLater (name : ReportActions) (w : World) : World :=
  if closed (this w) then w
  else if negb (JobConfig.enabled (jobConfigs (this w) name)) then w
  else
    match jobs (this w) name with
    | None => w
    | Some job => armTimer name job w
    end.

(** [this.jobRuntime[name].isRunning = v]. *)
Definition setRunning (name : ReportActions) (v : bool) (w : World) : World :=
  onThis (fun c =>
    setJobRuntime (upd (jobRuntime c) name (Some (JobRuntime.make v))) c) w.

(** The last link of the handler's promise chain:
    [this.jobRuntime[name].isRunning = false; this._runJob(name, false)]. *)
Definition finish (name : ReportActions) (w : World) : World :=
  match jobRuntime (this w) name with
  | None => w
  | Some _ => _runJobLater name (setRunning name false w)
  end.

(** The handler starts an execution: it raises the running flag and calls
    [job.cb()]. *)
Definition execute (name : ReportActions) (job : JobInfo.t) (w : World)
  : World * nat * BodyResult :=
  let w := setRunning name true w in
  let '(w, x) := newExecution w in
  let w := emit (BodyStart name) w in
  let '(w, res) := callJob (JobInfo.cb job) (KJob x name) w in
  (w, x, res).

(** The closure [handler] of [_runJob(name, _)], for the [job] it closes
    over.  When the body returns at once, the handler returns with the
    running flag up: the rest of its chain is left to the promise jobs. *)
Definition handler (name : ReportActions) (job : JobInfo.t) (w : World)
  : World * RunResult :=
  match jobRuntime (this w) name with
  | None => (w, RNull)
  | Some runtime =>
      if JobRuntime.isRunning runtime then (_runJobLater name w, RNull)
      else
        match execute name job w with
        | (w, _, Threw) => (w, RResolved)
        | (w, _, Returned) => (w, RCompleting name)
        | (w, x, Pending) => (w, RAwait x)
        end
  end.

(** The promise jobs of the chain a handler left behind: when the
    synchronous code that called the handler is done, the last link runs. *)
Definition completion (p : World * RunResult) : World :=
  match p with
  | (w, RCompleting name) => finish name w
  | (w, _) => w
  end.

Definition _runJob (name : ReportActions) (executeNow : bool) (w : World)
  : World * RunResult :=
  if closed (this w) then (w, RNull)
  else if negb (JobConfig.enabled (jobConfigs (this w) name))
  then (w, RResolved)
  else
    match jobs (this w) name with
    | None => (w, RNull)
    | Some job =>
        if executeNow then
          let w := _stopScheduledJob name w in
          handler name job w
        else (armTimer name job w, RNull)
    end.

(** The callback of the timeout armed by [_runJob]; it drops what the
    handler returns, and the chain the handler started goes on by itself. *)
Definition timerCallback (name : ReportActions) (job : JobInfo.t)
  (w : World) : World * RunResult :=
  let w := onThis (fun c => setTimers (upd (timers c) name None) c) w in
  handler name job w.

(** [MyPromise.serial(_.keys(this.jobConfigs), name => this._runJob(name,
    config.shouldStartImmediately))]: the loop goes on after a [null] or a
    settled promise and waits for a pending one; behind a body that returned
    at once it goes on when the handler's chain is through.  The loop is
    itself made of promise jobs. *)
Fixpoint serialJobs (names : list ReportActions) (w : World) : World :=
  match names with
  | [] => w
  | name :: rest =>
      let config := jobConfigs (this w) name in
      match _runJob name (JobConfig.shouldStartImmediately config) w with
      | (w, RAwait x) => setAwaiting (awaiting w ++ [(x, rest)]) w
      | (w, RCompleting nm) => serialJobs rest (finish nm w)
      | (w, _) => serialJobs rest w
      end
  end.

(** What [init()] does once its promise chain runs. *)
Definition init (w : World) : World :=
  let w := _schedule w in
  serialJobs allJobs w.

Definition close (w : World) : World :=
  let w := onThis (setClosed true) w in
  let w :=
    fold_left
      (fun w name =>
         match timers (this w) name with
         | Some timer => clearTimeout timer w
         | None => w
         end)
      allJobs w in
  onThis (setTimers (fun _ => None)) w.

(** The first half of [acceptError]: the count of the signature.  When
    [errors] has no entry of its own for the signature and the signature is
    an inherited name, [this.errors[errorStr]] is the inherited member, the
    [if] passes, and the assignment to its [count] leaves [errors] as it
    is. *)
Definition recordError (error : JsValue) (w : World) : World :=
  let errorStr := _getErrorString error in
  let w :=
    onThis (fun c =>
      match JsRecord.get errorStr (errors c) with
      | Some info =>
          setErrors
            (JsRecord.set errorStr
               (ErrorInfo.make (ErrorInfo.error info)
                  (ErrorInfo.count info + 1)) (errors c)) c
      | None =>
          if JsRecord.inherited errorStr then c
          else
            setErrors
              (JsRecord.set errorStr (ErrorInfo.make errorStr 1) (errors c)) c
      end) w in
  emit (ErrorAccepted errorStr) w.

(** [acceptError(error)]: the state when the call returns, and what it
    returns. *)
Definition acceptError (error : JsValue) (w : World) : World * RunResult :=
  let w := recordError error w in
  if negb (isFirstErrorReported (this w)) then
    let w := onThis (setIsFirstErrorReported true) w in
    _runJob ReportError true w
  else (w, RNull).

Definition acceptCounters (value : Json) (w : World) : World :=
  onThis (setCounters value) w.

Definition acceptMetrics (value : Json) (w : World) : World :=
  onThis (setMetrics value) w.

Definition reportFeedback (data : FeedbackSubmitData.t) (w : World) : World :=
  if negb (truthy (id (this w))) then w
  else
    let body :=
      [("id", json_of_opt (id (this w)));
       ("feedbackId", JStr (FeedbackSubmitData.id data));
       ("answers", FeedbackSubmitData.answers data)] in
    _request "report/feedback" body KHost w.

(** ** The event loop *)

(** The handler's promise for execution [x] has settled: the serial loop
    of [init] that waits for it goes on. *)
Definition resume (x : nat) (w : World) : World :=
  let mine := filter (fun a => Nat.eqb (fst a) x) (awaiting w) in
  let others := filter (fun a => negb (Nat.eqb (fst a) x)) (awaiting w) in
  fold_left (fun w a => serialJobs (snd a) w) mine (setAwaiting others w).

Fixpoint findRequest (r : nat) (l : list (nat * Continuation))
  : option Continuation :=
  match l with
  | [] => None
  | (r', k) :: l' => if Nat.eqb r' r then Some k else findRequest r l'
  end.

Fixpoint findTimeout (h : nat) (l : list Timeout.t) : option Timeout.t :=
  match l with
  | [] => None
  | t :: l' => if Nat.eqb (Timeout.handle t) h then Some t else findTimeout h l'
  end.

(** Request [r] is done with. *)
Definition dropRequest (r : nat) (w : World) : World :=
  setRequests (filter (fun q => negb (Nat.eqb (fst q) r)) (requests w)) w.

(** The body of execution [x] of job [name] has settled with its last
    request [r]: the handler's chain finishes, then whoever waits for the
    handler's promise goes on. *)
Definition bodySettled (r x : nat) (name : ReportActions) (w : World)
  : World :=
  resume x (finish name (dropRequest r w)).

(** Request [r] settles with [outcome]. *)
Definition httpSettles (r : nat) (outcome : HttpOutcome) (w : World) : World :=
  match findRequest r (requests w) with
  | None => w
  | Some KHost => dropRequest r w
  | Some (KJob x name body) =>
      match outcome with
      | HttpFailed => bodySettled r x name w
      | HttpOk data =>
          match body with
          | ThenActivate =>
              match data with
              | Notifications items =>
                  bodySettled r x name (_activateNewVersionInfo items w)
              | NoData => bodySettled r x name w
              end
          | ThenSerial [] => bodySettled r x name w
          | ThenSerial (next :: rest) =>
              _request "report/error" next (KJob x name (ThenSerial rest))
                (dropRequest r w)
          | ThenDone => bodySettled r x name w
          end
      end
  end.

(** The runtime retires timeout [h]. *)
Definition expire (h : nat) (w : World) : World :=
  setTimeouts
    (filter (fun t => negb (Nat.eqb (Timeout.handle t) h)) (timeouts w)) w.

(** The live timeout [h] fires: its callback, then the promise jobs of the
    chain the handler started. *)
Definition timerFires (h : nat) (w : World) : World :=
  match findTimeout h (timeouts w) with
  | None => w
  | Some t =>
      completion (timerCallback (Timeout.name t) (Timeout.job t) (expire h w))
  end.

Inductive Event : Type :=
| Init
| Close
| AcceptError (error : JsValue)
| AcceptCounters (value : Json)
| AcceptMetrics (value : Json)
| ReportFeedback (data : FeedbackSubmitData.t)
| OnNotificationsChanged (cb : Listener)
| TimerFires (h : nat)
| HttpSettles (r : nat) (outcome : HttpOutcome).

(** A turn up to the listener calls: the synchronous code, then the promise
    jobs of the handler chain it started. *)
Definition dispatch (ev : Event) (w : World) : World :=
  match ev with
  | Init => init w
  | Close => close w
  | AcceptError error => completion (acceptError error w)
  | AcceptCounters value => acceptCounters value w
  | AcceptMetrics value => acceptMetrics value w
  | ReportFeedback data => reportFeedback data w
  | OnNotificationsChanged cb => onNotificationsChanged cb w
  | TimerFires h => timerFires h w
  | HttpSettles r outcome => httpSettles r outcome w
  end.

(** One turn: [dispatch], then the queued listener calls. *)
Definition step (ev : Event) (w : World) : World :=
  runMicrotasks (dispatch ev w).

Definition run (evs : list Event) (w : World) : World :=
  fold_left (fun w ev => step ev w) evs w.

(** The trace in chronological order. *)
Definition history (w : World) : list Effect := rev (trace w).

(** * Invariants, measures and blocks

    The vocabulary of the properties below: what holds of every state the
    client can reach, what is counted on the trace, and the guarded blocks
    a turn is made of. *)

Definition timersTracked (w : World) : Prop :=
  forall t, In t (timeouts w) ->
    timers (this w) (Timeout.name t) = Some (Timeout.handle t).

Definition closedQuiet (w : World) : Prop :=
  closed (this w) = true -> timeouts w = [].

Definition timerInv (w : World) : Prop := timersTracked w /\ closedQuiet w.

(** [f] leaves the timers, the live timeouts and [closed] alone. *)
Definition keepsTimers (w w' : World) : Prop :=
  timers (this w') = timers (this w) /\
  timeouts w' = timeouts w /\
  closed (this w') = closed (this w).

Inductive Tag : Type :=
| TRecord | TLatch | TStop | TArm | TExecute | TExecuteReturned | TComplete
| TDrop | TNext | TActivate | TFire | TClose | TCounters | TMetrics
| TFeedback | TListen | TMicrotasks | TAwait | TUnawait.

Inductive Op : Tag -> World -> World -> Prop :=
| op_record error w : Op TRecord w (recordError error w)
| op_latch w : Op TLatch w (onThis (setIsFirstErrorReported true) w)
| op_stop nm w :
    closed (this w) = false -> Op TStop w (_stopScheduledJob nm w)
| op_arm nm job w :
    closed (this w) = false ->
    JobConfig.enabled (jobConfigs (this w) nm) = true ->
    jobs (this w) nm = Some job ->
    Op TArm w (armTimer nm job w)
| op_execute nm job w :
    closed (this w) = false ->
    jobRuntime (this w) nm = Some (JobRuntime.make false) ->
    snd (execute nm job w) <> Returned ->
    Op TExecute w (fst (fst (execute nm job w)))
| op_execute_returned nm job w :
    closed (this w) = false ->
    jobRuntime (this w) nm = Some (JobRuntime.make false) ->
    snd (execute nm job w) = Returned ->
    Op TExecuteReturned w (setRunning nm false (fst (fst (execute nm job w))))
| op_complete r x nm k w :
    findRequest r (requests w) = Some (KJob x nm k) ->
    jobRuntime (this w) nm <> None ->
    Op TComplete w (setRunning nm false (dropRequest r w))
| op_drop r w : Op TDrop w (dropRequest r w)
| op_next r x nm next rest w :
    findRequest r (requests w) = Some (KJob x nm (ThenSerial (next :: rest))) ->
    Op TNext w (_request "report/error" next (KJob x nm (ThenSerial rest))
                  (dropRequest r w))
| op_activate items w : Op TActivate w (_activateNewVersionInfo items w)
| op_fire h t w :
    findTimeout h (timeouts w) = Some t ->
    Op TFire w
      (onThis (fun c => setTimers (upd (timers c) (Timeout.name t) None) c)
         (expire h w))
| op_close w : Op TClose w (close w)
| op_counters value w : Op TCounters w (acceptCounters value w)
| op_metrics value w : Op TMetrics w (acceptMetrics value w)
| op_feedback data w : Op TFeedback w (reportFeedback data w)
| op_listen cb w : Op TListen w (onNotificationsChanged cb w)
| op_microtasks w : Op TMicrotasks w (runMicrotasks w)
| op_await x nm rest w :
    JobConfig.shouldStartImmediately (jobConfigs (this w) nm) = true ->
    Op TAwait w (setAwaiting (awaiting w ++ [(x, rest)]) w)
| op_unawait x w :
    Op TUnawait w
      (setAwaiting
         (filter (fun a => negb (Nat.eqb (fst a) x)) (awaiting w)) w).

(** Sequences of blocks whose tags pass [allow]. *)
Inductive Ops (allow : Tag -> bool) (w1 : World) : World -> Prop :=
| ops_nil : Ops allow w1 w1
| ops_cons t w2 w3 :
    Ops allow w1 w2 -> allow t = true -> Op t w2 w3 -> Ops allow w1 w3.

Definition armTag (t : Tag) : bool :=
  match t with TArm => true | _ => false end.

(** What the handler can do. *)
Definition handlerTags (t : Tag) : bool :=
  match t with
  | TArm | TExecute | TExecuteReturned => true
  | _ => false
  end.

(** What [_runJob] can do. *)
Definition runTags (t : Tag) : bool :=
  match t with
  | TStop | TArm | TExecute | TExecuteReturned => true
  | _ => false
  end.

(** What the end of a body can set off. *)
Definition bodyTags (t : Tag) : bool :=
  match t with
  | TStop | TArm | TExecute | TExecuteReturned | TAwait | TUnawait
  | TComplete | TDrop => true
  | _ => false
  end.

(** What a settling request can set off. *)
Definition settleTags (t : Tag) : bool :=
  match t with
  | TStop | TArm | TExecute | TExecuteReturned | TAwait | TUnawait
  | TComplete | TDrop | TNext | TActivate => true
  | _ => false
  end.

Definition anyTag (t : Tag) : bool := true.

(** What a firing timer can do. *)
Definition fireTags (t : Tag) : bool :=
  match t with
  | TFire | TArm | TExecute | TExecuteReturned => true
  | _ => false
  end.

(** What [acceptError] can do. *)
Definition acceptTags (t : Tag) : bool :=
  match t with
  | TRecord | TLatch | TStop | TArm | TExecute | TExecuteReturned => true
  | _ => false
  end.

(** What a turn starts from, as far as blocks go: [init] first runs
    [_schedule]. *)
Definition scheduled (ev : Event) (w : World) : World :=
  match ev with
  | Init => _schedule w
  | _ => w
  end.

(** The blocks of the synchronous part of a turn. *)
Definition dispatchTags (ev : Event) : Tag -> bool :=
  match ev with
  | Init => settleTags
  | Close => fun t => match t with TClose => true | _ => false end
  | AcceptError _ => acceptTags
  | AcceptCounters _ => fun t => match t with TCounters => true | _ => false end
  | AcceptMetrics _ => fun t => match t with TMetrics => true | _ => false end
  | ReportFeedback _ => fun t => match t with TFeedback => true | _ => false end
  | OnNotificationsChanged _ =>
      fun t => match t with TListen => true | _ => false end
  | TimerFires _ => fireTags
  | HttpSettles _ _ => settleTags
  end.

Definition countIf (p : Effect -> bool) (l : list Effect) : nat :=
  length (filter p l).

Definition isBodyStart (e : Effect) : bool :=
  match e with BodyStart _ => true | _ => false end.

Definition isSetTimeout (e : Effect) : bool :=
  match e with SetTimeout _ _ _ => true | _ => false end.

Definition isHttpPost (e : Effect) : bool :=
  match e with HttpPost _ _ => true | _ => false end.

Definition isPostTo (url : string) (e : Effect) : bool :=
  match e with HttpPost u _ => String.eqb u url | _ => false end.

(** Bodies started, timers armed, and requests sent to [path] so far. *)
Definition started (w : World) : nat := countIf isBodyStart (trace w).
Definition armed (w : World) : nat := countIf isSetTimeout (trace w).
Definition posted (path : string) (w : World) : nat :=
  countIf (isPostTo (requestUrl (env w) path)) (trace w).

(** Payloads that flushes in flight still have to send. *)
Definition backlog (k : Continuation) : nat :=
  match k with
  | KJob _ _ (ThenSerial rest) => length rest
  | _ => 0
  end.

Fixpoint queuedIn (l : list (nat * Continuation)) : nat :=
  match l with
  | [] => 0
  | (_, k) :: l' => backlog k + queuedIn l'
  end.

Definition queued (w : World) : nat := queuedIn (requests w).

(** The scheduler is dormant: no timeout is live, and the client is closed
    or has every job disabled and unregistered. *)
Definition dormant (w : World) : Prop :=
  timeouts w = [] /\
  (closed (this w) = true \/
   ((forall n, JobConfig.enabled (jobConfigs (this w) n) = false) /\
    (forall n, jobRuntime (this w) n = None))).

(** Nothing the scheduler could do has happened between [w] and [w']. *)
Definition quiet (w w' : World) : Prop :=
  dormant w' /\
  env w' = env w /\
  started w' = started w /\
  armed w' = armed w /\
  posted "report/version" w' = posted "report/version" w /\
  posted "report/counters" w' = posted "report/counters" w /\
  posted "report/metrics" w' = posted "report/metrics" w /\
  posted "report/error" w' + queued w' <= posted "report/error" w + queued w.

Definition isClearTimeout (e : Effect) : bool :=
  match e with ClearTimeout _ => true | _ => false end.

Definition inert (e : Effect) : bool :=
  match e with
  | BodyStart _ | SetTimeout _ _ _ | HttpPost _ _ => false
  | _ => true
  end.

(** [w'] differs from [w] in the registered jobs at most. *)
Definition sameButJobs (w w' : World) : Prop :=
  closed (this w') = closed (this w) /\ timeouts w' = timeouts w /\
  env w' = env w /\ trace w' = trace w /\ requests w' = requests w /\
  errors (this w') = errors (this w) /\
  jobConfigs (this w') = jobConfigs (this w) /\
  awaiting w' = awaiting w /\ microtasks w' = microtasks w /\
  timers (this w') = timers (this w).

Definition isRequestOf (name : ReportActions) (q : nat * Continuation) : bool :=
  match snd q with
  | KJob _ n _ => ReportActions_eqb n name
  | KHost => false
  end.

(** Executions of job [name] whose body waits for the transport. *)
Definition inflight (name : ReportActions) (w : World) : nat :=
  length (filter (isRequestOf name) (requests w)).

Definition isRunning (name : ReportActions) (w : World) : bool :=
  match jobRuntime (this w) name with
  | Some runtime => JobRuntime.isRunning runtime
  | None => false
  end.

Definition oneAtATime (w : World) : Prop :=
  forall name,
    inflight name w <= 1 /\ (inflight name w = 1 -> isRunning name w = true).

(** Before [init]: nothing registered, nothing in flight. *)
Definition preInit (w : World) : Prop :=
  forall name, jobRuntime (this w) name = None /\ inflight name w = 0.

(** [init] is called once at most. *)
Fixpoint initCount (evs : list Event) : nat :=
  match evs with
  | [] => 0
  | Init :: evs' => S (initCount evs')
  | _ :: evs' => initCount evs'
  end.

(** A job with a runtime record is enabled and registered. *)
Definition registered (w : World) : Prop :=
  forall nm,
    jobRuntime (this w) nm <> None ->
    JobConfig.enabled (jobConfigs (this w) nm) = true /\
    jobs (this w) nm <> None.

(** The count the pending map holds for a signature. *)
Definition pendingCount (s : string) (errs : JsRecord.t ErrorInfo.t) : nat :=
  match JsRecord.get s errs with
  | Some info => ErrorInfo.count info
  | None => 0
  end.

(** The [acceptError] calls of signature [s] since the last batch snapshot,
    read off the trace (newest entry first). *)
Fixpoint acceptedSince (s : string) (tr : list Effect) : nat :=
  match tr with
  | [] => 0
  | BatchSnapshot :: _ => 0
  | ErrorAccepted s' :: tr' =>
      (if String.eqb s' s then 1 else 0) + acceptedSince s tr'
  | _ :: tr' => acceptedSince s tr'
  end.

(** Every entry sits under its own signature and counts one occurrence at
    least, and no key is repeated. *)
Definition wfErrors (errs : JsRecord.t ErrorInfo.t) : Prop :=
  NoDup (JsRecord.keys errs) /\
  forall k info,
    In (k, info) errs -> ErrorInfo.error info = k /\ 1 <= ErrorInfo.count info.

(** The pending map counts the [acceptError] calls since the last
    snapshot, for every signature but the inherited names, which it never
    holds. *)
Definition errorsOk (w : World) : Prop :=
  wfErrors (errors (this w)) /\
  forall s,
    pendingCount s (errors (this w))
    = if JsRecord.inherited s then 0 else acceptedSince s (trace w).

(** Entries of the trace that neither accept an error nor take a
    snapshot. *)
Definition plain (e : Effect) : bool :=
  match e with
  | ErrorAccepted _ | BatchSnapshot => false
  | _ => true
  end.

(** The payloads of a batch that report signature [s]. *)
Definition payloadsFor (s : string) (payloads : list Data) : list Data :=
  filter
    (fun data =>
       match JsRecord.get "error" data with
       | Some (JStr e) => String.eqb e s
       | _ => false
       end) payloads.

(** What holds of every world the client can be in. *)
Definition sound (w : World) : Prop :=
  timerInv w /\ registered w /\ errorsOk w.

(** The trigger that found job [nm] running was turned into a fresh timer:
    no body was started, nothing was queued, and the job's timer is a new
    timeout for its interval. *)
Definition rearmedInstead (nm : ReportActions) (w w' : World) : Prop :=
  started w' = started w /\
  requests w' = requests w /\
  awaiting w' = awaiting w /\
  exists job,
    jobs (this w) nm = Some job /\
    timers (this w') nm = Some (nextTimeout w) /\
    In (Timeout.make (nextTimeout w) nm job) (timeouts w') /\
    hd_error (trace w')
    = Some (SetTimeout (nextTimeout w) nm (JobInfo.seconds job * 1000)).

(** The configuration and identity of the client are the same in [w'] as
    in [w]; [closed] is not reset. *)
Definition sameSetup (w w' : World) : Prop :=
  jobConfigs (this w') = jobConfigs (this w) /\
  env w' = env w /\
  id (this w') = id (this w) /\
  name (this w') = name (this w) /\
  version (this w') = version (this w) /\
  enabled (this w') = enabled (this w) /\
  (closed (this w) = true -> closed (this w') = true).

(** The signature a payload reports. *)
Definition payloadSignature (data : Data) : option Json :=
  JsRecord.get "error" data.

Definition sampleEnv : Env :=
  [("WORLDVIOUS_ID", "abc"); ("WORLDVIOUS_URL", "http://collector")].

Definition sampleWorld : World := boot sampleEnv "proc" "1.0".

Definition errorOf (s : string) : JsValue := JsObject None s.

Definition ok : HttpOutcome := HttpOk NoData.

(** The client has checked the version, flushed a first error, collected two
    more, and its error timer has fired: the flush of the two is in flight,
    one request out and one payload queued. *)
Definition flushInFlight : World :=
  run [Init; HttpSettles 0 (HttpOk (Notifications []));
       AcceptError (errorOf "a"); AcceptError (errorOf "b");
       AcceptError (errorOf "c"); HttpSettles 1 ok; TimerFires 4]
    sampleWorld.

Definition isListenerCall (e : Effect) : bool :=
  match e with ListenerCall _ _ => true | _ => false end.

(** The listener calls of a trace, newest first. *)
Definition listenerCalls (tr : list Effect) : list Effect :=
  filter isListenerCall tr.

(** [w'] has the notification state, listeners, queued calls and past
    listener calls of [w]. *)
Definition sameNotifications (w w' : World) : Prop :=
  _versionCheckResult (this w') = _versionCheckResult (this w) /\
  _notificationsChangeListeners (this w')
  = _notificationsChangeListeners (this w) /\
  microtasks w' = microtasks w /\
  listenerCalls (trace w') = listenerCalls (trace w).

(** The callback and the hook [_schedule] registers a job with. *)
Definition callbackOf (job : ReportActions) : JobCallback :=
  match job with
  | VersionCheck => CheckVersion
  | ReportError => ReportErrors
  | ReportCounters => ReportCountersCb
  | ReportMetrics => ReportMetricsCb
  end.

Definition hookOf (job : ReportActions) : option PreScheduleCallback :=
  match job with
  | ReportError => Some ResetFirstError
  | _ => None
  end.

Definition jobsOk (w : World) : Prop :=
  forall job info,
    jobs (this w) job = Some info ->
    JobInfo.name info = job /\ JobInfo.cb info = callbackOf job /\
    JobInfo.preScheduleCb info = hookOf job.

(** Only the version check starts immediately. *)
Definition cfgOk (w : World) : Prop :=
  forall job,
    JobConfig.shouldStartImmediately (jobConfigs (this w) job)
    = ReportActions_eqb job VersionCheck.

(** A request of a job belongs to a job with a runtime record. *)
Definition requestsOk (w : World) : Prop :=
  forall r x job k,
    In (r, KJob x job k) (requests w) -> jobRuntime (this w) job <> None.

(** The loops of [init] that wait for an execution have the version check
    behind them. *)
Definition awaitOk (w : World) : Prop :=
  forall x rest, In (x, rest) (awaiting w) -> ~ In VersionCheck rest.

(** What a settling request sets off once [init] is past the version
    check: nothing starts. *)
Definition laterTags (t : Tag) : bool :=
  match t with
  | TArm | TComplete | TDrop | TUnawait | TNext | TActivate => true
  | _ => false
  end.

(** What the serial loop of [init] does when it goes on after the version
    check. *)
Definition resumeTags (t : Tag) : bool :=
  match t with TArm | TUnawait => true | _ => false end.

(** Entries of the trace that are neither a hook call nor a timer of the
    error job. *)
Definition hookFree (e : Effect) : bool :=
  match e with
  | PreSchedule _ | SetTimeout _ ReportError _ => false
  | _ => true
  end.

(** In the trace, newest first: every timer of the error job has the hook
    call right before it, and a hook call stands nowhere else. *)
Fixpoint hooksOk (tr : list Effect) : bool :=
  match tr with
  | [] => true
  | SetTimeout _ ReportError _ :: PreSchedule ReportError :: rest =>
      hooksOk rest
  | SetTimeout _ ReportError _ :: _ => false
  | PreSchedule _ :: _ => false
  | _ :: rest => hooksOk rest
  end.

(** What the registration and the serial loop of [init] establish. *)
Definition grounded (w : World) : Prop :=
  jobsOk w /\ cfgOk w /\ requestsOk w /\ awaitOk w /\
  hooksOk (trace w) = true.

(** What [_stopScheduledJob] puts on the trace for the error job. *)
Definition cleared (w : World) : list Effect :=
  match timers (this w) ReportError with
  | Some h => [ClearTimeout h]
  | None => []
  end.

Definition isTimerOf (job : ReportActions) (e : Effect) : bool :=
  match e with
  | SetTimeout _ nm _ => ReportActions_eqb nm job
  | _ => false
  end.

(** Timers armed for [job] so far. *)
Definition armedFor (job : ReportActions) (w : World) : nat :=
  countIf (isTimerOf job) (trace w).

(** The settlement ends the body: it is a failure, or the success of the
    last request. *)
Definition endsBody (k : BodyCont) (outcome : HttpOutcome) : bool :=
  match outcome, k with
  | HttpOk _, ThenSerial (_ :: _) => false
  | _, _ => true
  end.

(** The job's timer after its body ended at [w], in [w']: none is armed
    on a closed client, a pending one is kept, and otherwise one fresh
    timer is armed for the job's interval. *)
Definition rearmed (job : ReportActions) (w w' : World) : Prop :=
  match closed (this w), timers (this w) job with
  | true, _ => armedFor job w' = armedFor job w
  | false, Some h =>
      timers (this w') job = Some h /\ armedFor job w' = armedFor job w
  | false, None =>
      exists info,
        jobs (this w) job = Some info /\
        timers (this w') job = Some (nextTimeout w) /\
        armedFor job w' = S (armedFor job w) /\
        In (SetTimeout (nextTimeout w) job (JobInfo.seconds info * 1000))
          (trace w') /\
        In (Timeout.make (nextTimeout w) job info) (timeouts w')
  end.

(** The body of [job] was started at [w] and returned at once, and [w'] is
    the end of that turn: the running flag is down again, no request was
    sent, the job is registered and configured as before, and one fresh
    timer for the job's interval was armed last. *)
Definition completedAtOnce (job : ReportActions) (w w' : World) : Prop :=
  isRunning job w' = false /\ started w' = S (started w) /\
  requests w' = requests w /\
  jobs (this w') = jobs (this w) /\
  jobConfigs (this w') = jobConfigs (this w) /\
  exists info,
    jobs (this w) job = Some info /\
    timers (this w') job = Some (nextTimeout w) /\
    armedFor job w' = S (armedFor job w) /\
    hd_error (trace w')
    = Some (SetTimeout (nextTimeout w) job (JobInfo.seconds info * 1000)) /\
    In (Timeout.make (nextTimeout w) job info) (timeouts w').

(** From [w1] to [w2] the job [job] is left as it is. *)
Definition keptFor (job : ReportActions) (w1 w2 : World) : Prop :=
  jobRuntime (this w2) = jobRuntime (this w1) /\
  timers (this w2) job = timers (this w1) job /\
  armedFor job w2 = armedFor job w1 /\
  started w2 = started w1 /\
  closed (this w2) = closed (this w1) /\
  jobs (this w2) = jobs (this w1) /\
  jobConfigs (this w2) = jobConfigs (this w1) /\
  incl (trace w1) (trace w2) /\
  incl (timeouts w1) (timeouts w2).

(** ** The override of an interval

    What the specification calls an override that is an integer, and one
    that is not, said without [Number.parseInt]: a decimal numeral, and a
    value in which no digit comes first. *)









(** ** Timer bookkeeping *)

(** What a block can do to the timers the client remembers and to the
    timeouts that are live: nothing, arm one for a job that has none, cancel
    or retire one, or clear them all. *)
Inductive TimerChange (w w' : World) : Prop :=
| tc_keep :
    timers (this w') = timers (this w) ->
    timeouts w' = timeouts w ->
    nextTimeout w' = nextTimeout w ->
    TimerChange w w'
| tc_arm nm job :
    timers (this w) nm = None ->
    jobs (this w) nm = Some job ->
    timers (this w') = upd (timers (this w)) nm (Some (nextTimeout w)) ->
    timeouts w' = timeouts w ++ [Timeout.make (nextTimeout w) nm job] ->
    nextTimeout w' = S (nextTimeout w) ->
    TimerChange w w'
| tc_cancel nm h :
    timers (this w) nm = Some h \/
    (exists t, findTimeout h (timeouts w) = Some t /\ Timeout.name t = nm) ->
    timers (this w') = upd (timers (this w)) nm None ->
    timeouts w'
    = filter (fun t => negb (Nat.eqb (Timeout.handle t) h)) (timeouts w) ->
    nextTimeout w' = nextTimeout w ->
    TimerChange w w'
| tc_close :
    (forall nm, timers (this w') nm = None) ->
    (forall t, In t (timeouts w') ->
       In t (timeouts w) /\
       forall nm, timers (this w) nm <> Some (Timeout.handle t)) ->
    nextTimeout w' = nextTimeout w ->
    TimerChange w w'.

(** Every timer the client remembers is a live timeout of that job. *)
Definition timersLive (w : World) : Prop :=
  forall nm h,
    timers (this w) nm = Some h ->
    exists t,
      In t (timeouts w) /\ Timeout.name t = nm /\ Timeout.handle t = h.

(** The handles of the live timeouts are distinct and already given out. *)
Definition handlesFresh (w : World) : Prop :=
  (forall t, In t (timeouts w) -> Timeout.handle t < nextTimeout w) /\
  NoDup (map Timeout.handle (timeouts w)).

(** The callback of a live timeout closes over the job as [_schedule]
    registers it. *)
Definition timeoutsOk (w : World) : Prop :=
  forall t,
    In t (timeouts w) ->
    JobInfo.cb (Timeout.job t) = callbackOf (Timeout.name t) /\
    JobInfo.preScheduleCb (Timeout.job t) = hookOf (Timeout.name t).

Definition timerBook (w : World) : Prop :=
  timersTracked w /\ timersLive w /\ handlesFresh w /\ timeoutsOk w.

Definition hasTimer (w : World) (nm : ReportActions) : bool :=
  match timers (this w) nm with Some _ => true | None => false end.

(** ** What is sent *)

(** Trace entries that cancel a timeout or call a listener. *)
Definition quietEntry (e : Effect) : bool :=
  match e with
  | ClearTimeout _ | ListenerCall _ _ => true
  | _ => false
  end.

(** The blocks that can put anything else on the trace. *)
Definition loudTag (t : Tag) : bool :=
  match t with
  | TRecord | TArm | TExecute | TExecuteReturned | TNext | TFeedback => true
  | _ => false
  end.


(** A payload of a job: it starts from [_makeNewData]. *)
Definition stamped (c : Client) (d : Data) : Prop :=
  JsRecord.get "id" d = Some (json_of_opt (id c)) /\
  JsRecord.get "process" d = Some (JStr (name c)).



(** ** A job switched off *)

Definition isStartOf (job : ReportActions) (e : Effect) : bool :=
  match e with
  | BodyStart nm => ReportActions_eqb nm job
  | _ => false
  end.

(** Bodies of [job] started so far. *)
Definition startedFor (job : ReportActions) (w : World) : nat :=
  countIf (isStartOf job) (trace w).

(** What a body puts on the trace after its start. *)
Definition bodyEntry (e : Effect) : bool :=
  match e with
  | HttpPost _ _ | BatchSnapshot => true
  | _ => false
  end.

(** The client has never had anything to do with [job]. *)
Definition neverUsed (job : ReportActions) (w : World) : Prop :=
  JobConfig.enabled (jobConfigs (this w) job) = false /\
  jobs (this w) job = None /\
  jobRuntime (this w) job = None /\
  timers (this w) job = None /\
  startedFor job w = 0 /\
  armedFor job w = 0.

(** ** Errors accepted by a client that sends nothing *)

(** The [acceptError] calls of signature [s] among the events [evs]. *)
Fixpoint acceptedIn (s : string) (evs : list Event) : nat :=
  match evs with
  | [] => 0
  | AcceptError error :: evs' =>
      (if String.eqb (_getErrorString error) s then 1 else 0)
      + acceptedIn s evs'
  | _ :: evs' => acceptedIn s evs'
  end.

(** ** Counters and metrics *)





(** ** No job is lost *)

(** A request of job [nm], and a request of execution [x], is out. *)
Definition hasRequest (nm : ReportActions) (w : World) : Prop :=
  exists r x k, In (r, KJob x nm k) (requests w).

Definition inFlight (x : nat) (w : World) : Prop :=
  exists r nm k, In (r, KJob x nm k) (requests w).

(** The job will run again: it is running, or a timer of it is pending, or
    the loop of [init] has it ahead. *)
Definition covered (nm : ReportActions) (w : World) : Prop :=
  isRunning nm w = true \/ timers (this w) nm <> None \/
  exists x rest, In (x, rest) (awaiting w) /\ In nm rest.

(** On an open client every registered job will run again. *)
Definition kept (w : World) : Prop :=
  closed (this w) = false ->
  forall nm, jobRuntime (this w) nm <> None -> covered nm w.

(** A job that is running has a request out. *)
Definition busyOk (w : World) : Prop :=
  forall nm, isRunning nm w = true -> hasRequest nm w.

(** The loop of [init] waits for executions that have a request out. *)
Definition awaitLive (w : World) : Prop :=
  forall x rest, In (x, rest) (awaiting w) -> inFlight x w.

Definition scheduleOk (w : World) : Prop :=
  kept w /\ busyOk w /\ awaitLive w.

(** The numbers of the requests that are out are distinct and already given
    out. *)
Definition requestIds (w : World) : Prop :=
  (forall q, In q (requests w) -> fst q < nextRequest w) /\
  NoDup (map fst (requests w)).

(** What a block can do to the requests that are out. *)
Inductive RequestChange (w w' : World) : Prop :=
| rc_keep :
    requests w' = requests w -> nextRequest w' = nextRequest w ->
    RequestChange w w'
| rc_add k :
    requests w' = requests w ++ [(nextRequest w, k)] ->
    nextRequest w' = S (nextRequest w) ->
    RequestChange w w'
| rc_drop r :
    requests w' = filter (fun q => negb (Nat.eqb (fst q) r)) (requests w) ->
    nextRequest w' = nextRequest w ->
    RequestChange w w'
| rc_next r k :
    requests w'
    = filter (fun q => negb (Nat.eqb (fst q) r)) (requests w)
      ++ [(nextRequest w, k)] ->
    nextRequest w' = S (nextRequest w) ->
    RequestChange w w'.

(** Sets of jobs, as the code touches them. *)
Definition only (nm : ReportActions) : ReportActions -> bool :=
  fun n => ReportActions_eqb nm n.

Definition among (names : list ReportActions) : ReportActions -> bool :=
  fun n => existsb (fun nm => ReportActions_eqb nm n) names.

(** From [w] to [w'] nothing is taken from the jobs outside [T]: the client
    stays open or closed, no job is registered or dropped, the jobs outside
    [T] keep their running flag and their timer, the loops of [init] and the
    requests that are out stay, and whatever runs or waits anew has a
    request out. *)
Definition moves (T : ReportActions -> bool) (w w' : World) : Prop :=
  closed (this w') = closed (this w) /\
  (forall n, jobRuntime (this w') n <> None <-> jobRuntime (this w) n <> None) /\
  (forall n, T n = false -> isRunning n w' = isRunning n w) /\
  (forall n, T n = false ->
     timers (this w) n <> None -> timers (this w') n <> None) /\
  incl (awaiting w) (awaiting w') /\
  incl (requests w) (requests w') /\
  (forall n, isRunning n w' = true -> isRunning n w = true \/ hasRequest n w') /\
  (forall x rest,
     In (x, rest) (awaiting w') -> In (x, rest) (awaiting w) \/ inFlight x w').

(** The registered jobs in [T] will run again. *)
Definition covers (T : ReportActions -> bool) (w : World) : Prop :=
  closed (this w) = false ->
  forall n, T n = true -> jobRuntime (this w) n <> None -> covered n w.

(** * The first revision of the class

    [src/index.ts], the revision the class started from: three jobs, no job
    configuration, no notifications.  It is embedded on its own, with the
    same conventions: one event is one turn, the transport is a black box,
    and the trace holds what the client did to the outside. *)
Module Legacy.

Inductive ReportActions : Type :=
| VersionCheck
| ReportError
| ReportCounters.

Definition ReportActions_eqb (a b : ReportActions) : bool :=
  match a, b with
  | VersionCheck, VersionCheck
  | ReportError, ReportError
  | ReportCounters, ReportCounters => true
  | _, _ => false
  end.

(** [_.keys(this.jobs)] once [_schedule] has registered the jobs. *)
Definition allJobs : list ReportActions :=
  [VersionCheck; ReportError; ReportCounters].

Definition upd {V} (r : ReportActions -> V) (name : ReportActions) (v : V)
  : ReportActions -> V :=
  fun n => if ReportActions_eqb name n then v else r n.

Inductive JobCallback : Type :=
| CheckVersion
| ReportErrors
| ReportCountersCb.

Module JobInfo.
Record t : Type := make {
  name : ReportActions;
  seconds : Z;
  cb : JobCallback;
  preScheduleCb : option PreScheduleCallback
}.
End JobInfo.

(** The fields of the class. *)
Record Client : Type := mkClient {
  name : string;
  version : string;
  enabled : bool;
  id : option string;
  closed : bool;
  isFirstErrorReported : bool;
  timers : ReportActions -> option nat;
  jobs : ReportActions -> option JobInfo.t;
  jobRuntime : ReportActions -> option JobRuntime.t;
  counters : Json;
  metrics : Json;
  errors : JsRecord.t ErrorInfo.t
}.

(** What the body of a job still has to do when its request succeeds. *)
Inductive BodyCont : Type :=
| ThenSerial (rest : list Data)     (* [_reportError]: the rest of [Promise.serial] *)
| ThenDone.                         (* [_checkVersion], [_reportCounters] *)

(** The body of job [name] waits for the request. *)
Inductive Continuation : Type :=
| KJob (name : ReportActions) (k : BodyCont).

Inductive HttpOutcome : Type :=
| HttpFailed
| HttpOk.

Inductive Effect : Type :=
| HttpPost (url : string) (data : Data)
| BodyStart (name : ReportActions)
| PreSchedule (name : ReportActions)
| SetTimeout (h : nat) (name : ReportActions) (ms : Z)
| ClearTimeout (h : nat).

Module Timeout.
Record t : Type := make {
  handle : nat;
  name : ReportActions;
  job : JobInfo.t
}.
End Timeout.

Record World : Type := mkWorld {
  this : Client;
  env : Env;
  timeouts : list Timeout.t;
  nextTimeout : nat;
  requests : list (nat * Continuation);
  nextRequest : nat;
  trace : list Effect
}.

Definition setClosed (v : bool) (c : Client) : Client :=
  mkClient (name c) (version c) (enabled c) (id c) v (isFirstErrorReported c)
    (timers c) (jobs c) (jobRuntime c) (counters c) (metrics c) (errors c).

Definition setEnabled (v : bool) (c : Client) : Client :=
  mkClient (name c) (version c) v (id c) (closed c) (isFirstErrorReported c)
    (timers c) (jobs c) (jobRuntime c) (counters c) (metrics c) (errors c).

Definition setIsFirstErrorReported (v : bool) (c : Client) : Client :=
  mkClient (name c) (version c) (enabled c) (id c) (closed c) v
    (timers c) (jobs c) (jobRuntime c) (counters c) (metrics c) (errors c).

Definition setTimers (v : ReportActions -> option nat) (c : Client) : Client :=
  mkClient (name c) (version c) (enabled c) (id c) (closed c)
    (isFirstErrorReported c) v (jobs c) (jobRuntime c) (counters c)
    (metrics c) (errors c).

Definition setJobs (v : ReportActions -> option JobInfo.t) (c : Client)
  : Client :=
  mkClient (name c) (version c) (enabled c) (id c) (closed c)
    (isFirstErrorReported c) (timers c) v (jobRuntime c) (counters c)
    (metrics c) (errors c).

Definition setJobRuntime (v : ReportActions -> option JobRuntime.t)
  (c : Client) : Client :=
  mkClient (name c) (version c) (enabled c) (id c) (closed c)
    (isFirstErrorReported c) (timers c) (jobs c) v (counters c)
    (metrics c) (errors c).

Definition setCounters (v : Json) (c : Client) : Client :=
  mkClient (name c) (version c) (enabled c) (id c) (closed c)
    (isFirstErrorReported c) (timers c) (jobs c) (jobRuntime c) v
    (metrics c) (errors c).

Definition setMetrics (v : Json) (c : Client) : Client :=
  mkClient (name c) (version c) (enabled c) (id c) (closed c)
    (isFirstErrorReported c) (timers c) (jobs c) (jobRuntime c) (counters c)
    v (errors c).

Definition setErrors (v : JsRecord.t ErrorInfo.t) (c : Client) : Client :=
  mkClient (name c) (version c) (enabled c) (id c) (closed c)
    (isFirstErrorReported c) (timers c) (jobs c) (jobRuntime c) (counters c)
    (metrics c) v.

Definition onThis (f : Client -> Client) (w : World) : World :=
  mkWorld (f (this w)) (env w) (timeouts w) (nextTimeout w) (requests w)
    (nextRequest w) (trace w).

Definition emit (e : Effect) (w : World) : World :=
  mkWorld (this w) (env w) (timeouts w) (nextTimeout w) (requests w)
    (nextRequest w) (e :: trace w).

Definition setTimeouts (v : list Timeout.t) (w : World) : World :=
  mkWorld (this w) (env w) v (nextTimeout w) (requests w) (nextRequest w)
    (trace w).

Definition setRequests (v : list (nat * Continuation)) (w : World) : World :=
  mkWorld (this w) (env w) (timeouts w) (nextTimeout w) v (nextRequest w)
    (trace w).

Definition setTimeout (name : ReportActions) (job : JobInfo.t) (ms : Z)
  (w : World) : World * nat :=
  let h := nextTimeout w in
  (emit (SetTimeout h name ms)
     (mkWorld (this w) (env w) (timeouts w ++ [Timeout.make h name job])
        (S h) (requests w) (nextRequest w) (trace w)),
   h).

Definition clearTimeout (h : nat) (w : World) : World :=
  emit (ClearTimeout h)
    (setTimeouts
       (filter (fun t => negb (Nat.eqb (Timeout.handle t) h)) (timeouts w)) w).

(** The constructor: [enabled] is lowered when the identity or the base
    address is missing. *)
Definition constructor (env : Env) (name version : string) : Client :=
  let enabled := true in
  let id := JsRecord.get "WORLDVIOUS_ID" env in
  let enabled := if negb (truthy id) then false else enabled in
  let enabled :=
    if negb (truthy (JsRecord.get "WORLDVIOUS_URL" env)) then false
    else enabled in
  mkClient name version enabled id false false
    (fun _ => None) (fun _ => None) (fun _ => None)
    (JOpaque "{}") (JOpaque "{}") [].

Definition boot (env : Env) (name version : string) : World :=
  mkWorld (constructor env name version) env [] 0 [] 0 [].

Definition _makeNewData (c : Client) : Data :=
  [("id", json_of_opt (id c)); ("process", JStr (name c))].

Definition _request (url : string) (data : Data) (k : Continuation)
  (w : World) : World :=
  let fullUrl := requestUrl (env w) url in
  let r := nextRequest w in
  emit (HttpPost fullUrl data)
    (mkWorld (this w) (env w) (timeouts w) (nextTimeout w)
       (requests w ++ [(r, k)]) (S r) (trace w)).

(** What calling [job.cb()] gives the handler: [undefined], or a promise
    waiting for the transport. *)
Inductive BodyResult : Type :=
| Returned
| Pending.

Definition _checkVersion (K : BodyCont -> Continuation) (w : World)
  : World * BodyResult :=
  let data := _makeNewData (this w) in
  let data := data ++ [("version", JStr (version (this w)))] in
  (_request "report/version" data (K ThenDone) w, Pending).

Definition _reportCounters (K : BodyCont -> Continuation) (w : World)
  : World * BodyResult :=
  let data := _makeNewData (this w) in
  let data := data ++ [("counters", counters (this w))] in
  let data := data ++ [("metrics", metrics (this w))] in
  (_request "report/counters" data (K ThenDone) w, Pending).

Definition errorPayload (c : Client) (errorInfo : ErrorInfo.t) : Data :=
  let data := _makeNewData c in
  let data := data ++ [("version", JStr (version c))] in
  let data := data ++ [("error", JStr (ErrorInfo.error errorInfo))] in
  data ++ [("count", JNum (Z.of_nat (ErrorInfo.count errorInfo)))].

(** [Promise.serial(payloads, data => this._request('report/error', data))]:
    one request at a time. *)
Definition serialRequests (K : BodyCont -> Continuation)
  (payloads : list Data) (w : World) : World * BodyResult :=
  match payloads with
  | [] => (w, Returned)
  | data :: rest =>
      (_request "report/error" data (K (ThenSerial rest)) w, Pending)
  end.

Definition _reportError (K : BodyCont -> Continuation) (w : World)
  : World * BodyResult :=
  if Nat.eqb (length (JsRecord.keys (errors (this w)))) 0 then (w, Returned)
  else
    let payloads := map (errorPayload (this w)) (JsRecord.values (errors (this w))) in
    let w := onThis (setErrors []) w in
    serialRequests K payloads w.

Definition callJob (cb : JobCallback) (K : BodyCont -> Continuation)
  (w : World) : World * BodyResult :=
  match cb with
  | CheckVersion => _checkVersion K w
  | ReportErrors => _reportError K w
  | ReportCountersCb => _reportCounters K w
  end.

Definition callPreSchedule (cb : PreScheduleCallback) (w : World) : World :=
  match cb with
  | ResetFirstError => onThis (setIsFirstErrorReported false) w
  end.

Definition _stopScheduledJob (name : ReportActions) (w : World) : World :=
  match timers (this w) name with
  | Some timer =>
      let w := clearTimeout timer w in
      onThis (fun c => setTimers (upd (timers c) name None) c) w
  | None => w
  end.

(** The [else] branch of [_runJob]: arm a timer unless one is pending. *)
Definition armTimer (name : ReportActions) (job : JobInfo.t) (w : World)
  : World :=
  match timers (this w) name with
  | Some _ => w
  | None =>
      let w :=
        match JobInfo.preScheduleCb job with
        | Some pre => callPreSchedule pre (emit (PreSchedule name) w)
        | None => w
        end in
      let '(w, timer) := setTimeout name job (JobInfo.seconds job * 1000) w in
      onThis (fun c => setTimers (upd (timers c) name (Some timer)) c) w
  end.

(** [_runJob(name, false)]: nothing but the job is looked at. *)
Definition _runJobLater (name : ReportActions) (w : World) : World :=
  match jobs (this w) name with
  | None => w
  | Some job => armTimer name job w
  end.

Definition setRunning (name : ReportActions) (v : bool) (w : World) : World :=
  onThis (fun c =>
    setJobRuntime (upd (jobRuntime c) name (Some (JobRuntime.make v))) c) w.

(** The last link of the handler's promise chain. *)
Definition finish (name : ReportActions) (w : World) : World :=
  match jobRuntime (this w) name with
  | None => w
  | Some _ => _runJobLater name (setRunning name false w)
  end.

(** The closure [handler] of [_runJob(name, _)], for the [job] it closes
    over.  A job and its runtime record are registered together, so the
    record is there when the handler reads it.  With the state the handler
    returns in comes the job whose chain is still to run its last link:
    behind a body that returned at once the handler returns with the
    running flag up, and the promise jobs of the chain lower it and rearm. *)
Definition handler (name : ReportActions) (job : JobInfo.t) (w : World)
  : World * option ReportActions :=
  match jobRuntime (this w) name with
  | None => (w, None)
  | Some runtime =>
      if JobRuntime.isRunning runtime then (_runJobLater name w, None)
      else
        let w := setRunning name true w in
        let w := emit (BodyStart name) w in
        match callJob (JobInfo.cb job) (KJob name) w with
        | (w, Returned) => (w, Some name)
        | (w, Pending) => (w, None)
        end
  end.

(** The promise jobs of the chain a handler left behind. *)
Definition completion (p : World * option ReportActions) : World :=
  match p with
  | (w, Some name) => finish name w
  | (w, None) => w
  end.

Definition _runJob (name : ReportActions) (executeNow : bool) (w : World)
  : World * option ReportActions :=
  match jobs (this w) name with
  | None => (w, None)
  | Some job =>
      if executeNow then
        let w := _stopScheduledJob name w in
        handler name job w
      else (armTimer name job w, None)
  end.

Definition _runJobNow (name : ReportActions) (w : World)
  : World * option ReportActions :=
  _runJob name true w.

Definition _register (name : ReportActions) (seconds : Z)
  (overrideEnvName : string) (cb : JobCallback)
  (preScheduleCb : option PreScheduleCallback) (w : World) : World :=
  let seconds :=
    if truthy (Some overrideEnvName) then
      let overrideValue := JsRecord.get overrideEnvName (env w) in
      if truthy overrideValue then
        match JsNumber.parseInt (interpolate overrideValue) with
        | Some parsed => parsed
        | None => seconds
        end
      else seconds
    else seconds in
  onThis (fun c =>
    setJobRuntime (upd (jobRuntime c) name (Some (JobRuntime.make false)))
      (setJobs
         (upd (jobs c) name
            (Some (JobInfo.make name seconds cb preScheduleCb))) c)) w.

Definition _schedule (w : World) : World :=
  let w :=
    _register VersionCheck (60 * 60) "WORLDVIOUS_VERSION_CHECK_TIMEOUT"
      CheckVersion None w in
  let w :=
    _register ReportError (1 * 60) "WORLDVIOUS_ERROR_REPORT_TIMEOUT"
      ReportErrors (Some ResetFirstError) w in
  let w :=
    _register ReportCounters (60 * 60) "WORLDVIOUS_COUNTERS_REPORT_TIMEOUT"
      ReportCountersCb None w in
  fold_left (fun w name => fst (_runJob name false w)) allJobs w.

(** What [init()] does once its promise chain runs, with the promise jobs
    of the handler's chain. *)
Definition init (w : World) : World :=
  let w := _schedule w in
  completion (_runJobNow VersionCheck w).

(** The pending timers are cancelled in the order of the job names; the
    source goes through them in the order they were armed. *)
Definition close (w : World) : World :=
  let w := onThis (setClosed true) w in
  let w :=
    fold_left
      (fun w name =>
         match timers (this w) name with
         | Some timer => clearTimeout timer w
         | None => w
         end)
      allJobs w in
  onThis (setTimers (fun _ => None)) w.

(** [acceptError(error)]: the state when the call returns, and the chain
    it leaves to the promise jobs. *)
Definition acceptError (error : JsValue) (w : World)
  : World * option ReportActions :=
  let errorStr := _getErrorString error in
  let w :=
    onThis (fun c =>
      match JsRecord.get errorStr (errors c) with
      | Some info =>
          setErrors
            (JsRecord.set errorStr
               (ErrorInfo.make (ErrorInfo.error info)
                  (ErrorInfo.count info + 1)) (errors c)) c
      | None =>
          if JsRecord.inherited errorStr then c
          else
            setErrors
              (JsRecord.set errorStr (ErrorInfo.make errorStr 1) (errors c)) c
      end) w in
  if negb (isFirstErrorReported (this w)) then
    let w := onThis (setIsFirstErrorReported true) w in
    _runJobNow ReportError w
  else (w, None).

Definition acceptCounters (value : Json) (w : World) : World :=
  onThis (setCounters value) w.

Definition acceptMetrics (value : Json) (w : World) : World :=
  onThis (setMetrics value) w.

(** ** The event loop *)

Fixpoint findRequest (r : nat) (l : list (nat * Continuation))
  : option Continuation :=
  match l with
  | [] => None
  | (r', k) :: l' => if Nat.eqb r' r then Some k else findRequest r l'
  end.

Fixpoint findTimeout (h : nat) (l : list Timeout.t) : option Timeout.t :=
  match l with
  | [] => None
  | t :: l' => if Nat.eqb (Timeout.handle t) h then Some t else findTimeout h l'
  end.

Definition dropRequest (r : nat) (w : World) : World :=
  setRequests (filter (fun q => negb (Nat.eqb (fst q) r)) (requests w)) w.

(** Request [r] settles with [outcome]. *)
Definition httpSettles (r : nat) (outcome : HttpOutcome) (w : World) : World :=
  match findRequest r (requests w) with
  | None => w
  | Some (KJob name body) =>
      match outcome, body with
      | HttpOk, ThenSerial (next :: rest) =>
          _request "report/error" next (KJob name (ThenSerial rest))
            (dropRequest r w)
      | _, _ => finish name (dropRequest r w)
      end
  end.

(** The live timeout [h] fires: [delete this.timers[name]; handler()], and
    then the promise jobs of the handler's chain. *)
Definition timerFires (h : nat) (w : World) : World :=
  match findTimeout h (timeouts w) with
  | None => w
  | Some t =>
      let w :=
        setTimeouts
          (filter (fun t => negb (Nat.eqb (Timeout.handle t) h)) (timeouts w))
          w in
      let w :=
        onThis (fun c => setTimers (upd (timers c) (Timeout.name t) None) c)
          w in
      completion (handler (Timeout.name t) (Timeout.job t) w)
  end.

Inductive Event : Type :=
| Init
| Close
| AcceptError (error : JsValue)
| AcceptCounters (value : Json)
| AcceptMetrics (value : Json)
| TimerFires (h : nat)
| HttpSettles (r : nat) (outcome : HttpOutcome).

(** One turn: the synchronous code, then the promise jobs of the handler
    chain it started. *)
Definition step (ev : Event) (w : World) : World :=
  match ev with
  | Init => init w
  | Close => close w
  | AcceptError error => completion (acceptError error w)
  | AcceptCounters value => acceptCounters value w
  | AcceptMetrics value => acceptMetrics value w
  | TimerFires h => timerFires h w
  | HttpSettles r outcome => httpSettles r outcome w
  end.

Definition run (evs : list Event) (w : World) : World :=
  fold_left (fun w ev => step ev w) evs w.

(** Two states that differ in the flags [closed] and [enabled] at most. *)
Definition sameButFlags (w1 w2 : World) : Prop :=
  name (this w1) = name (this w2) /\
  version (this w1) = version (this w2) /\
  id (this w1) = id (this w2) /\
  isFirstErrorReported (this w1) = isFirstErrorReported (this w2) /\
  timers (this w1) = timers (this w2) /\
  jobs (this w1) = jobs (this w2) /\
  jobRuntime (this w1) = jobRuntime (this w2) /\
  counters (this w1) = counters (this w2) /\
  metrics (this w1) = metrics (this w2) /\
  errors (this w1) = errors (this w2) /\
  env w1 = env w2 /\ timeouts w1 = timeouts w2 /\
  nextTimeout w1 = nextTimeout w2 /\ requests w1 = requests w2 /\
  nextRequest w1 = nextRequest w2 /\ trace w1 = trace w2.

End Legacy.

(** * Properties *)

(** ** Elementary facts *)

Lemma ReportActions_eqb_eq (a b : ReportActions) :
  ReportActions_eqb a b = true <-> a = b.
Proof. destruct a, b; simpl; split; intro H; congruence. Qed.

Lemma ReportActions_eqb_refl (a : ReportActions) : ReportActions_eqb a a = true.
Proof. destruct a; reflexivity. Qed.

Lemma ReportActions_eqb_neq (a b : ReportActions) :
  ReportActions_eqb a b = false <-> a <> b.
Proof. destruct a, b; simpl; split; intro H; congruence. Qed.

Lemma upd_same {V} (r : ReportActions -> V) name v : upd r name v name = v.
Proof. unfold upd. now rewrite ReportActions_eqb_refl. Qed.

Lemma upd_other {V} (r : ReportActions -> V) name v n :
  name <> n -> upd r name v n = r n.
Proof.
  intro H. unfold upd.
  destruct (ReportActions_eqb name n) eqn:E; [|reflexivity].
  apply ReportActions_eqb_eq in E. contradiction.
Qed.

(** Case analysis on every [match] and [if] of the goal. *)
Ltac break_match :=
  match goal with
  | |- context [match ?x with _ => _ end] =>
      lazymatch x with
      | context [match _ with _ => _ end] => fail
      | _ =>
          lazymatch type of x with
          | World => fail
          | Client => fail
          | _ => destruct x eqn:?
          end
      end
  end.

Ltac break := repeat (break_match; simpl in *; try discriminate).

(** ** Timers: every live timeout is the one the client remembers *)

Lemma keepsTimers_refl w : keepsTimers w w.
Proof. repeat split. Qed.

Lemma keepsTimers_trans w1 w2 w3 :
  keepsTimers w1 w2 -> keepsTimers w2 w3 -> keepsTimers w1 w3.
Proof.
  unfold keepsTimers. intros (A & B & C) (D & E & F).
  repeat split; congruence.
Qed.

Lemma keepsTimers_inv w w' : keepsTimers w w' -> timerInv w -> timerInv w'.
Proof.
  unfold keepsTimers, timerInv, timersTracked, closedQuiet.
  intros (A & B & C) (T & Q). rewrite A, B, C. auto.
Qed.

Lemma callJob_keepsTimers cb K w : keepsTimers w (fst (callJob cb K w)).
Proof.
  unfold callJob, _checkVersion, _reportError, _reportCounters,
    _reportMetrics, serialRequests, buildPayloads.
  destruct cb; simpl; break; repeat split.
Qed.

Lemma armTimer_timerInv name job w :
  closed (this w) = false -> timerInv w -> timerInv (armTimer name job w).
Proof.
  unfold timerInv, timersTracked, closedQuiet, armTimer.
  intros Hc (T & Q).
  destruct (timers (this w) name) eqn:Et; [auto|].
  destruct (JobInfo.preScheduleCb job) as [[]|]; simpl.
  all: split; [|congruence].
  all: intros t Hin; apply in_app_or in Hin; destruct Hin as [Hin|[<-|[]]];
    simpl; [|apply upd_same].
  all: destruct (ReportActions_eqb name (Timeout.name t)) eqn:E;
    [apply ReportActions_eqb_eq in E; subst; rewrite (T _ Hin) in Et;
     discriminate
    |unfold upd; rewrite E; auto].
Qed.

Lemma in_filter_handle h t (l : list Timeout.t) :
  In t (filter (fun t => negb (Nat.eqb (Timeout.handle t) h)) l) ->
  In t l /\ Timeout.handle t <> h.
Proof.
  intro H. apply filter_In in H. destruct H as [H1 H2]. split; [auto|].
  apply negb_true_iff, Nat.eqb_neq in H2. auto.
Qed.

Lemma _stopScheduledJob_timerInv name w :
  timerInv w -> timerInv (_stopScheduledJob name w).
Proof.
  unfold timerInv, timersTracked, closedQuiet, _stopScheduledJob, clearTimeout.
  intros (T & Q).
  destruct (timers (this w) name) as [h|] eqn:Et; [|auto]. simpl. split.
  - intros t Hin. apply in_filter_handle in Hin. destruct Hin as [Hin Hne].
    unfold upd. destruct (ReportActions_eqb name (Timeout.name t)) eqn:E.
    + apply ReportActions_eqb_eq in E. subst.
      rewrite (T _ Hin) in Et. congruence.
    + auto.
  - intro Hc. rewrite (Q Hc). reflexivity.
Qed.

Lemma _stopScheduledJob_closed name w :
  closed (this (_stopScheduledJob name w)) = closed (this w).
Proof. unfold _stopScheduledJob. break; reflexivity. Qed.

Lemma _runJobLater_timerInv name w :
  timerInv w -> timerInv (_runJobLater name w).
Proof.
  unfold _runJobLater. intro H.
  destruct (closed (this w)) eqn:Hc; [auto|].
  break; auto using armTimer_timerInv.
Qed.

Lemma finish_timerInv name w : timerInv w -> timerInv (finish name w).
Proof.
  unfold finish. intro H. break; [|auto].
  apply _runJobLater_timerInv.
  eapply keepsTimers_inv; [|exact H]. repeat split.
Qed.

Lemma execute_keepsTimers name job w :
  keepsTimers w (fst (fst (execute name job w))).
Proof.
  unfold execute. simpl.
  match goal with |- context [callJob ?c ?K ?W] =>
    pose proof (callJob_keepsTimers c K W) as H;
    destruct (callJob c K W) as [w1 r] end.
  simpl in *. eapply keepsTimers_trans; [|exact H]. repeat split.
Qed.

Lemma handler_timerInv name job w :
  timerInv w -> timerInv (completion (handler name job w)).
Proof.
  unfold handler. intro H.
  destruct (jobRuntime (this w) name) as [rt|]; [|auto].
  destruct (JobRuntime.isRunning rt); simpl.
  { now apply _runJobLater_timerInv. }
  pose proof (execute_keepsTimers name job w) as K.
  destruct (execute name job w) as [[w1 x] r]. simpl in K.
  assert (timerInv w1) by (eapply keepsTimers_inv; eauto).
  destruct r; simpl; auto using finish_timerInv.
Qed.

Lemma _runJob_timerInv name now w :
  timerInv w -> timerInv (completion (_runJob name now w)).
Proof.
  unfold _runJob. intro H.
  destruct (closed (this w)) eqn:Hc; [auto|].
  destruct (negb _); [auto|].
  destruct (jobs (this w) name) as [job|]; [|auto].
  destruct now; simpl.
  - apply handler_timerInv, _stopScheduledJob_timerInv, H.
  - now apply armTimer_timerInv.
Qed.

Lemma serialJobs_timerInv names w :
  timerInv w -> timerInv (serialJobs names w).
Proof.
  revert w. induction names as [|name rest IH]; intros w H; simpl; [auto|].
  pose proof (_runJob_timerInv name
    (JobConfig.shouldStartImmediately (jobConfigs (this w) name)) H) as K.
  destruct (_runJob _ _ w) as [w1 r]. simpl in K.
  destruct r; auto.
Qed.

Lemma fold_serialJobs_timerInv (l : list (nat * list ReportActions)) w :
  timerInv w ->
  timerInv (fold_left (fun w a => serialJobs (snd a) w) l w).
Proof.
  revert w. induction l as [|a l IH]; intros w H; simpl; [auto|].
  apply IH, serialJobs_timerInv, H.
Qed.

Lemma resume_timerInv x w : timerInv w -> timerInv (resume x w).
Proof.
  unfold resume. intro H. apply fold_serialJobs_timerInv.
  eapply keepsTimers_inv; [|exact H]. repeat split.
Qed.

Lemma bodySettled_timerInv r x name w :
  timerInv w -> timerInv (bodySettled r x name w).
Proof.
  intro H. apply resume_timerInv, finish_timerInv.
  eapply keepsTimers_inv; [|exact H]. repeat split.
Qed.

Lemma fold_trigger_keepsTimers (l : list Listener) w :
  keepsTimers w (fold_left (fun w cb => _trigger cb w) l w).
Proof.
  revert w. induction l as [|a l IH]; intros w; simpl.
  - apply keepsTimers_refl.
  - eapply keepsTimers_trans; [|apply IH]. repeat split.
Qed.

Lemma _activateNewVersionInfo_keepsTimers r w :
  keepsTimers w (_activateNewVersionInfo r w).
Proof.
  unfold _activateNewVersionInfo.
  eapply keepsTimers_trans; [|apply fold_trigger_keepsTimers]. repeat split.
Qed.

Lemma httpSettles_timerInv r o w : timerInv w -> timerInv (httpSettles r o w).
Proof.
  unfold httpSettles. intro H.
  destruct (findRequest r (requests w)) as [[x name body|]|]; [| |auto].
  - destruct o as [|data]; [now apply bodySettled_timerInv|].
    destruct body as [|[|next rest]|]; try now apply bodySettled_timerInv.
    + destruct data; apply bodySettled_timerInv; [|auto].
      eapply keepsTimers_inv; [apply _activateNewVersionInfo_keepsTimers|auto].
    + eapply keepsTimers_inv; [|exact H]. repeat split.
  - eapply keepsTimers_inv; [|exact H]. repeat split.
Qed.

Lemma findTimeout_In h l t :
  findTimeout h l = Some t -> In t l /\ Timeout.handle t = h.
Proof.
  induction l as [|a l IH]; simpl; [discriminate|].
  destruct (Nat.eqb (Timeout.handle a) h) eqn:E.
  - intros [= ->]. apply Nat.eqb_eq in E. auto.
  - intro H. destruct (IH H). auto.
Qed.

Lemma timerFires_timerInv h w : timerInv w -> timerInv (timerFires h w).
Proof.
  unfold timerFires, timerCallback. intro H.
  destruct (findTimeout h (timeouts w)) as [t|] eqn:Ef; [|auto].
  apply handler_timerInv.
  destruct H as (T & Q). apply findTimeout_In in Ef. destruct Ef as [Hin Hh].
  split.
  - intros t' Hin'. simpl in *. apply in_filter_handle in Hin'.
    destruct Hin' as [Hin' Hne]. unfold upd.
    destruct (ReportActions_eqb (Timeout.name t) (Timeout.name t')) eqn:E.
    + apply ReportActions_eqb_eq in E.
      pose proof (T _ Hin) as A. pose proof (T _ Hin') as B.
      rewrite E in A. congruence.
    + auto.
  - intro Hc. simpl in *. rewrite (Q Hc). reflexivity.
Qed.

(** [close] clears every timeout the client remembers, hence every live
    one. *)
Lemma close_clears (names : list ReportActions) w :
  let w' :=
    fold_left
      (fun w name =>
         match timers (this w) name with
         | Some timer => clearTimeout timer w
         | None => w
         end) names w in
  this w' = this w /\
  forall t, In t (timeouts w') ->
    In t (timeouts w) /\
    forall name, In name names ->
      timers (this w) name <> Some (Timeout.handle t).
Proof.
  revert w. induction names as [|name rest IH]; intros w; simpl.
  - split; [reflexivity|]. intros t H. split; [auto|]. intros _ [].
  - set (w1 := match timers (this w) name with
               | Some timer => clearTimeout timer w
               | None => w
               end).
    assert (E1 : this w1 = this w) by (subst w1; break; reflexivity).
    destruct (IH w1) as [A B]. split; [congruence|].
    intros t Hin. destruct (B t Hin) as [C D]. rewrite E1 in D.
    assert (In t (timeouts w) /\
            timers (this w) name <> Some (Timeout.handle t)) as [F G].
    { subst w1. destruct (timers (this w) name) as [h|]; [|split; [auto|]; discriminate].
      simpl in C. apply in_filter_handle in C. destruct C as [C1 C2].
      split; [auto|]. congruence. }
    split; [auto|]. intros n [<-|Hn]; auto.
Qed.

Lemma close_timeouts w : timersTracked w -> timeouts (close w) = [].
Proof.
  intro T. unfold close.
  match goal with |- context [fold_left ?f allJobs ?W] =>
    pose proof (close_clears allJobs W) as K;
    destruct K as [A B]; simpl in A;
    destruct (timeouts (fold_left f allJobs W)) as [|t l] eqn:E end.
  - simpl. exact E.
  - exfalso. destruct (B t (or_introl eq_refl)) as [C D].
    simpl in C, D. apply (D (Timeout.name t)).
    + unfold allJobs. destruct (Timeout.name t); simpl; tauto.
    + apply T, C.
Qed.

Lemma close_timerInv w : timerInv w -> timerInv (close w).
Proof.
  intros (T & Q). pose proof (close_timeouts T) as E. split.
  - intros t Hin. rewrite E in Hin. destruct Hin.
  - intros _. exact E.
Qed.

Lemma recordError_keepsTimers e w : keepsTimers w (recordError e w).
Proof.
  unfold recordError, keepsTimers, onThis, emit. simpl. break; repeat split.
Qed.

Lemma acceptError_timerInv e w :
  timerInv w -> timerInv (completion (acceptError e w)).
Proof.
  unfold acceptError. intro H.
  assert (H1 : timerInv (recordError e w))
    by (eapply keepsTimers_inv; [apply recordError_keepsTimers|exact H]).
  destruct (negb _); [|auto].
  apply _runJob_timerInv. eapply keepsTimers_inv; [|exact H1]. repeat split.
Qed.

Lemma _register_keepsTimers name cb pre w :
  keepsTimers w (_register name cb pre w).
Proof. unfold _register. break; repeat split. Qed.

Lemma _schedule_keepsTimers w : keepsTimers w (_schedule w).
Proof.
  unfold _schedule.
  repeat (eapply keepsTimers_trans; [|apply _register_keepsTimers]).
  apply keepsTimers_refl.
Qed.

Lemma init_timerInv w : timerInv w -> timerInv (init w).
Proof.
  intro H. apply serialJobs_timerInv.
  eapply keepsTimers_inv; [apply _schedule_keepsTimers|exact H].
Qed.

Lemma reportFeedback_keepsTimers d w : keepsTimers w (reportFeedback d w).
Proof. unfold reportFeedback. break; repeat split. Qed.

Lemma fold_listener_keepsTimers (l : list Listener) w :
  keepsTimers w
    (fold_left
       (fun w cb => emit (ListenerCall cb (_versionCheckResult (this w))) w)
       l w).
Proof.
  revert w. induction l as [|a l IH]; intros w; simpl.
  - apply keepsTimers_refl.
  - eapply keepsTimers_trans; [|apply IH]. repeat split.
Qed.

Lemma runMicrotasks_keepsTimers w : keepsTimers w (runMicrotasks w).
Proof.
  unfold runMicrotasks.
  eapply keepsTimers_trans; [|apply fold_listener_keepsTimers]. repeat split.
Qed.

Lemma dispatch_timerInv ev w : timerInv w -> timerInv (dispatch ev w).
Proof.
  intro H. destruct ev; simpl.
  - now apply init_timerInv.
  - now apply close_timerInv.
  - now apply acceptError_timerInv.
  - eapply keepsTimers_inv; [|exact H]. repeat split.
  - eapply keepsTimers_inv; [|exact H]. repeat split.
  - eapply keepsTimers_inv; [apply reportFeedback_keepsTimers|exact H].
  - eapply keepsTimers_inv; [|exact H]. repeat split.
  - now apply timerFires_timerInv.
  - now apply httpSettles_timerInv.
Qed.

Lemma step_timerInv ev w : timerInv w -> timerInv (step ev w).
Proof.
  intro H. unfold step.
  eapply keepsTimers_inv; [apply runMicrotasks_keepsTimers|].
  now apply dispatch_timerInv.
Qed.

Lemma run_timerInv evs w : timerInv w -> timerInv (run evs w).
Proof.
  revert w. induction evs as [|ev evs IH]; intros w H; simpl; [auto|].
  apply IH, step_timerInv, H.
Qed.

Lemma boot_timerInv env n v : timerInv (boot env n v).
Proof. split; [intros t []|intros _; reflexivity]. Qed.

(** ** A turn as a sequence of guarded blocks

    Every turn of the event loop is a sequence of the blocks below, each
    taken under the guard the code has just tested.  An invariant that every
    block preserves holds after every turn; what a method can do is read off
    the tags of the blocks it can take. *)

Lemma ops_one allow t w w' : allow t = true -> Op t w w' -> Ops allow w w'.
Proof. intros Ha H. eapply ops_cons; [apply ops_nil|exact Ha|exact H]. Qed.

Lemma ops_op allow t w w' : Op t w w' -> allow t = true -> Ops allow w w'.
Proof. intros H Ha. now apply ops_one with (t := t). Qed.

Lemma ops_trans allow w1 w2 w3 :
  Ops allow w1 w2 -> Ops allow w2 w3 -> Ops allow w1 w3.
Proof.
  intros H12 H23. induction H23; [auto|]. eapply ops_cons; eauto.
Qed.

Lemma ops_weaken (allow allow' : Tag -> bool) w w' :
  (forall t, allow t = true -> allow' t = true) ->
  Ops allow w w' -> Ops allow' w w'.
Proof.
  intros Hsub H. induction H; [apply ops_nil|].
  eapply ops_cons; eauto.
Qed.

(** The principle: what every allowed block preserves, every sequence of
    allowed blocks preserves. *)
Lemma ops_preserve allow (P : World -> Prop) w w' :
  Ops allow w w' ->
  (forall t w w', allow t = true -> Op t w w' -> P w -> P w') ->
  P w -> P w'.
Proof. intros H HP. induction H; eauto. Qed.

Lemma ops_preserve_all allow (P : World -> Prop) w w' :
  (forall t w w', Op t w w' -> P w -> P w') ->
  Ops allow w w' -> P w -> P w'.
Proof. intros HP H. apply (ops_preserve P H). eauto. Qed.

Ltac subtags := intros []; simpl; congruence.

Tactic Notation "widen" tactic(tac) :=
  eapply ops_weaken; [|tac]; try subtags.

Lemma _runJobLater_ops name w : Ops armTag w (_runJobLater name w).
Proof.
  unfold _runJobLater.
  destruct (closed (this w)) eqn:Hc; [apply ops_nil|].
  destruct (JobConfig.enabled (jobConfigs (this w) name)) eqn:He;
    [|apply ops_nil].
  simpl. destruct (jobs (this w) name) as [job|] eqn:Hj; [|apply ops_nil].
  eapply ops_op; [now apply op_arm|reflexivity].
Qed.

Lemma execute_jobRuntime name job w :
  jobRuntime (this (fst (fst (execute name job w)))) name
  = Some (JobRuntime.make true).
Proof.
  unfold execute, callJob, _checkVersion, _reportError, _reportCounters,
    _reportMetrics, serialRequests. simpl.
  destruct (JobInfo.cb job); simpl; break; apply upd_same.
Qed.

Lemma execute_closed name job w :
  closed (this (fst (fst (execute name job w)))) = closed (this w).
Proof.
  unfold execute, callJob, _checkVersion, _reportError, _reportCounters,
    _reportMetrics, serialRequests. simpl.
  destruct (JobInfo.cb job); simpl; break; reflexivity.
Qed.

Lemma handler_ops name job w :
  closed (this w) = false ->
  Ops handlerTags w (completion (handler name job w)).
Proof.
  intro Hc. unfold handler.
  destruct (jobRuntime (this w) name) as [[running]|] eqn:Hr; [|apply ops_nil].
  destruct running; simpl; [widen (apply _runJobLater_ops)|].
  pose proof (@op_execute name job w Hc Hr) as A.
  pose proof (@op_execute_returned name job w Hc Hr) as B.
  pose proof (execute_jobRuntime name job w) as C.
  destruct (execute name job w) as [[w1 x] res]. simpl in *.
  destruct res; simpl.
  - eapply ops_op; [apply A; discriminate|reflexivity].
  - unfold finish. rewrite C.
    eapply ops_trans; [eapply ops_op; [apply B; reflexivity|reflexivity]|].
    widen (apply _runJobLater_ops).
  - eapply ops_op; [apply A; discriminate|reflexivity].
Qed.

Lemma _runJob_ops name now w :
  Ops runTags w (completion (_runJob name now w)).
Proof.
  unfold _runJob.
  destruct (closed (this w)) eqn:Hc; [apply ops_nil|].
  destruct (JobConfig.enabled (jobConfigs (this w) name)) eqn:He;
    [|apply ops_nil].
  simpl. destruct (jobs (this w) name) as [job|] eqn:Hj; [|apply ops_nil].
  destruct now; simpl.
  - eapply ops_trans; [eapply ops_op; [apply op_stop, Hc|reflexivity]|].
    widen (apply handler_ops). now rewrite _stopScheduledJob_closed.
  - eapply ops_op; [now apply op_arm|reflexivity].
Qed.

(** A run that is not immediate only arms. *)
Lemma _runJob_later_ops name w : Ops armTag w (fst (_runJob name false w)).
Proof.
  unfold _runJob.
  destruct (closed (this w)) eqn:Hc; [apply ops_nil|].
  destruct (JobConfig.enabled (jobConfigs (this w) name)) eqn:He;
    [|apply ops_nil].
  simpl. destruct (jobs (this w) name) as [job|] eqn:Hj; [|apply ops_nil].
  simpl. eapply ops_op; [now apply op_arm|reflexivity].
Qed.

Lemma _runJob_awaits name now w x :
  snd (_runJob name now w) = RAwait x -> now = true.
Proof.
  unfold _runJob. destruct now; [reflexivity|].
  break; simpl; discriminate.
Qed.

(** Only an immediate run leaves a chain behind, and it is the chain of the
    job that was run. *)
Lemma _runJob_completing name now w nm :
  snd (_runJob name now w) = RCompleting nm -> now = true /\ nm = name.
Proof.
  unfold _runJob, handler. destruct now.
  - break; simpl; try discriminate. intros [= <-]. auto.
  - break; simpl; discriminate.
Qed.

Lemma completion_fst (p : World * RunResult) :
  (forall nm, snd p <> RCompleting nm) -> completion p = fst p.
Proof.
  destruct p as [w []]; simpl; intro H; try reflexivity.
  now contradiction (H name0).
Qed.

Lemma completion_completing p nm :
  snd p = RCompleting nm -> completion p = finish nm (fst p).
Proof. destruct p as [w res]. simpl. now intros ->. Qed.

Lemma _runJob_jobConfigs name now w :
  jobConfigs (this (completion (_runJob name now w))) = jobConfigs (this w).
Proof.
  apply (ops_preserve (fun w' => jobConfigs (this w') = jobConfigs (this w))
           (_runJob_ops name now w)); [|reflexivity].
  intros t w1 w2 Ha H E. rewrite <- E. clear E.
  destruct H; try discriminate.
  - unfold _stopScheduledJob. break; reflexivity.
  - unfold armTimer, callPreSchedule. break; reflexivity.
  - unfold execute, callJob, _checkVersion, _reportError, _reportCounters,
      _reportMetrics, serialRequests. simpl.
    destruct (JobInfo.cb job); simpl; break; reflexivity.
  - unfold execute, callJob, _checkVersion, _reportError, _reportCounters,
      _reportMetrics, serialRequests. simpl.
    destruct (JobInfo.cb job); simpl; break; reflexivity.
Qed.

Lemma serialJobs_ops names w : Ops bodyTags w (serialJobs names w).
Proof.
  revert w. induction names as [|name rest IH]; intro w; simpl;
    [apply ops_nil|].
  pose proof (_runJob_ops name
    (JobConfig.shouldStartImmediately (jobConfigs (this w) name)) w) as K.
  pose proof (@_runJob_awaits name
    (JobConfig.shouldStartImmediately (jobConfigs (this w) name)) w) as A.
  pose proof (_runJob_jobConfigs name
    (JobConfig.shouldStartImmediately (jobConfigs (this w) name)) w) as C.
  destruct (_runJob _ _ w) as [w1 r].
  destruct r; simpl in K, A, C;
    try (eapply ops_trans; [widen (exact K)|apply IH]).
  eapply ops_trans; [widen (exact K)|].
  eapply ops_op; [apply op_await with (nm := name)|reflexivity].
  rewrite C. apply (A x eq_refl).
Qed.

(** A serial loop over jobs that do not start immediately only arms. *)
Lemma serialJobs_later_ops names w :
  (forall n, In n names ->
     JobConfig.shouldStartImmediately (jobConfigs (this w) n) = false) ->
  Ops armTag w (serialJobs names w).
Proof.
  revert w. induction names as [|name rest IH]; intros w H; simpl;
    [apply ops_nil|].
  rewrite (H name) by (left; reflexivity).
  pose proof (_runJob_later_ops name w) as K.
  pose proof (@_runJob_awaits name false w) as A.
  pose proof (@_runJob_completing name false w) as B.
  pose proof (_runJob_jobConfigs name false w) as C.
  destruct (_runJob name false w) as [w1 r].
  destruct r; simpl in K, A, B, C;
    try (destruct (B _ eq_refl); discriminate);
    try (specialize (A _ eq_refl); discriminate);
    (eapply ops_trans; [exact K|]; apply IH; intros n Hn; rewrite C;
     apply H; right; exact Hn).
Qed.

Lemma fold_serialJobs_ops (l : list (nat * list ReportActions)) w :
  Ops bodyTags w (fold_left (fun w a => serialJobs (snd a) w) l w).
Proof.
  revert w. induction l as [|a l IH]; intro w; simpl; [apply ops_nil|].
  eapply ops_trans; [apply serialJobs_ops|apply IH].
Qed.

Lemma resume_ops x w : Ops bodyTags w (resume x w).
Proof.
  unfold resume.
  eapply ops_trans; [eapply ops_op; [apply (op_unawait x)|reflexivity]|].
  apply fold_serialJobs_ops.
Qed.

Lemma bodySettled_ops r x name k w :
  findRequest r (requests w) = Some (KJob x name k) ->
  Ops bodyTags w (bodySettled r x name w).
Proof.
  intro Hf. unfold bodySettled.
  eapply ops_trans; [|apply resume_ops]. unfold finish. simpl.
  destruct (jobRuntime (this w) name) eqn:Hr.
  - eapply ops_trans; [|widen (apply _runJobLater_ops)].
    eapply ops_op; [eapply op_complete; [exact Hf|congruence]|reflexivity].
  - eapply ops_op; [apply op_drop|reflexivity].
Qed.

Lemma fold_trigger_requests (l : list Listener) w :
  requests (fold_left (fun w cb => _trigger cb w) l w) = requests w.
Proof.
  revert w. induction l as [|a l IH]; intro w; simpl; [reflexivity|].
  now rewrite IH.
Qed.

Lemma httpSettles_ops r o w : Ops settleTags w (httpSettles r o w).
Proof.
  unfold httpSettles.
  destruct (findRequest r (requests w)) as [[x name body|]|] eqn:Hf;
    [| eapply ops_op; [apply op_drop|reflexivity] | apply ops_nil].
  destruct o as [|data]; [widen (eapply bodySettled_ops; eauto)|].
  destruct body as [|[|next rest]|];
    try (widen (eapply bodySettled_ops; eauto); fail).
  - destruct data; [|widen (eapply bodySettled_ops; eauto)].
    eapply ops_trans;
      [eapply ops_op; [apply (op_activate items)|reflexivity]|].
    widen (eapply bodySettled_ops). unfold _activateNewVersionInfo.
    rewrite fold_trigger_requests. simpl. exact Hf.
  - eapply ops_op; [now apply op_next|reflexivity].
Qed.

Lemma timerFires_ops h w : timerInv w -> Ops fireTags w (timerFires h w).
Proof.
  intros (T & Q). unfold timerFires, timerCallback.
  destruct (findTimeout h (timeouts w)) as [t|] eqn:Hf; [|apply ops_nil].
  eapply ops_trans;
    [eapply ops_op; [apply (@op_fire h t w Hf)|reflexivity]|].
  eapply ops_weaken; [|apply handler_ops].
  - intros []; simpl; congruence.
  - simpl. destruct (closed (this w)) eqn:Hc; [|reflexivity].
    rewrite (Q Hc) in Hf. discriminate.
Qed.

Lemma acceptError_ops e w : Ops acceptTags w (completion (acceptError e w)).
Proof.
  unfold acceptError.
  eapply ops_trans; [eapply ops_op; [apply (op_record e)|reflexivity]|].
  destruct (negb _); [|apply ops_nil].
  eapply ops_trans; [eapply ops_op; [apply op_latch|reflexivity]|].
  widen (apply _runJob_ops).
Qed.

Lemma dispatch_ops ev w :
  timerInv w -> Ops (dispatchTags ev) (scheduled ev w) (dispatch ev w).
Proof.
  intro H. destruct ev; simpl.
  - widen (apply serialJobs_ops).
  - eapply ops_op; [apply op_close|reflexivity].
  - apply acceptError_ops.
  - eapply ops_op; [apply op_counters|reflexivity].
  - eapply ops_op; [apply op_metrics|reflexivity].
  - eapply ops_op; [apply op_feedback|reflexivity].
  - eapply ops_op; [apply op_listen|reflexivity].
  - now apply timerFires_ops.
  - apply httpSettles_ops.
Qed.

Theorem step_ops ev w : timerInv w -> Ops anyTag (scheduled ev w) (step ev w).
Proof.
  intro H. unfold step.
  eapply ops_trans; [|eapply ops_op; [apply op_microtasks|reflexivity]].
  eapply ops_weaken; [|apply dispatch_ops, H]. reflexivity.
Qed.

(** ** After [close]

    Once the client is closed and no timeout is live, a turn starts no body,
    arms no timer, and sends nothing for the version, counters and metrics
    jobs; the error job can only send what a flush in flight had queued. *)

Lemma string_app_inv_head (a b c : string) :
  (a ++ b)%string = (a ++ c)%string -> b = c.
Proof. induction a as [|x a IH]; simpl; intro H; [auto|]. injection H. auto. Qed.

Lemma requestUrl_inj env a b : requestUrl env a = requestUrl env b -> a = b.
Proof.
  unfold requestUrl. intro H. apply string_app_inv_head in H.
  simpl in H. now injection H.
Qed.

Lemma requestUrl_eqb_other env a b :
  a <> b -> String.eqb (requestUrl env a) (requestUrl env b) = false.
Proof.
  intro H. apply String.eqb_neq. intro E.
  apply requestUrl_inj in E. congruence.
Qed.

Lemma queuedIn_app l1 l2 : queuedIn (l1 ++ l2) = queuedIn l1 + queuedIn l2.
Proof.
  induction l1 as [|[r k] l1 IH]; simpl; [reflexivity|]. rewrite IH. lia.
Qed.

Lemma queuedIn_filter_le (p : nat * Continuation -> bool) l :
  queuedIn (filter p l) <= queuedIn l.
Proof.
  induction l as [|[r k] l IH]; simpl; [lia|].
  destruct (p (r, k)); simpl; lia.
Qed.

Lemma queuedIn_drop r k l :
  findRequest r l = Some k ->
  queuedIn (filter (fun q => negb (Nat.eqb (fst q) r)) l) + backlog k
  <= queuedIn l.
Proof.
  induction l as [|[r' k'] l IH]; simpl; [discriminate|].
  destruct (Nat.eqb r' r) eqn:E; simpl.
  - intros [= ->].
    pose proof (queuedIn_filter_le (fun q => negb (Nat.eqb (fst q) r)) l).
    lia.
  - intro H. specialize (IH H). lia.
Qed.

Lemma quiet_refl w : dormant w -> quiet w w.
Proof. intro H. unfold quiet. split; [exact H|]. repeat split; lia. Qed.

Lemma quiet_trans w1 w2 w3 : quiet w1 w2 -> quiet w2 w3 -> quiet w1 w3.
Proof.
  unfold quiet.
  intros (A1 & A2 & A3 & A4 & A5 & A6 & A7 & A8)
         (B1 & B2 & B3 & B4 & B5 & B6 & B7 & B8).
  split; [exact B1|]. repeat split; try congruence; lia.
Qed.

Lemma countIf_app p l1 l2 : countIf p (l1 ++ l2) = countIf p l1 + countIf p l2.
Proof. unfold countIf. now rewrite filter_app, length_app. Qed.

Lemma countIf_cons p e l :
  countIf p (e :: l) = (if p e then 1 else 0) + countIf p l.
Proof. unfold countIf. simpl. destruct (p e); reflexivity. Qed.

Lemma countIf_inert (p : Effect -> bool) added l :
  (forall e, inert e = true -> p e = false) ->
  forallb inert added = true ->
  countIf p (added ++ l) = countIf p l.
Proof.
  intros Hp Ha. rewrite countIf_app.
  enough (countIf p added = 0) by lia.
  induction added as [|e added IH]; [reflexivity|].
  simpl in Ha. apply andb_prop in Ha. destruct Ha as [He Ha].
  unfold countIf in *. simpl. rewrite (Hp e He). auto.
Qed.

Lemma dormant_frame w w' :
  timeouts w' = timeouts w ->
  closed (this w') = closed (this w) ->
  jobConfigs (this w') = jobConfigs (this w) ->
  jobRuntime (this w') = jobRuntime (this w) ->
  dormant w -> dormant w'.
Proof. unfold dormant. intros -> -> -> ->. auto. Qed.

(** A block that only adds inert entries to the trace and drops requests
    at most. *)
Lemma quiet_inert added w w' :
  dormant w' ->
  env w' = env w ->
  trace w' = added ++ trace w ->
  forallb inert added = true ->
  queued w' <= queued w ->
  quiet w w'.
Proof.
  intros Hd E3 E4 E5 E6.
  unfold quiet, started, armed, posted.
  rewrite E3, E4.
  assert (I1 : forall e, inert e = true -> isBodyStart e = false)
    by (intros []; simpl; congruence).
  assert (I2 : forall e, inert e = true -> isSetTimeout e = false)
    by (intros []; simpl; congruence).
  assert (I3 : forall u e, inert e = true -> isPostTo u e = false)
    by (intros u []; simpl; congruence).
  rewrite (countIf_inert _ _ _ I1 E5), (countIf_inert _ _ _ I2 E5).
  rewrite !(countIf_inert _ _ _ (I3 _) E5).
  split; [exact Hd|]. repeat split; auto. lia.
Qed.

Lemma forallb_impl {A} (p q : A -> bool) l :
  (forall a, p a = true -> q a = true) ->
  forallb p l = true -> forallb q l = true.
Proof.
  intros H. rewrite !forallb_forall. auto.
Qed.

Lemma isClearTimeout_inert l :
  forallb isClearTimeout l = true -> forallb inert l = true.
Proof. apply forallb_impl. intros []; simpl; congruence. Qed.

Lemma close_trace (names : list ReportActions) w :
  let w' :=
    fold_left
      (fun w name =>
         match timers (this w) name with
         | Some timer => clearTimeout timer w
         | None => w
         end) names w in
  env w' = env w /\ requests w' = requests w /\
  exists added,
    trace w' = added ++ trace w /\ forallb isClearTimeout added = true.
Proof.
  revert w. induction names as [|name rest IH]; intro w; simpl.
  - repeat split. now exists [].
  - set (w1 := match timers (this w) name with
               | Some timer => clearTimeout timer w
               | None => w
               end).
    destruct (IH w1) as (A & B & added & C & D).
    assert (env w1 = env w /\ requests w1 = requests w /\
            exists a1, trace w1 = a1 ++ trace w /\
                       forallb isClearTimeout a1 = true)
      as (E & F & a1 & G & H).
    { subst w1. destruct (timers (this w) name); simpl.
      - repeat split. now exists [ClearTimeout n].
      - repeat split. now exists []. }
    repeat split; try congruence.
    exists (added ++ a1). rewrite C, G, app_assoc. split; [reflexivity|].
    rewrite forallb_app, D, H. reflexivity.
Qed.

Lemma runMicrotasks_trace_gen (l : list Listener) w :
  let w' :=
    fold_left
      (fun w cb => emit (ListenerCall cb (_versionCheckResult (this w))) w)
      l w in
  this w' = this w /\ env w' = env w /\ timeouts w' = timeouts w /\
  requests w' = requests w /\ awaiting w' = awaiting w /\
  microtasks w' = microtasks w /\
  trace w'
  = rev (map (fun cb => ListenerCall cb (_versionCheckResult (this w))) l)
    ++ trace w.
Proof.
  revert w. induction l as [|cb l IH]; intro w; simpl.
  - repeat split.
  - destruct (IH (emit (ListenerCall cb (_versionCheckResult (this w))) w))
      as (A & B & C & D & E & F & G).
    simpl in *. repeat split; auto.
    rewrite G, <- app_assoc. reflexivity.
Qed.

Lemma fold_trigger_gen (l : list Listener) w :
  let w' := fold_left (fun w cb => _trigger cb w) l w in
  this w' = this w /\ env w' = env w /\ timeouts w' = timeouts w /\
  requests w' = requests w /\ awaiting w' = awaiting w /\
  trace w' = trace w /\ microtasks w' = microtasks w ++ l.
Proof.
  revert w. induction l as [|cb l IH]; intro w; simpl.
  - repeat split. now rewrite app_nil_r.
  - destruct (IH (_trigger cb w)) as (A & B & C & D & E & F & G).
    simpl in *. repeat split; auto. rewrite G, <- app_assoc. reflexivity.
Qed.

Lemma forallb_inert_listeners (l : list Listener) r :
  forallb inert (rev (map (fun cb => ListenerCall cb r) l)) = true.
Proof.
  apply forallb_forall. intros e He. apply in_rev, in_map_iff in He.
  destruct He as (cb & <- & _). reflexivity.
Qed.

Lemma close_closed w : closed (this (close w)) = true.
Proof.
  unfold close.
  match goal with |- context [fold_left ?f allJobs ?W] =>
    destruct (close_clears allJobs W) as [K _];
    remember (fold_left f allJobs W) as F eqn:EF end.
  clear EF. simpl. rewrite K. reflexivity.
Qed.

Lemma close_frame w :
  this (close w) = setTimers (fun _ => None) (setClosed true (this w)) /\
  env (close w) = env w /\ requests (close w) = requests w /\
  exists added, trace (close w) = added ++ trace w /\
                forallb isClearTimeout added = true.
Proof.
  unfold close.
  match goal with |- context [fold_left ?f allJobs ?W] =>
    pose proof (close_clears allJobs W) as K;
    pose proof (close_trace allJobs W) as L;
    cbv zeta in K, L; destruct K as [K1 K2];
    destruct L as (L1 & L2 & added & L3 & L4);
    remember (fold_left f allJobs W) as F eqn:EF end.
  clear EF. simpl in *. rewrite K1. repeat split; auto.
  exists added. auto.
Qed.

Lemma op_quiet t w w' : Op t w w' -> dormant w -> quiet w w'.
Proof.
  intros H Hq. pose proof Hq as (Ht & Hc).
  destruct H.
  - (* record *)
    apply quiet_inert with (added := [ErrorAccepted (_getErrorString error)]);
      auto; [apply dormant_frame with (w := w); auto|..];
      unfold recordError; simpl; break; auto.
  - (* latch *)
    apply quiet_inert with (added := []); auto.
  - (* stop *)
    unfold _stopScheduledJob, clearTimeout.
    destruct (timers (this w) nm) as [h|]; [|now apply quiet_refl].
    apply quiet_inert with (added := [ClearTimeout h]); auto.
    apply dormant_frame with (w := w); auto. simpl. now rewrite Ht.
  - (* arm *)
    destruct Hc as [Hc|[Hc _]]; [congruence|]. rewrite Hc in H0. discriminate.
  - (* execute *)
    destruct Hc as [Hc|[_ Hc]]; [congruence|]. rewrite Hc in H0. discriminate.
  - (* execute, returned *)
    destruct Hc as [Hc|[_ Hc]]; [congruence|]. rewrite Hc in H0. discriminate.
  - (* complete *)
    destruct Hc as [Hc|[_ Hc]]; [|now rewrite Hc in H0].
    apply quiet_inert with (added := []); auto.
    + split; [exact Ht|left; exact Hc].
    + apply queuedIn_filter_le.
  - (* drop *)
    apply quiet_inert with (added := []); auto.
    apply queuedIn_filter_le.
  - (* next *)
    unfold quiet, started, armed, posted, queued. simpl.
    rewrite !countIf_cons. simpl.
    rewrite !requestUrl_eqb_other by discriminate. rewrite String.eqb_refl.
    rewrite queuedIn_app. simpl.
    pose proof (queuedIn_drop _ _ H) as Q. simpl in Q.
    repeat split; auto; lia.
  - (* activate *)
    destruct (fold_trigger_gen (_notificationsChangeListeners
                (this (onThis (setVersionCheckResult items) w)))
                (onThis (setVersionCheckResult items) w))
      as (A & B & C & D & E & F & G).
    unfold _activateNewVersionInfo.
    apply quiet_inert with (added := []); auto.
    + apply dormant_frame with (w := w); auto; rewrite A; reflexivity.
    + unfold queued. rewrite D. simpl. lia.
  - (* fire *)
    rewrite Ht in H. discriminate.
  - (* close *)
    destruct (close_frame w) as (A & B & C & added & D & E).
    apply quiet_inert with (added := added);
      auto using isClearTimeout_inert.
    + split; [|left; apply close_closed].
      destruct (timeouts (close w)) as [|t l] eqn:F; [reflexivity|].
      exfalso. unfold close in F.
      match type of F with context [fold_left ?f allJobs ?W] =>
        destruct (close_clears allJobs W) as [_ K2];
        remember (fold_left f allJobs W) as X eqn:EX end.
      clear EX. simpl in *.
      destruct (K2 t) as [K _]; [rewrite F; left; reflexivity|].
      rewrite Ht in K. destruct K.
    + unfold queued. rewrite C. lia.
  - (* counters *) apply quiet_inert with (added := []); auto.
  - (* metrics *) apply quiet_inert with (added := []); auto.
  - (* feedback *)
    unfold reportFeedback. destruct (negb _); [now apply quiet_refl|].
    unfold quiet, started, armed, posted, queued. simpl.
    rewrite !countIf_cons. simpl.
    rewrite !requestUrl_eqb_other by discriminate.
    rewrite queuedIn_app. simpl.
    repeat split; auto; lia.
  - (* listen *) apply quiet_inert with (added := []); auto.
  - (* microtasks *)
    destruct (runMicrotasks_trace_gen (microtasks w) (setMicrotasks [] w))
      as (A & B & C & D & E & F & G).
    unfold runMicrotasks.
    eapply quiet_inert; eauto.
    + apply dormant_frame with (w := w); auto; rewrite A; reflexivity.
    + apply forallb_inert_listeners.
    + unfold queued. rewrite D. simpl. lia.
  - (* await *) apply quiet_inert with (added := []); auto.
  - (* unawait *) apply quiet_inert with (added := []); auto.
Qed.

Lemma sameButJobs_trans w1 w2 w3 :
  sameButJobs w1 w2 -> sameButJobs w2 w3 -> sameButJobs w1 w3.
Proof.
  unfold sameButJobs. intros H1 H2.
  repeat match goal with H : _ /\ _ |- _ => destruct H end.
  repeat split; congruence.
Qed.

Lemma _register_frame name cb pre w : sameButJobs w (_register name cb pre w).
Proof. unfold _register, sameButJobs. break; repeat split. Qed.

Lemma _schedule_frame w : sameButJobs w (_schedule w).
Proof.
  unfold _schedule. cbv zeta.
  repeat (eapply sameButJobs_trans; [|apply _register_frame]).
  repeat split.
Qed.

Lemma _register_dormant nm cb pre w :
  dormant w -> dormant (_register nm cb pre w).
Proof.
  intros (Ht & Hc). unfold _register.
  destruct (JobConfig.enabled (jobConfigs (this w) nm)) eqn:E; simpl;
    [|split; auto].
  split; [exact Ht|]. destruct Hc as [Hc|[Hc _]]; [left; exact Hc|].
  rewrite Hc in E. discriminate.
Qed.

Lemma scheduled_quiet ev w : dormant w -> quiet w (scheduled ev w).
Proof.
  intro H. destruct ev; try now apply quiet_refl.
  destruct (_schedule_frame w) as (A & B & C & D & E & _).
  simpl. apply quiet_inert with (added := []); auto.
  - unfold _schedule. auto using _register_dormant.
  - unfold queued. rewrite E. lia.
Qed.

Lemma ops_quiet allow w w' : Ops allow w w' -> dormant w -> quiet w w'.
Proof.
  intros H Hc. induction H as [|t w2 w3 H12 IH Ha H23]; [now apply quiet_refl|].
  eapply quiet_trans; [exact IH|]. eapply op_quiet; [eassumption|apply IH].
Qed.

Lemma step_quiet ev w : timerInv w -> dormant w -> quiet w (step ev w).
Proof.
  intros Ht Hc. pose proof (scheduled_quiet ev Hc) as Q.
  eapply quiet_trans; [exact Q|].
  eapply ops_quiet; [now apply step_ops|apply Q].
Qed.

Lemma run_quiet evs w : timerInv w -> dormant w -> quiet w (run evs w).
Proof.
  revert w. induction evs as [|ev evs IH]; intros w Ht Hc; simpl.
  - now apply quiet_refl.
  - pose proof (step_quiet ev Ht Hc) as Q.
    eapply quiet_trans; [exact Q|].
    apply IH; [now apply step_timerInv|apply Q].
Qed.

Lemma step_close_dormant w : timerInv w -> dormant (step Close w).
Proof.
  intros (T & Q). unfold step. simpl.
  destruct (runMicrotasks_keepsTimers (close w)) as (A & B & C).
  split.
  - rewrite B. now apply close_timeouts.
  - left. rewrite C. apply close_closed.
Qed.

(** ** At most one execution of a job in flight *)

Ltac blocks :=
  unfold recordError, _stopScheduledJob, armTimer, setRunning, dropRequest,
    _request, expire, acceptCounters, acceptMetrics, reportFeedback,
    onNotificationsChanged, _trigger, clearTimeout, setTimeout,
    callPreSchedule in *.

Lemma execute_cases name job w :
  let w' := fst (fst (execute name job w)) in
  let res := snd (execute name job w) in
  jobRuntime (this w')
  = upd (jobRuntime (this w)) name (Some (JobRuntime.make true)) /\
  ((res = Returned /\ requests w' = requests w) \/
   (res = Pending /\
    exists k,
      requests w'
      = requests w ++ [(nextRequest w, KJob (nextExecution w) name k)])).
Proof.
  unfold execute, callJob, _checkVersion, _reportError, _reportCounters,
    _reportMetrics, serialRequests. simpl.
  destruct (JobInfo.cb job); simpl; break; simpl; split; eauto.
Qed.

Lemma inflight_app name l1 l2 :
  length (filter (isRequestOf name) (l1 ++ l2))
  = length (filter (isRequestOf name) l1)
    + length (filter (isRequestOf name) l2).
Proof. now rewrite filter_app, length_app. Qed.

Lemma inflight_filter_le name (p : nat * Continuation -> bool) l :
  length (filter (isRequestOf name) (filter p l))
  <= length (filter (isRequestOf name) l).
Proof.
  induction l as [|q l IH]; simpl; [lia|].
  destruct (p q); simpl; destruct (isRequestOf name q); simpl; lia.
Qed.

Lemma inflight_drop name r k l :
  findRequest r l = Some k ->
  length (filter (isRequestOf name)
            (filter (fun q => negb (Nat.eqb (fst q) r)) l))
  + (if isRequestOf name (r, k) then 1 else 0)
  <= length (filter (isRequestOf name) l).
Proof.
  induction l as [|[r' k'] l IH]; simpl; [discriminate|].
  destruct (Nat.eqb r' r) eqn:E; simpl.
  - intros [= ->].
    pose proof (inflight_filter_le name
                  (fun q => negb (Nat.eqb (fst q) r)) l) as L.
    unfold isRequestOf at 2 3. simpl.
    destruct (isRequestOf name (r', k)) eqn:F; unfold isRequestOf in F;
      simpl in F; rewrite F; simpl; lia.
  - intro H. specialize (IH H).
    destruct (isRequestOf name (r', k')); simpl; lia.
Qed.

Lemma oneAtATime_shrink w w' :
  (forall name, inflight name w' <= inflight name w) ->
  jobRuntime (this w') = jobRuntime (this w) ->
  oneAtATime w -> oneAtATime w'.
Proof.
  intros Hle Hrt H name. destruct (H name) as [A B].
  specialize (Hle name). unfold isRunning in *. rewrite Hrt.
  split; [lia|]. intro E. apply B. lia.
Qed.

Lemma oneAtATime_frame w w' :
  requests w' = requests w ->
  jobRuntime (this w') = jobRuntime (this w) ->
  oneAtATime w -> oneAtATime w'.
Proof.
  intros Hr. apply oneAtATime_shrink. intro name. unfold inflight.
  rewrite Hr. lia.
Qed.

Lemma isRunning_upd name v n w :
  isRunning n (setRunning name v w)
  = if ReportActions_eqb name n then v else isRunning n w.
Proof.
  unfold isRunning, setRunning, upd. simpl.
  destruct (ReportActions_eqb name n); reflexivity.
Qed.

Lemma isRequestOf_job n r x nm k :
  isRequestOf n (r, KJob x nm k) = ReportActions_eqb nm n.
Proof. reflexivity. Qed.

Lemma inflight_one n (q : nat * Continuation) :
  length (filter (isRequestOf n) [q]) = if isRequestOf n q then 1 else 0.
Proof. simpl. destruct (isRequestOf n q); reflexivity. Qed.

Lemma op_oneAtATime t w w' : Op t w w' -> oneAtATime w -> oneAtATime w'.
Proof.
  intros H Hone. destruct H.
  - (* record *)
    apply oneAtATime_frame with (w := w); auto; blocks; simpl; break; auto.
  - (* latch *) apply oneAtATime_frame with (w := w); auto.
  - (* stop *) apply oneAtATime_frame with (w := w); auto; blocks; break; auto.
  - (* arm *) apply oneAtATime_frame with (w := w); auto; blocks; break; auto.
  - (* execute *)
    destruct (execute_cases nm job w) as (A & [(B & _)|(B & k & C)]);
      [contradiction|].
    intro n. destruct (Hone n) as [D E]. unfold inflight, isRunning in *.
    rewrite A, C, inflight_app, inflight_one, isRequestOf_job. unfold upd.
    remember (length (filter (isRequestOf n) (requests w))) as N.
    destruct (ReportActions_eqb nm n) eqn:F; simpl.
    + apply ReportActions_eqb_eq in F. subst n. rewrite H0 in E. simpl in E.
      assert (N = 0)
        by (destruct N as [|[|]];
            [reflexivity|specialize (E eq_refl); discriminate|lia]).
      split; [lia|reflexivity].
    + split; [lia|]. intro G. apply E. lia.
  - (* execute, returned *)
    destruct (execute_cases nm job w) as (A & [(_ & B)|(B & _)]);
      [|congruence].
    intro n. destruct (Hone n) as [D E]. rewrite isRunning_upd.
    unfold inflight, isRunning in *. simpl. rewrite B.
    split; [exact D|]. intro G.
    destruct (ReportActions_eqb nm n) eqn:F.
    + apply ReportActions_eqb_eq in F. subst n. rewrite H0 in E.
      exact (E G).
    + rewrite A. unfold upd. rewrite F. exact (E G).
  - (* complete *)
    intro n. destruct (Hone n) as [D E]. rewrite isRunning_upd.
    pose proof (inflight_drop n _ _ H) as L. rewrite isRequestOf_job in L.
    unfold inflight, isRunning in *. simpl.
    remember (length (filter (isRequestOf n) (requests w))) as N.
    destruct (ReportActions_eqb nm n) eqn:F.
    + split; lia.
    + split; [lia|]. intro G. apply E. lia.
  - (* drop *)
    apply oneAtATime_shrink with (w := w); auto.
    intro n. apply inflight_filter_le.
  - (* next *)
    intro n. destruct (Hone n) as [D E].
    pose proof (inflight_drop n _ _ H) as L. rewrite isRequestOf_job in L.
    unfold inflight, isRunning in *. simpl.
    rewrite inflight_app, inflight_one, isRequestOf_job.
    remember (length (filter (isRequestOf n) (requests w))) as N.
    destruct (ReportActions_eqb nm n) eqn:F; simpl.
    + split; [lia|]. intros _. apply E. lia.
    + split; [lia|]. intro G. apply E. lia.
  - (* activate *)
    destruct (fold_trigger_gen (_notificationsChangeListeners
                (this (onThis (setVersionCheckResult items) w)))
                (onThis (setVersionCheckResult items) w))
      as (A & B & C & D & E & F & G).
    apply oneAtATime_frame with (w := w); auto.
    unfold _activateNewVersionInfo. rewrite A. reflexivity.
  - (* fire *) apply oneAtATime_frame with (w := w); auto.
  - (* close *)
    destruct (close_frame w) as (A & B & C & _).
    apply oneAtATime_frame with (w := w); auto. rewrite A. reflexivity.
  - (* counters *) apply oneAtATime_frame with (w := w); auto.
  - (* metrics *) apply oneAtATime_frame with (w := w); auto.
  - (* feedback *)
    unfold reportFeedback. destruct (negb _); [auto|].
    apply oneAtATime_shrink with (w := w); auto.
    intro n. unfold inflight. simpl. rewrite inflight_app. simpl. lia.
  - (* listen *) apply oneAtATime_frame with (w := w); auto.
  - (* microtasks *)
    destruct (runMicrotasks_trace_gen (microtasks w) (setMicrotasks [] w))
      as (A & B & C & D & E & F & G).
    apply oneAtATime_frame with (w := w); auto.
    unfold runMicrotasks. rewrite A. reflexivity.
  - (* await *) apply oneAtATime_frame with (w := w); auto.
  - (* unawait *) apply oneAtATime_frame with (w := w); auto.
Qed.

Lemma preInit_shrink w w' :
  (forall name, inflight name w' <= inflight name w) ->
  jobRuntime (this w') = jobRuntime (this w) ->
  preInit w -> preInit w'.
Proof.
  intros Hle Hrt H n. destruct (H n) as [A B]. specialize (Hle n).
  rewrite Hrt. split; [auto|lia].
Qed.

Lemma preInit_frame w w' :
  requests w' = requests w ->
  jobRuntime (this w') = jobRuntime (this w) ->
  preInit w -> preInit w'.
Proof.
  intros Hr. apply preInit_shrink. intro n. unfold inflight.
  rewrite Hr. lia.
Qed.

Lemma op_preInit t w w' : Op t w w' -> preInit w -> preInit w'.
Proof.
  intros H Hpre. destruct H.
  - apply preInit_frame with (w := w); auto; blocks; simpl; break; auto.
  - apply preInit_frame with (w := w); auto.
  - apply preInit_frame with (w := w); auto; blocks; break; auto.
  - apply preInit_frame with (w := w); auto; blocks; break; auto.
  - destruct (Hpre nm) as [A _]. congruence.
  - destruct (Hpre nm) as [A _]. congruence.
  - destruct (Hpre nm) as [A _]. congruence.
  - apply preInit_shrink with (w := w); auto.
    intro n. apply inflight_filter_le.
  - destruct (Hpre nm) as [_ A].
    pose proof (inflight_drop nm _ _ H) as L. rewrite isRequestOf_job in L.
    rewrite ReportActions_eqb_refl in L. unfold inflight in A. lia.
  - destruct (fold_trigger_gen (_notificationsChangeListeners
                (this (onThis (setVersionCheckResult items) w)))
                (onThis (setVersionCheckResult items) w))
      as (A & B & C & D & E & F & G).
    apply preInit_frame with (w := w); auto.
    unfold _activateNewVersionInfo. rewrite A. reflexivity.
  - apply preInit_frame with (w := w); auto.
  - destruct (close_frame w) as (A & B & C & _).
    apply preInit_frame with (w := w); auto. rewrite A. reflexivity.
  - apply preInit_frame with (w := w); auto.
  - apply preInit_frame with (w := w); auto.
  - unfold reportFeedback. destruct (negb _); [auto|].
    apply preInit_shrink with (w := w); auto.
    intro n. unfold inflight. simpl. rewrite inflight_app. simpl. lia.
  - apply preInit_frame with (w := w); auto.
  - destruct (runMicrotasks_trace_gen (microtasks w) (setMicrotasks [] w))
      as (A & B & C & D & E & F & G).
    apply preInit_frame with (w := w); auto.
    unfold runMicrotasks. rewrite A. reflexivity.
  - apply preInit_frame with (w := w); auto.
  - apply preInit_frame with (w := w); auto.
Qed.

Lemma preInit_oneAtATime w : preInit w -> oneAtATime w.
Proof. intros H n. destruct (H n) as [_ A]. split; lia. Qed.

Lemma preInit_schedule w : preInit w -> oneAtATime (_schedule w).
Proof.
  intros H n. destruct (H n) as [_ A].
  destruct (_schedule_frame w) as (_ & _ & _ & _ & E & _).
  unfold inflight in *. rewrite E. split; lia.
Qed.

Lemma run_oneAtATime evs w :
  timerInv w -> oneAtATime w -> initCount evs = 0 -> oneAtATime (run evs w).
Proof.
  revert w. induction evs as [|ev evs IH]; intros w Ht H Hn; simpl; [auto|].
  apply IH; [now apply step_timerInv| |destruct ev; simpl in Hn; congruence].
  apply (ops_preserve_all _ op_oneAtATime (step_ops ev Ht)).
  destruct ev; simpl in *; auto; discriminate.
Qed.

Lemma run_preInit evs w :
  timerInv w -> preInit w -> initCount evs <= 1 -> oneAtATime (run evs w).
Proof.
  revert w. induction evs as [|ev evs IH]; intros w Ht H Hn; simpl.
  - now apply preInit_oneAtATime.
  - pose proof (step_ops ev Ht) as S.
    assert (Init_or : ev = Init \/ scheduled ev w = w)
      by (destruct ev; auto).
    destruct Init_or as [->|E].
    + apply run_oneAtATime; [now apply step_timerInv| |simpl in Hn; lia].
      apply (ops_preserve_all _ op_oneAtATime S). now apply preInit_schedule.
    + rewrite E in S. apply IH; [now apply step_timerInv| |].
      * apply (ops_preserve_all _ op_preInit S H).
      * destruct ev; simpl in Hn; auto; lia.
Qed.

Lemma boot_preInit env n v : preInit (boot env n v).
Proof. intro name. split; reflexivity. Qed.

(** ** Registered jobs *)

Lemma registered_frame w w' :
  jobRuntime (this w') = jobRuntime (this w) ->
  jobs (this w') = jobs (this w) ->
  jobConfigs (this w') = jobConfigs (this w) ->
  registered w -> registered w'.
Proof. intros A B C H nm. rewrite A, B, C. apply H. Qed.

Lemma execute_frame nm job w :
  let w' := fst (fst (execute nm job w)) in
  jobs (this w') = jobs (this w) /\
  jobConfigs (this w') = jobConfigs (this w) /\
  closed (this w') = closed (this w) /\
  timers (this w') = timers (this w) /\
  timeouts w' = timeouts w /\ env w' = env w /\
  awaiting w' = awaiting w /\ microtasks w' = microtasks w /\
  isFirstErrorReported (this w') = isFirstErrorReported (this w) /\
  id (this w') = id (this w) /\ name (this w') = name (this w) /\
  version (this w') = version (this w) /\
  _versionCheckResult (this w') = _versionCheckResult (this w) /\
  _notificationsChangeListeners (this w')
  = _notificationsChangeListeners (this w) /\
  nextTimeout w' = nextTimeout w.
Proof.
  unfold execute, callJob, _checkVersion, _reportError, _reportCounters,
    _reportMetrics, serialRequests. simpl.
  destruct (JobInfo.cb job); simpl; break; simpl; repeat split.
Qed.

Lemma registered_setRunning nm v w :
  jobRuntime (this w) nm <> None -> registered w ->
  registered (setRunning nm v w).
Proof.
  intros Hs H n Hn. simpl in *. unfold upd in Hn.
  destruct (ReportActions_eqb nm n) eqn:E; [|auto].
  apply ReportActions_eqb_eq in E. subst n. auto.
Qed.

Lemma op_registered t w w' : Op t w w' -> registered w -> registered w'.
Proof.
  intros H Hreg. destruct H.
  - apply registered_frame with (w := w); auto; blocks; simpl; break; auto.
  - apply registered_frame with (w := w); auto.
  - apply registered_frame with (w := w); auto; blocks; break; auto.
  - apply registered_frame with (w := w); auto; blocks; break; auto.
  - destruct (execute_cases nm job w) as (A & _).
    destruct (execute_frame nm job w) as (B & C & _).
    intros n Hn. rewrite B, C. rewrite A in Hn. unfold upd in Hn.
    destruct (ReportActions_eqb nm n) eqn:E; [|auto].
    apply ReportActions_eqb_eq in E. subst n. apply Hreg. congruence.
  - destruct (execute_cases nm job w) as (A & _).
    destruct (execute_frame nm job w) as (B & C & _).
    intros n Hn. simpl in *. rewrite B, C. rewrite A in Hn. unfold upd in Hn.
    destruct (ReportActions_eqb nm n) eqn:E; [|auto].
    apply ReportActions_eqb_eq in E. subst n. apply Hreg. congruence.
  - apply registered_setRunning; auto.
  - apply registered_frame with (w := w); auto.
  - apply registered_frame with (w := w); auto.
  - destruct (fold_trigger_gen (_notificationsChangeListeners
                (this (onThis (setVersionCheckResult items) w)))
                (onThis (setVersionCheckResult items) w))
      as (A & _).
    apply registered_frame with (w := w); auto;
      unfold _activateNewVersionInfo; rewrite A; reflexivity.
  - apply registered_frame with (w := w); auto.
  - destruct (close_frame w) as (A & _).
    apply registered_frame with (w := w); auto; rewrite A; reflexivity.
  - apply registered_frame with (w := w); auto.
  - apply registered_frame with (w := w); auto.
  - apply registered_frame with (w := w); auto; blocks; break; auto.
  - apply registered_frame with (w := w); auto.
  - destruct (runMicrotasks_trace_gen (microtasks w) (setMicrotasks [] w))
      as (A & _).
    apply registered_frame with (w := w); auto;
      unfold runMicrotasks; rewrite A; reflexivity.
  - apply registered_frame with (w := w); auto.
  - apply registered_frame with (w := w); auto.
Qed.

Lemma _register_registered nm cb pre w :
  registered w -> registered (_register nm cb pre w).
Proof.
  unfold _register. intros H.
  destruct (JobConfig.enabled (jobConfigs (this w) nm)) eqn:E; simpl; [|auto].
  intros n Hn. simpl in *. unfold upd in *.
  destruct (ReportActions_eqb nm n) eqn:F; [|auto].
  apply ReportActions_eqb_eq in F. subst n. split; [auto|discriminate].
Qed.

Lemma _schedule_registered w : registered w -> registered (_schedule w).
Proof. intro H. unfold _schedule. auto using _register_registered. Qed.

(** ** Error aggregation *)

Lemma get_set_same {V} k (v : V) m : JsRecord.get k (JsRecord.set k v m) = Some v.
Proof.
  induction m as [|[k' v'] m IH]; simpl.
  - now rewrite String.eqb_refl.
  - destruct (String.eqb k k') eqn:E; simpl; rewrite E; auto.
Qed.

Lemma get_set_other {V} k k' (v : V) m :
  k <> k' -> JsRecord.get k' (JsRecord.set k v m) = JsRecord.get k' m.
Proof.
  intro H. induction m as [|[k2 v2] m IH]; simpl.
  - destruct (String.eqb k' k) eqn:E; [|reflexivity].
    apply String.eqb_eq in E. congruence.
  - destruct (String.eqb k k2) eqn:E; simpl.
    + apply String.eqb_eq in E. subst k2.
      destruct (String.eqb k' k) eqn:F; [|reflexivity].
      apply String.eqb_eq in F. congruence.
    + destruct (String.eqb k' k2); auto.
Qed.

Lemma get_None_keys {V} k (m : JsRecord.t V) :
  JsRecord.get k m = None <-> ~ In k (JsRecord.keys m).
Proof.
  induction m as [|[k' v'] m IH]; simpl; [tauto|].
  destruct (String.eqb k k') eqn:E.
  - apply String.eqb_eq in E. subst. split; [discriminate|tauto].
  - apply String.eqb_neq in E. rewrite IH. split; [intros H [F|F]|]; try tauto.
    congruence.
Qed.

Lemma keys_set {V} k (v : V) m :
  JsRecord.keys (JsRecord.set k v m)
  = match JsRecord.get k m with
    | Some _ => JsRecord.keys m
    | None => JsRecord.keys m ++ [k]
    end.
Proof.
  induction m as [|[k' v'] m IH]; simpl; [reflexivity|].
  destruct (String.eqb k k') eqn:E; simpl; [reflexivity|].
  rewrite IH. destruct (JsRecord.get k m); reflexivity.
Qed.

Lemma in_set {V} k (v : V) m k' v' :
  In (k', v') (JsRecord.set k v m) -> (k' = k /\ v' = v) \/ In (k', v') m.
Proof.
  induction m as [|[k2 v2] m IH]; simpl.
  - intros [[= <- <-]|[]]. auto.
  - destruct (String.eqb k k2) eqn:E; simpl.
    + apply String.eqb_eq in E. subst k2. intros [[= <- <-]|H]; auto.
    + intros [H|H]; [auto|]. destruct (IH H); auto.
Qed.

Lemma wfErrors_set k info errs :
  ErrorInfo.error info = k -> 1 <= ErrorInfo.count info -> wfErrors errs ->
  wfErrors (JsRecord.set k info errs).
Proof.
  intros He H1 (Hn & Hk). split.
  - rewrite keys_set. destruct (JsRecord.get k errs) eqn:G; [auto|].
    apply get_None_keys in G. apply NoDup_app; auto.
    + constructor; [intros []|constructor].
    + intros x Hx [<-|[]]. contradiction.
  - intros k' info' Hin. apply in_set in Hin.
    destruct Hin as [[-> ->]|Hin]; auto.
Qed.

Lemma acceptedSince_plain s added tr :
  forallb plain added = true ->
  acceptedSince s (added ++ tr) = acceptedSince s tr.
Proof.
  induction added as [|e added IH]; simpl; [reflexivity|].
  intro H. apply andb_prop in H. destruct H as [He Ha].
  destruct e; simpl in *; try discriminate; auto.
Qed.

Lemma errorsOk_frame added w w' :
  errors (this w') = errors (this w) ->
  trace w' = added ++ trace w ->
  forallb plain added = true ->
  errorsOk w -> errorsOk w'.
Proof.
  intros He Ht Hp (A & B). unfold errorsOk. rewrite He, Ht. split; [auto|].
  intro s. rewrite acceptedSince_plain; auto.
Qed.

Lemma get_In {V} k (m : JsRecord.t V) v :
  JsRecord.get k m = Some v -> In (k, v) m.
Proof.
  induction m as [|[k' v'] m IH]; simpl; [discriminate|].
  destruct (String.eqb k k') eqn:E.
  - apply String.eqb_eq in E. intros [= ->]. subst. auto.
  - auto.
Qed.

Lemma recordError_errorsOk error w : errorsOk w -> errorsOk (recordError error w).
Proof.
  intros (Hwf & Hc). unfold recordError, errorsOk. simpl.
  set (sig := _getErrorString error).
  destruct (JsRecord.get sig (errors (this w))) as [info|] eqn:G; simpl.
  - assert (Hi : JsRecord.inherited sig = false).
    { destruct (JsRecord.inherited sig) eqn:Hi; [|reflexivity].
      pose proof (Hc sig) as H. unfold pendingCount in H.
      rewrite G, Hi in H. destruct Hwf as (_ & Hk).
      destruct (Hk _ _ (get_In _ _ G)) as [_ H1]. lia. }
    split.
    + apply wfErrors_set; [|simpl; lia|auto]. simpl.
      destruct Hwf as (_ & Hk). apply (Hk _ _ (get_In _ _ G)).
    + intro s. unfold pendingCount. specialize (Hc s).
      unfold pendingCount in Hc.
      destruct (String.eqb sig s) eqn:E.
      * apply String.eqb_eq in E. subst s. rewrite get_set_same. simpl.
        rewrite G, Hi in Hc. rewrite Hi. lia.
      * apply String.eqb_neq in E. rewrite get_set_other by auto.
        destruct (JsRecord.inherited s); auto.
  - destruct (JsRecord.inherited sig) eqn:Hi; simpl.
    + split; [exact Hwf|]. intro s. rewrite Hc.
      destruct (JsRecord.inherited s) eqn:Hs; [reflexivity|].
      destruct (String.eqb sig s) eqn:E; [|reflexivity].
      apply String.eqb_eq in E. congruence.
    + split.
      * apply wfErrors_set; simpl; auto.
      * intro s. unfold pendingCount. specialize (Hc s).
        unfold pendingCount in Hc.
        destruct (String.eqb sig s) eqn:E.
        -- apply String.eqb_eq in E. subst s. rewrite get_set_same. simpl.
           rewrite G, Hi in Hc. rewrite Hi. lia.
        -- apply String.eqb_neq in E. rewrite get_set_other by auto.
           destruct (JsRecord.inherited s); auto.
Qed.

Lemma execute_errorsOk nm job w :
  errorsOk w -> errorsOk (fst (fst (execute nm job w))).
Proof.
  intros (Hwf & Hc).
  unfold execute, callJob, _checkVersion, _reportError, _reportCounters,
    _reportMetrics, serialRequests, errorsOk. simpl.
  destruct (JobInfo.cb job); simpl; break; simpl; split; auto;
    try (split; [constructor|intros ? ? []]);
    intro s; destruct (JsRecord.inherited s); reflexivity.
Qed.

Lemma op_errorsOk t w w' : Op t w w' -> errorsOk w -> errorsOk w'.
Proof.
  intros H Hok. destruct H.
  - now apply recordError_errorsOk.
  - apply errorsOk_frame with (added := []) (w := w); auto.
  - unfold _stopScheduledJob, clearTimeout.
    destruct (timers (this w) nm) as [h|]; [|auto].
    apply errorsOk_frame with (added := [ClearTimeout h]) (w := w); auto.
  - unfold armTimer, setTimeout, callPreSchedule.
    destruct (timers (this w) nm); [auto|].
    destruct (JobInfo.preScheduleCb job) as [[]|].
    + eapply errorsOk_frame with (w := w) (added := [_; _]);
        [reflexivity|reflexivity|reflexivity|auto].
    + eapply errorsOk_frame with (w := w) (added := [_]);
        [reflexivity|reflexivity|reflexivity|auto].
  - now apply execute_errorsOk.
  - apply errorsOk_frame
      with (added := []) (w := fst (fst (execute nm job w))); auto.
    now apply execute_errorsOk.
  - apply errorsOk_frame with (added := []) (w := w); auto.
  - apply errorsOk_frame with (added := []) (w := w); auto.
  - eapply errorsOk_frame with (w := w) (added := [_]);
      [reflexivity|reflexivity|reflexivity|auto].
  - destruct (fold_trigger_gen (_notificationsChangeListeners
                (this (onThis (setVersionCheckResult items) w)))
                (onThis (setVersionCheckResult items) w))
      as (A & B & C & D & E & F & G).
    apply errorsOk_frame with (added := []) (w := w); auto.
    unfold _activateNewVersionInfo. rewrite A. reflexivity.
  - apply errorsOk_frame with (added := []) (w := w); auto.
  - destruct (close_frame w) as (A & B & C & added & D & E).
    apply errorsOk_frame with (added := added) (w := w); auto.
    + rewrite A. reflexivity.
    + revert E. apply forallb_impl. intros []; simpl; congruence.
  - apply errorsOk_frame with (added := []) (w := w); auto.
  - apply errorsOk_frame with (added := []) (w := w); auto.
  - unfold reportFeedback. destruct (negb _); [auto|].
    eapply errorsOk_frame with (w := w) (added := [_]);
      [reflexivity|reflexivity|reflexivity|auto].
  - apply errorsOk_frame with (added := []) (w := w); auto.
  - destruct (runMicrotasks_trace_gen (microtasks w) (setMicrotasks [] w))
      as (A & B & C & D & E & F & G).
    eapply errorsOk_frame with (w := w); [| |  |exact Hok].
    + unfold runMicrotasks. rewrite A. reflexivity.
    + unfold runMicrotasks. rewrite G. reflexivity.
    + apply forallb_forall. intros e He. apply in_rev, in_map_iff in He.
      destruct He as (cb & <- & _). reflexivity.
  - apply errorsOk_frame with (added := []) (w := w); auto.
  - apply errorsOk_frame with (added := []) (w := w); auto.
Qed.

Lemma _schedule_errorsOk w : errorsOk w -> errorsOk (_schedule w).
Proof.
  destruct (_schedule_frame w) as (_ & _ & _ & A & _ & B & _).
  apply errorsOk_frame with (added := []); auto.
Qed.

Lemma step_sound ev w : sound w -> sound (step ev w).
Proof.
  intros (Ht & Hr & He). split; [now apply step_timerInv|]. split.
  - apply (ops_preserve_all _ op_registered (step_ops ev Ht)).
    destruct ev; simpl; auto using _schedule_registered.
  - apply (ops_preserve_all _ op_errorsOk (step_ops ev Ht)).
    destruct ev; simpl; auto using _schedule_errorsOk.
Qed.

Lemma run_sound evs w : sound w -> sound (run evs w).
Proof.
  revert w. induction evs as [|ev evs IH]; intros w H; simpl; [auto|].
  apply IH, step_sound, H.
Qed.

Lemma boot_sound env n v : sound (boot env n v).
Proof.
  split; [apply boot_timerInv|]. split.
  - intros nm H. simpl in H. congruence.
  - split; [split; [constructor|intros ? ? []]|].
    intro s. simpl. destruct (JsRecord.inherited s); reflexivity.
Qed.

(** ** The re-entrancy guard *)

Lemma armTimer_fresh nm job w :
  timers (this w) nm = None ->
  let w' := armTimer nm job w in
  timers (this w') nm = Some (nextTimeout w) /\
  In (Timeout.make (nextTimeout w) nm job) (timeouts w') /\
  hd_error (trace w')
  = Some (SetTimeout (nextTimeout w) nm (JobInfo.seconds job * 1000)) /\
  started w' = started w /\ requests w' = requests w /\
  awaiting w' = awaiting w.
Proof.
  intro Ht. unfold armTimer. rewrite Ht.
  destruct (JobInfo.preScheduleCb job) as [[]|]; simpl;
    rewrite upd_same; unfold started; simpl; rewrite !countIf_cons; simpl;
    repeat split; auto; apply in_or_app; right; left; reflexivity.
Qed.

Lemma _stopScheduledJob_facts nm w :
  let w' := _stopScheduledJob nm w in
  timers (this w') nm = None /\ nextTimeout w' = nextTimeout w /\
  started w' = started w /\ requests w' = requests w /\
  awaiting w' = awaiting w /\ closed (this w') = closed (this w) /\
  jobs (this w') = jobs (this w) /\ jobRuntime (this w') = jobRuntime (this w) /\
  jobConfigs (this w') = jobConfigs (this w).
Proof.
  unfold _stopScheduledJob.
  destruct (timers (this w) nm) eqn:E; simpl; [rewrite upd_same|];
    unfold started; simpl; rewrite ?countIf_cons; repeat split; auto.
Qed.

Lemma isRunning_true nm w :
  isRunning nm w = true ->
  jobRuntime (this w) nm = Some (JobRuntime.make true).
Proof.
  unfold isRunning.
  destruct (jobRuntime (this w) nm) as [[[]]|]; simpl; congruence.
Qed.

Lemma running_registered nm w :
  registered w -> isRunning nm w = true ->
  JobConfig.enabled (jobConfigs (this w) nm) = true /\
  exists job, jobs (this w) nm = Some job.
Proof.
  intros Hreg Hrun. apply isRunning_true in Hrun.
  destruct (Hreg nm) as [A B]; [congruence|]. split; [auto|].
  destruct (jobs (this w) nm) as [job|]; [eauto|congruence].
Qed.

Lemma timerFires_running h t w :
  sound w ->
  findTimeout h (timeouts w) = Some t ->
  isRunning (Timeout.name t) w = true ->
  rearmedInstead (Timeout.name t) w (timerFires h w).
Proof.
  intros ((T & Q) & Hreg & _) Hf Hrun.
  destruct (running_registered _ Hreg Hrun) as (He & job & Hj).
  apply isRunning_true in Hrun.
  assert (Hc : closed (this w) = false).
  { destruct (closed (this w)) eqn:Hc; [|reflexivity].
    rewrite (Q Hc) in Hf. discriminate. }
  unfold timerFires, timerCallback. rewrite Hf.
  unfold handler. simpl. rewrite Hrun. simpl.
  unfold _runJobLater. simpl. rewrite Hc, He, Hj. simpl.
  match goal with |- rearmedInstead _ _ (armTimer _ _ ?W) =>
    destruct (@armTimer_fresh (Timeout.name t) job W)
      as (A & B & C & D & E & F); [simpl; apply upd_same|] end.
  unfold rearmedInstead. simpl in *. repeat split; auto.
  exists job. auto.
Qed.

Lemma _runJob_running nm w :
  sound w ->
  closed (this w) = false ->
  isRunning nm w = true ->
  rearmedInstead nm w (fst (_runJob nm true w)) /\
  snd (_runJob nm true w) = RNull.
Proof.
  intros (_ & Hreg & _) Hc Hrun.
  destruct (running_registered _ Hreg Hrun) as (He & job & Hj).
  apply isRunning_true in Hrun.
  destruct (_stopScheduledJob_facts nm w)
    as (S1 & S2 & S3 & S4 & S5 & S6 & S7 & S8 & S9).
  unfold _runJob. rewrite Hc, He, Hj. simpl.
  unfold handler. rewrite S8, Hrun. simpl.
  unfold _runJobLater. rewrite S6, S9, S7, Hc, He, Hj. simpl.
  destruct (@armTimer_fresh nm job (_stopScheduledJob nm w) S1)
    as (A & B & C & D & E & F).
  unfold rearmedInstead. rewrite <- S2. repeat split; try congruence.
  exists job. auto.
Qed.

(** ** What no block changes *)

Lemma sameSetup_refl w : sameSetup w w.
Proof. repeat split; auto. Qed.

Lemma sameSetup_trans w1 w2 w3 :
  sameSetup w1 w2 -> sameSetup w2 w3 -> sameSetup w1 w3.
Proof.
  unfold sameSetup. intros (A1 & A2 & A3 & A4 & A5 & A6 & A7)
                           (B1 & B2 & B3 & B4 & B5 & B6 & B7).
  repeat split; try congruence. auto.
Qed.

Lemma sameSetup_this w w' :
  this w' = this w -> env w' = env w -> sameSetup w w'.
Proof. intros E1 E2. unfold sameSetup. rewrite E1, E2. repeat split; auto. Qed.

Lemma op_sameSetup t w w' : Op t w w' -> sameSetup w w'.
Proof.
  intro H. destruct H;
    try (unfold sameSetup; blocks; simpl; break; repeat split; auto; fail).
  - destruct (execute_frame nm job w)
      as (A & B & C & D & E & F & G & I & J & K & L & M & _).
    unfold sameSetup. rewrite B, C, F, K, L, M. repeat split; auto.
    unfold execute, callJob, _checkVersion, _reportError, _reportCounters,
      _reportMetrics, serialRequests. simpl.
    destruct (JobInfo.cb job); simpl; break; reflexivity.
  - destruct (execute_frame nm job w)
      as (A & B & C & D & E & F & G & I & J & K & L & M & _).
    unfold sameSetup. simpl. rewrite B, C, F, K, L, M. repeat split; auto.
    unfold execute, callJob, _checkVersion, _reportError, _reportCounters,
      _reportMetrics, serialRequests. simpl.
    destruct (JobInfo.cb job); simpl; break; reflexivity.
  - destruct (fold_trigger_gen (_notificationsChangeListeners
                (this (onThis (setVersionCheckResult items) w)))
                (onThis (setVersionCheckResult items) w))
      as (A & B & _).
    unfold sameSetup, _activateNewVersionInfo. rewrite A, B.
    repeat split; auto.
  - destruct (runMicrotasks_trace_gen (microtasks w) (setMicrotasks [] w))
      as (A & B & _).
    apply sameSetup_this; unfold runMicrotasks; [rewrite A|rewrite B];
      reflexivity.
Qed.

Lemma _schedule_sameSetup w : sameSetup w (_schedule w).
Proof.
  assert (R : forall nm cb pre w, sameSetup w (_register nm cb pre w))
    by (intros; unfold _register, sameSetup; break; repeat split; auto).
  unfold _schedule. repeat (eapply sameSetup_trans; [|apply R]).
  apply sameSetup_refl.
Qed.

Lemma ops_sameSetup allow w w' : Ops allow w w' -> sameSetup w w'.
Proof.
  induction 1; [apply sameSetup_refl|].
  eapply sameSetup_trans; eauto using op_sameSetup.
Qed.

Lemma step_sameSetup ev w : timerInv w -> sameSetup w (step ev w).
Proof.
  intro H. eapply sameSetup_trans; [|eapply ops_sameSetup, step_ops, H].
  destruct ev; simpl; auto using sameSetup_refl, _schedule_sameSetup.
Qed.

Lemma run_sameSetup evs w : timerInv w -> sameSetup w (run evs w).
Proof.
  revert w. induction evs as [|ev evs IH]; intros w H; simpl.
  - apply sameSetup_refl.
  - eapply sameSetup_trans; [apply step_sameSetup, H|].
    apply IH, step_timerInv, H.
Qed.

(** ** The batch a flush builds *)

Lemma errorPayload_error c info :
  JsRecord.get "error" (errorPayload c info) = Some (JStr (ErrorInfo.error info)).
Proof. reflexivity. Qed.

Arguments errorPayload : simpl never.

Lemma payloadsFor_values c s errs :
  wfErrors errs ->
  payloadsFor s (map (errorPayload c) (JsRecord.values errs))
  = match JsRecord.get s errs with
    | Some info => [errorPayload c info]
    | None => []
    end.
Proof.
  induction errs as [|[k info] m IH]; intros (Hn & Hk); [reflexivity|].
  assert (Hm : wfErrors m).
  { split; [now inversion Hn|]. intros k' i' Hin. apply Hk. now right. }
  destruct (Hk k info (or_introl eq_refl)) as [He _].
  unfold payloadsFor in *. simpl. rewrite He.
  specialize (IH Hm). rewrite IH. rewrite (String.eqb_sym s k).
  destruct (String.eqb k s) eqn:E; [|reflexivity].
  apply String.eqb_eq in E.
  assert (G : JsRecord.get s m = None)
    by (apply (proj2 (get_None_keys s m)); simpl in Hn; rewrite <- E;
        now inversion Hn).
  rewrite G. reflexivity.
Qed.

Lemma payloads_of_signature w s :
  errorsOk w ->
  JsRecord.inherited s = false ->
  payloadsFor s (buildPayloads (this w))
  = match acceptedSince s (trace w) with
    | 0 => []
    | S c => [errorPayload (this w) (ErrorInfo.make s (S c))]
    end.
Proof.
  intros (Hwf & Hc) Hi. unfold buildPayloads.
  rewrite payloadsFor_values by exact Hwf.
  specialize (Hc s). unfold pendingCount in Hc. rewrite Hi in Hc.
  destruct (JsRecord.get s (errors (this w))) as [[e c]|] eqn:G.
  - apply get_In in G. destruct Hwf as (_ & Hk).
    destruct (Hk _ _ G) as [He H1]. simpl in *. subst e.
    rewrite <- Hc. destruct c; [lia|reflexivity].
  - rewrite <- Hc. reflexivity.
Qed.

Lemma payload_signatures c errs :
  wfErrors errs ->
  map payloadSignature (map (errorPayload c) (JsRecord.values errs))
  = map (fun k => Some (JStr k)) (JsRecord.keys errs).
Proof.
  induction errs as [|[k info] m IH]; intros (Hn & Hk); [reflexivity|].
  simpl. unfold payloadSignature at 1. rewrite errorPayload_error.
  destruct (Hk k info (or_introl eq_refl)) as [He _]. rewrite He.
  f_equal. apply IH. split; [now inversion Hn|].
  intros k' i' Hin. apply Hk. now right.
Qed.

(** What a settling request can do to the pending map: nothing, or the
    snapshot of a flush it sets off. *)
Lemma op_errors_kept t w w' :
  t <> TRecord -> Op t w w' ->
  errors (this w') = errors (this w) \/ errors (this w') = [].
Proof.
  intros Ht H. destruct H; try congruence;
    try (left; blocks; simpl; break; reflexivity).
  - unfold execute, callJob, _checkVersion, _reportError, _reportCounters,
      _reportMetrics, serialRequests. simpl.
    destruct (JobInfo.cb job); simpl; break; auto.
  - unfold execute, callJob, _checkVersion, _reportError, _reportCounters,
      _reportMetrics, serialRequests. simpl.
    destruct (JobInfo.cb job); simpl; break; auto.
  - destruct (fold_trigger_gen (_notificationsChangeListeners
                (this (onThis (setVersionCheckResult items) w)))
                (onThis (setVersionCheckResult items) w))
      as (A & _).
    left. unfold _activateNewVersionInfo. rewrite A. reflexivity.
  - destruct (runMicrotasks_trace_gen (microtasks w) (setMicrotasks [] w))
      as (A & _).
    left. unfold runMicrotasks. rewrite A. reflexivity.
Qed.

Lemma settling_keeps_or_clears r o w :
  let w' := step (HttpSettles r o) w in
  errors (this w') = errors (this w) \/ errors (this w') = [].
Proof.
  cbv zeta. unfold step. simpl.
  destruct (runMicrotasks_trace_gen
              (microtasks (httpSettles r o w))
              (setMicrotasks [] (httpSettles r o w))) as (A & _).
  unfold runMicrotasks. rewrite A. simpl.
  apply (ops_preserve
           (fun w' => errors (this w') = errors (this w) \/
                      errors (this w') = [])
           (httpSettles_ops r o w)); [|auto].
  intros t w1 w2 Ha H [E|E];
    (destruct (@op_errors_kept t w1 w2) as [F|F];
     [destruct t; simpl in Ha; congruence|exact H|rewrite F; auto|auto]).
Qed.

(** ** More of what holds in every reachable state *)

Lemma op_jobs t w w' : Op t w w' -> jobs (this w') = jobs (this w).
Proof.
  intro H. destruct H;
    try (blocks; simpl; break; reflexivity).
  - destruct (execute_frame nm job w) as (A & _). exact A.
  - destruct (execute_frame nm job w) as (A & _). exact A.
  - destruct (fold_trigger_gen (_notificationsChangeListeners
                (this (onThis (setVersionCheckResult items) w)))
                (onThis (setVersionCheckResult items) w))
      as (A & _).
    unfold _activateNewVersionInfo. rewrite A. reflexivity.
  - destruct (runMicrotasks_trace_gen (microtasks w) (setMicrotasks [] w))
      as (A & _).
    unfold runMicrotasks. rewrite A. reflexivity.
Qed.

Lemma op_awaiting t w w' :
  t <> TAwait -> t <> TUnawait -> Op t w w' -> awaiting w' = awaiting w.
Proof.
  intros H1 H2 H. destruct H; try congruence;
    try (blocks; simpl; break; reflexivity).
  - destruct (execute_frame nm job w) as (_ & _ & _ & _ & _ & _ & A & _).
    exact A.
  - destruct (execute_frame nm job w) as (_ & _ & _ & _ & _ & _ & A & _).
    exact A.
  - destruct (fold_trigger_gen (_notificationsChangeListeners
                (this (onThis (setVersionCheckResult items) w)))
                (onThis (setVersionCheckResult items) w))
      as (_ & _ & _ & _ & A & _).
    unfold _activateNewVersionInfo. rewrite A. reflexivity.
  - destruct (runMicrotasks_trace_gen (microtasks w) (setMicrotasks [] w))
      as (_ & _ & _ & _ & A & _).
    unfold runMicrotasks. rewrite A. reflexivity.
Qed.

Lemma _schedule_jobsOk w : jobsOk w -> jobsOk (_schedule w).
Proof.
  assert (R : forall job w,
            jobsOk w -> jobsOk (_register job (callbackOf job) (hookOf job) w)).
  { intros job w0 H. unfold _register. destruct (negb _); [exact H|].
    intros j info. simpl. unfold upd.
    destruct (ReportActions_eqb job j) eqn:E; [|apply H].
    apply ReportActions_eqb_eq in E. subst j. intros [= <-]. auto. }
  intro H. unfold _schedule.
  apply (R ReportMetrics), (R ReportCounters), (R ReportError),
    (R VersionCheck), H.
Qed.

Lemma op_jobsOk t w w' : Op t w w' -> jobsOk w -> jobsOk w'.
Proof. intros H Hok job info. rewrite (op_jobs H). apply Hok. Qed.

Lemma op_cfgOk t w w' : Op t w w' -> cfgOk w -> cfgOk w'.
Proof.
  intros H Hok job. destruct (op_sameSetup H) as (A & _). rewrite A.
  apply Hok.
Qed.

Lemma _schedule_cfgOk w : cfgOk w -> cfgOk (_schedule w).
Proof.
  intros Hok job. destruct (_schedule_sameSetup w) as (A & _). rewrite A.
  apply Hok.
Qed.

Lemma boot_cfgOk penv n v : cfgOk (boot penv n v).
Proof. intro job. simpl. break; destruct job; reflexivity. Qed.

Lemma findRequest_In r l k : findRequest r l = Some k -> In (r, k) l.
Proof.
  induction l as [|[r' k'] l IH]; simpl; [discriminate|].
  destruct (Nat.eqb r' r) eqn:E.
  - apply Nat.eqb_eq in E. intros [= ->]. subst. auto.
  - auto.
Qed.

Lemma requestsOk_frame w w' :
  requests w' = requests w -> jobRuntime (this w') = jobRuntime (this w) ->
  requestsOk w -> requestsOk w'.
Proof. intros A B H r x job k. rewrite A, B. apply H. Qed.

Lemma requestsOk_setRunning nm v w :
  requestsOk w -> requestsOk (setRunning nm v w).
Proof.
  intros H r x job k Hin. simpl in *. unfold upd.
  destruct (ReportActions_eqb nm job); [discriminate|eauto].
Qed.

Lemma requestsOk_drop r w : requestsOk w -> requestsOk (dropRequest r w).
Proof.
  intros H r' x job k Hin. simpl in *. apply filter_In in Hin.
  destruct Hin as [Hin _]. eauto.
Qed.

Lemma op_requestsOk t w w' : Op t w w' -> requestsOk w -> requestsOk w'.
Proof.
  intros H Hok. destruct H;
    try (apply requestsOk_frame with (w := w); auto;
         blocks; simpl; break; reflexivity).
  - destruct (execute_cases nm job w) as (A & [(_ & B)|(_ & k & B)]);
      intros r x j k' Hin; rewrite A; rewrite B in Hin; unfold upd;
      (destruct (ReportActions_eqb nm j) eqn:E; [discriminate|]).
    + eauto.
    + apply in_app_or in Hin. destruct Hin as [Hin|[[= _ _ <- _]|[]]];
        [eauto|]. rewrite ReportActions_eqb_refl in E. discriminate.
  - apply requestsOk_setRunning.
    destruct (execute_cases nm job w) as (A & [(_ & B)|(_ & k & B)]);
      intros r x j k' Hin; rewrite A; rewrite B in Hin; unfold upd;
      (destruct (ReportActions_eqb nm j) eqn:E; [discriminate|]).
    + eauto.
    + apply in_app_or in Hin. destruct Hin as [Hin|[[= _ _ <- _]|[]]];
        [eauto|]. rewrite ReportActions_eqb_refl in E. discriminate.
  - apply requestsOk_setRunning, requestsOk_drop, Hok.
  - now apply requestsOk_drop.
  - intros r' x' j k' Hin. simpl in *. apply in_app_or in Hin.
    destruct Hin as [Hin|[[= _ _ <- _]|[]]].
    + apply filter_In in Hin. destruct Hin as [Hin _]. eauto.
    + apply findRequest_In in H. eauto.
  - destruct (fold_trigger_gen (_notificationsChangeListeners
                (this (onThis (setVersionCheckResult items) w)))
                (onThis (setVersionCheckResult items) w))
      as (A & _ & _ & B & _).
    apply requestsOk_frame with (w := w); auto.
    unfold _activateNewVersionInfo. rewrite A. reflexivity.
  - unfold reportFeedback. destruct (negb _); [exact Hok|].
    intros r' x' j k' Hin. simpl in *. apply in_app_or in Hin.
    destruct Hin as [Hin|[[=]|[]]]. eauto.
  - destruct (runMicrotasks_trace_gen (microtasks w) (setMicrotasks [] w))
      as (A & _ & _ & B & _).
    apply requestsOk_frame with (w := w); auto.
    unfold runMicrotasks. rewrite A. reflexivity.
Qed.

Lemma _schedule_requestsOk w : requestsOk w -> requestsOk (_schedule w).
Proof.
  assert (R : forall job cb pre w,
            requestsOk w -> requestsOk (_register job cb pre w)).
  { intros job cb pre w0 H. unfold _register. destruct (negb _); [exact H|].
    intros r x j k Hin. simpl in *. unfold upd.
    destruct (ReportActions_eqb job j); [discriminate|eauto]. }
  intro H. unfold _schedule. auto.
Qed.

Lemma op_awaitOk t w w' : t <> TAwait -> Op t w w' -> awaitOk w -> awaitOk w'.
Proof.
  intros Hne H Hok x rest Hin.
  assert (F : t <> TUnawait -> awaiting w' = awaiting w)
    by (intro; eapply op_awaiting; eauto).
  destruct H; try congruence;
    try (rewrite F in Hin by discriminate; eapply Hok; eauto; fail).
  simpl in Hin. apply filter_In in Hin. destruct Hin as [Hin _].
  eapply Hok; eauto.
Qed.

Lemma ops_awaitOk allow w w' :
  allow TAwait = false -> Ops allow w w' -> awaitOk w -> awaitOk w'.
Proof.
  intros Ha H. apply (ops_preserve awaitOk H).
  intros t w1 w2 Ht Hop. eapply op_awaitOk; [|exact Hop].
  intros ->. congruence.
Qed.

Lemma ops_awaiting allow w w' :
  allow TAwait = false -> allow TUnawait = false ->
  Ops allow w w' -> awaiting w' = awaiting w.
Proof.
  intros Ha Hu H. induction H as [|t w2 w3 H IH Ht Hop]; [reflexivity|].
  rewrite <- IH. eapply op_awaiting; [| |exact Hop]; intros ->; congruence.
Qed.

Lemma ops_cfgOk allow w w' : Ops allow w w' -> cfgOk w -> cfgOk w'.
Proof. apply ops_preserve_all. exact op_cfgOk. Qed.

Lemma serialJobs_later names w :
  cfgOk w -> ~ In VersionCheck names -> Ops armTag w (serialJobs names w).
Proof.
  intros Hc Hn. apply serialJobs_later_ops. intros nm Hin. rewrite Hc.
  apply ReportActions_eqb_neq. intros ->. contradiction.
Qed.

Lemma fold_serialJobs_later (l : list (nat * list ReportActions)) w :
  cfgOk w -> (forall a, In a l -> ~ In VersionCheck (snd a)) ->
  Ops armTag w (fold_left (fun w a => serialJobs (snd a) w) l w).
Proof.
  revert w. induction l as [|a l IH]; intros w Hc Hl; simpl;
    [apply ops_nil|].
  assert (A : Ops armTag w (serialJobs (snd a) w))
    by (apply serialJobs_later; [exact Hc|apply Hl; left; reflexivity]).
  eapply ops_trans; [exact A|]. apply IH.
  - exact (ops_cfgOk A Hc).
  - intros b Hb. apply Hl. right. exact Hb.
Qed.

Lemma resume_later x w : cfgOk w -> awaitOk w -> Ops resumeTags w (resume x w).
Proof.
  intros Hc Ha. unfold resume.
  eapply ops_trans; [eapply ops_op; [apply (op_unawait x)|reflexivity]|].
  widen (apply fold_serialJobs_later).
  - intro job. apply Hc.
  - intros [x' rest] Hin. apply filter_In in Hin. destruct Hin as [Hin _].
    simpl. eapply Ha; eauto.
Qed.

Lemma finish_later r x name k w :
  findRequest r (requests w) = Some (KJob x name k) ->
  Ops laterTags w (finish name (dropRequest r w)).
Proof.
  intro Hf. unfold finish. simpl.
  destruct (jobRuntime (this w) name) eqn:Hr.
  - eapply ops_trans; [|widen (apply _runJobLater_ops)].
    eapply ops_op; [eapply op_complete; [exact Hf|congruence]|reflexivity].
  - eapply ops_op; [apply op_drop|reflexivity].
Qed.

Lemma bodySettled_later r x name k w :
  cfgOk w -> awaitOk w ->
  findRequest r (requests w) = Some (KJob x name k) ->
  Ops laterTags w (bodySettled r x name w).
Proof.
  intros Hc Ha Hf. unfold bodySettled.
  pose proof (@finish_later r x name k w Hf) as A.
  eapply ops_trans; [exact A|]. widen (apply resume_later).
  - exact (ops_cfgOk A Hc).
  - exact (ops_awaitOk (allow := laterTags) eq_refl A Ha).
Qed.

Lemma httpSettles_later r o w :
  cfgOk w -> awaitOk w -> Ops laterTags w (httpSettles r o w).
Proof.
  intros Hc Ha. unfold httpSettles.
  destruct (findRequest r (requests w)) as [[x name body|]|] eqn:Hf;
    [| eapply ops_op; [apply op_drop|reflexivity] | apply ops_nil].
  destruct o as [|data]; [eapply bodySettled_later; eauto|].
  destruct body as [|[|next rest]|];
    try (eapply bodySettled_later; eauto; fail).
  - destruct data; [|eapply bodySettled_later; eauto].
    pose proof (op_activate items w) as A.
    eapply ops_trans; [eapply ops_op; [exact A|reflexivity]|].
    eapply bodySettled_later.
    + exact (op_cfgOk A Hc).
    + exact (op_awaitOk (t := TActivate) ltac:(discriminate) A Ha).
    + unfold _activateNewVersionInfo.
      rewrite fold_trigger_requests. simpl. exact Hf.
  - eapply ops_op; [now apply op_next|reflexivity].
Qed.

Lemma init_awaitOk w : cfgOk w -> awaitOk w -> awaitOk (init w).
Proof.
  intros Hc Ha. unfold init.
  destruct (_schedule_frame w) as (_ & _ & _ & _ & _ & _ & _ & Aw & _).
  assert (Hc1 : cfgOk (_schedule w)) by now apply _schedule_cfgOk.
  assert (Ha1 : awaitOk (_schedule w))
    by (intros x rest; rewrite Aw; apply Ha).
  revert Hc1 Ha1. generalize (_schedule w). clear. intros w Hc Ha.
  unfold allJobs. simpl. rewrite (Hc VersionCheck). simpl.
  pose proof (_runJob_ops VersionCheck true w) as K.
  destruct (_runJob VersionCheck true w) as [w1 res].
  assert (Ha1 : awaitOk (completion (w1, res)))
    by exact (ops_awaitOk (allow := runTags) eq_refl K Ha).
  assert (Hc1 : cfgOk (completion (w1, res))) by exact (ops_cfgOk K Hc).
  assert (L : awaitOk
                (serialJobs [ReportError; ReportCounters; ReportMetrics]
                   (completion (w1, res)))).
  { eapply (ops_awaitOk (allow := armTag) eq_refl); [|exact Ha1].
    apply serialJobs_later; [exact Hc1|].
    simpl. intros [|[|[|[]]]]; discriminate. }
  destruct res; simpl in Ha1, Hc1, L; try exact L.
  intros x' rest Hin. simpl in Hin. apply in_app_or in Hin.
  destruct Hin as [Hin|[[= _ <-]|[]]]; [eapply Ha1; eauto|].
  simpl. intros [|[|[|[]]]]; discriminate.
Qed.

Lemma step_awaitOk ev w :
  timerInv w -> cfgOk w -> awaitOk w -> awaitOk (step ev w).
Proof.
  intros Ht Hc Ha. unfold step.
  apply (op_awaitOk (t := TMicrotasks) ltac:(discriminate)
           (op_microtasks _)).
  destruct ev; simpl.
  - now apply init_awaitOk.
  - exact (op_awaitOk (t := TClose) ltac:(discriminate) (op_close w) Ha).
  - exact (ops_awaitOk (allow := acceptTags) eq_refl
             (acceptError_ops error w) Ha).
  - exact (op_awaitOk (t := TCounters) ltac:(discriminate)
             (op_counters value w) Ha).
  - exact (op_awaitOk (t := TMetrics) ltac:(discriminate)
             (op_metrics value w) Ha).
  - exact (op_awaitOk (t := TFeedback) ltac:(discriminate)
             (op_feedback data w) Ha).
  - exact (op_awaitOk (t := TListen) ltac:(discriminate)
             (op_listen cb w) Ha).
  - exact (ops_awaitOk (allow := fireTags) eq_refl (timerFires_ops h Ht) Ha).
  - exact (ops_awaitOk (allow := laterTags) eq_refl
             (@httpSettles_later r outcome w Hc Ha) Ha).
Qed.

(** ** The hook before a timer *)

Lemma hooksOk_cons e tr : hookFree e = true -> hooksOk (e :: tr) = hooksOk tr.
Proof. destruct e as [| | | ? [] ?| | | |]; simpl; congruence. Qed.

Lemma hooksOk_app added tr :
  forallb hookFree added = true -> hooksOk (added ++ tr) = hooksOk tr.
Proof.
  induction added as [|e l IH]; intro H; [reflexivity|].
  simpl in H. apply andb_prop in H. destruct H as [He Hl].
  rewrite <- app_comm_cons, hooksOk_cons; auto.
Qed.

Lemma hooksOk_frame added w w' :
  trace w' = added ++ trace w -> forallb hookFree added = true ->
  hooksOk (trace w) = true -> hooksOk (trace w') = true.
Proof. intros -> H. now rewrite hooksOk_app. Qed.

Lemma execute_trace nm job w :
  exists added,
    trace (fst (fst (execute nm job w))) = added ++ trace w /\
    forallb hookFree added = true.
Proof.
  unfold execute, callJob, _checkVersion, _reportError, _reportCounters,
    _reportMetrics, serialRequests. simpl.
  destruct (JobInfo.cb job); simpl; break; simpl;
    match goal with
    | |- exists added, ?a :: ?b :: ?c :: ?t = _ /\ _ => exists [a; b; c]
    | |- exists added, ?a :: ?b :: ?t = _ /\ _ => exists [a; b]
    | |- exists added, ?a :: ?t = _ /\ _ => exists [a]
    end; split; reflexivity.
Qed.

Lemma op_hooksOk t w w' :
  Op t w w' -> jobsOk w -> hooksOk (trace w) = true ->
  hooksOk (trace w') = true.
Proof.
  intros H Hj Hok. destruct H;
    try (apply hooksOk_frame with (added := []) (w := w); auto;
         reflexivity).
  - apply hooksOk_frame with (added := [ErrorAccepted (_getErrorString error)])
      (w := w); auto.
  - unfold _stopScheduledJob, clearTimeout.
    destruct (timers (this w) nm) as [h|]; [|auto].
    apply hooksOk_frame with (added := [ClearTimeout h]) (w := w); auto.
  - destruct (Hj _ _ H1) as (_ & _ & Hp).
    unfold armTimer, setTimeout, callPreSchedule.
    destruct (timers (this w) nm); [auto|]. rewrite Hp.
    destruct nm; simpl; auto.
  - destruct (execute_trace nm job w) as (added & A & B).
    now apply hooksOk_frame with (added := added) (w := w).
  - destruct (execute_trace nm job w) as (added & A & B).
    now apply hooksOk_frame with (added := added) (w := w).
  - eapply hooksOk_frame with (w := w) (added := [_]);
      [reflexivity|reflexivity|auto].
  - destruct (fold_trigger_gen (_notificationsChangeListeners
                (this (onThis (setVersionCheckResult items) w)))
                (onThis (setVersionCheckResult items) w))
      as (_ & _ & _ & _ & _ & F & _).
    apply hooksOk_frame with (added := []) (w := w); auto.
  - destruct (close_frame w) as (_ & _ & _ & added & D & E).
    apply hooksOk_frame with (added := added) (w := w); auto.
    revert E. apply forallb_impl. intros []; simpl; congruence.
  - unfold reportFeedback. destruct (negb _); [auto|].
    eapply hooksOk_frame with (w := w) (added := [_]);
      [reflexivity|reflexivity|auto].
  - destruct (runMicrotasks_trace_gen (microtasks w) (setMicrotasks [] w))
      as (_ & _ & _ & _ & _ & _ & G).
    eapply hooksOk_frame with (w := w); [| |exact Hok].
    + unfold runMicrotasks. rewrite G. reflexivity.
    + apply forallb_forall. intros e He. apply in_rev, in_map_iff in He.
      destruct He as (cb & <- & _). reflexivity.
Qed.

Lemma step_grounded ev w : timerInv w -> grounded w -> grounded (step ev w).
Proof.
  intros Ht (Hj & Hc & Hr & Ha & Hh).
  assert (Hj0 : jobsOk (scheduled ev w))
    by (destruct ev; simpl; auto using _schedule_jobsOk).
  assert (Hh0 : hooksOk (trace (scheduled ev w)) = true).
  { destruct ev; simpl; auto.
    destruct (_schedule_frame w) as (_ & _ & _ & A & _). now rewrite A. }
  split; [exact (ops_preserve_all _ op_jobsOk (step_ops ev Ht) Hj0)|].
  split.
  { apply (ops_preserve_all _ op_cfgOk (step_ops ev Ht)).
    destruct ev; simpl; auto using _schedule_cfgOk. }
  split.
  { apply (ops_preserve_all _ op_requestsOk (step_ops ev Ht)).
    destruct ev; simpl; auto using _schedule_requestsOk. }
  split; [now apply step_awaitOk|].
  apply (ops_preserve_all
           (fun w => jobsOk w /\ hooksOk (trace w) = true)
           (fun t w w' (H : Op t w w') K =>
              conj (op_jobsOk H (proj1 K))
                   (op_hooksOk H (proj1 K) (proj2 K)))
           (step_ops ev Ht)).
  split; assumption.
Qed.

Lemma boot_grounded penv n v : grounded (boot penv n v).
Proof.
  split; [intros job info H; simpl in H; discriminate|].
  split; [apply boot_cfgOk|].
  split; [intros r x job k []|].
  split; [intros x rest []|reflexivity].
Qed.

Lemma run_grounded evs w :
  sound w -> grounded w -> sound (run evs w) /\ grounded (run evs w).
Proof.
  revert w. induction evs as [|ev evs IH]; intros w Hs Hg; simpl; [auto|].
  apply IH; [now apply step_sound|]. apply step_grounded; [apply Hs|exact Hg].
Qed.

Lemma reachable_facts penv n v evs :
  sound (run evs (boot penv n v)) /\ grounded (run evs (boot penv n v)).
Proof. apply run_grounded; [apply boot_sound|apply boot_grounded]. Qed.

(** ** The first error *)

Lemma recordError_keeps error w :
  let w' := recordError error w in
  closed (this w') = closed (this w) /\
  jobConfigs (this w') = jobConfigs (this w) /\
  jobs (this w') = jobs (this w) /\
  jobRuntime (this w') = jobRuntime (this w) /\
  timers (this w') = timers (this w) /\
  isFirstErrorReported (this w') = isFirstErrorReported (this w) /\
  nextTimeout w' = nextTimeout w /\ requests w' = requests w /\
  timeouts w' = timeouts w /\ env w' = env w /\
  trace w' = ErrorAccepted (_getErrorString error) :: trace w /\
  (JsRecord.inherited (_getErrorString error) = false ->
   errors (this w') <> []).
Proof.
  unfold recordError. simpl.
  destruct (JsRecord.get (_getErrorString error) (errors (this w))); simpl;
    [|destruct (JsRecord.inherited (_getErrorString error)); simpl];
    repeat split; auto; try discriminate; intros _;
    destruct (errors (this w)) as [|[k i] m]; simpl; try discriminate;
    destruct (String.eqb _ k); discriminate.
Qed.

(** An immediate run of the idle error job with errors pending: the timer
    is cancelled, the body starts, takes the batch and posts its first
    payload. *)
Lemma flush_starts job w :
  closed (this w) = false ->
  JobConfig.enabled (jobConfigs (this w) ReportError) = true ->
  jobs (this w) ReportError = Some job ->
  JobInfo.cb job = ReportErrors ->
  jobRuntime (this w) ReportError = Some (JobRuntime.make false) ->
  errors (this w) <> [] ->
  let w' := fst (_runJob ReportError true w) in
  exists first rest,
    buildPayloads (this w) = first :: rest /\
    trace w'
    = HttpPost (requestUrl (env w) "report/error") first
        :: BatchSnapshot :: BodyStart ReportError :: cleared w ++ trace w /\
    requests w'
    = requests w
      ++ [(nextRequest w,
           KJob (nextExecution w) ReportError (ThenSerial rest))] /\
    isFirstErrorReported (this w') = isFirstErrorReported (this w) /\
    timers (this w') ReportError = None /\
    isRunning ReportError w' = true /\
    errors (this w') = [] /\
    (snd (_runJob ReportError true w) = RAwait (nextExecution w) /\
     microtasks w' = microtasks w).
Proof.
  intros Hc He Hj Hcb Hr Hne. unfold _runJob. rewrite Hc, He, Hj. simpl.
  unfold buildPayloads, cleared, isRunning.
  destruct (errors (this w)) as [|[k i] m] eqn:Em; [contradiction|].
  unfold _stopScheduledJob.
  destruct (timers (this w) ReportError) as [h|] eqn:Et; simpl;
    unfold handler; simpl; rewrite Hr; simpl;
    unfold execute, callJob; rewrite Hcb; unfold _reportError; simpl;
    rewrite Em; simpl; unfold buildPayloads; simpl; rewrite Em; simpl;
    eexists; eexists; repeat split; auto.
Qed.

(** An immediate run of the idle error job with nothing pending: the body
    starts and returns at once, and [_runJob] returns with the flag up and
    no timer; the rest of the chain is still to come. *)
Lemma flush_empty_returns job w :
  closed (this w) = false ->
  JobConfig.enabled (jobConfigs (this w) ReportError) = true ->
  jobs (this w) ReportError = Some job ->
  JobInfo.cb job = ReportErrors ->
  jobRuntime (this w) ReportError = Some (JobRuntime.make false) ->
  errors (this w) = [] ->
  let w' := fst (_runJob ReportError true w) in
  snd (_runJob ReportError true w) = RCompleting ReportError /\
  trace w' = BodyStart ReportError :: cleared w ++ trace w /\
  requests w' = requests w /\
  isFirstErrorReported (this w') = isFirstErrorReported (this w) /\
  timers (this w') ReportError = None /\
  isRunning ReportError w' = true /\
  errors (this w') = [].
Proof.
  intros Hc He Hj Hcb Hr Hne. unfold _runJob. rewrite Hc, He, Hj. simpl.
  unfold cleared, isRunning, _stopScheduledJob.
  destruct (timers (this w) ReportError) as [h|] eqn:Et; simpl;
    unfold handler; simpl; rewrite Hr; simpl;
    unfold execute, callJob; rewrite Hcb; unfold _reportError; simpl;
    rewrite Hne; simpl; rewrite ?upd_same; repeat split; auto.
Qed.

(** The same run with the promise jobs of its chain: the job is armed
    again, and the hook takes the latch back. *)
Lemma flush_empty job w :
  closed (this w) = false ->
  JobConfig.enabled (jobConfigs (this w) ReportError) = true ->
  jobs (this w) ReportError = Some job ->
  JobInfo.cb job = ReportErrors ->
  JobInfo.preScheduleCb job = Some ResetFirstError ->
  jobRuntime (this w) ReportError = Some (JobRuntime.make false) ->
  errors (this w) = [] ->
  let w' := completion (_runJob ReportError true w) in
  trace w'
  = SetTimeout (nextTimeout w) ReportError (JobInfo.seconds job * 1000)
      :: PreSchedule ReportError :: BodyStart ReportError
      :: cleared w ++ trace w /\
  requests w' = requests w /\
  isFirstErrorReported (this w') = false /\
  timers (this w') ReportError = Some (nextTimeout w) /\
  isRunning ReportError w' = false /\
  errors (this w') = [] /\
  microtasks w' = microtasks w.
Proof.
  intros Hc He Hj Hcb Hp Hr Hne. unfold _runJob. rewrite Hc, He, Hj. simpl.
  unfold cleared, isRunning, _stopScheduledJob.
  destruct (timers (this w) ReportError) as [h|] eqn:Et; simpl;
    unfold handler; simpl; rewrite Hr; simpl;
    unfold execute, callJob; rewrite Hcb; unfold _reportError; simpl;
    rewrite Hne; simpl; unfold finish; simpl;
    unfold _runJobLater; simpl; rewrite Hc, He, Hj; simpl;
    unfold armTimer; simpl; rewrite ?upd_same, ?Et, Hp; simpl;
    rewrite ?upd_same; repeat split; auto.
Qed.

(** What the same run of [acceptError] leaves alone and what it arms. *)
Lemma flush_empty_frame job w :
  closed (this w) = false ->
  JobConfig.enabled (jobConfigs (this w) ReportError) = true ->
  jobs (this w) ReportError = Some job ->
  JobInfo.cb job = ReportErrors ->
  JobInfo.preScheduleCb job = Some ResetFirstError ->
  jobRuntime (this w) ReportError = Some (JobRuntime.make false) ->
  errors (this w) = [] ->
  let w' := completion (_runJob ReportError true w) in
  jobs (this w') = jobs (this w) /\
  jobConfigs (this w') = jobConfigs (this w) /\
  In (Timeout.make (nextTimeout w) ReportError job) (timeouts w').
Proof.
  intros Hc He Hj Hcb Hp Hr Hne. unfold _runJob. rewrite Hc, He, Hj. simpl.
  unfold _stopScheduledJob.
  destruct (timers (this w) ReportError) as [h|] eqn:Et; simpl;
    unfold handler; simpl; rewrite Hr; simpl;
    unfold execute, callJob; rewrite Hcb; unfold _reportError; simpl;
    rewrite Hne; simpl; unfold finish; simpl;
    unfold _runJobLater; simpl; rewrite Hc, He, Hj; simpl;
    unfold armTimer; simpl; rewrite ?upd_same, ?Et, Hp; simpl;
    repeat split; auto; apply in_or_app; right; left; reflexivity.
Qed.

(** The timer of the idle error job fires with nothing pending: the body
    starts and returns at once; the callback returns with the running flag
    up and no timer, and the promise jobs of the chain lower the flag, call
    the hook and arm the next timer. *)
Lemma timer_flush_empty cbjob info w :
  JobInfo.cb cbjob = ReportErrors ->
  closed (this w) = false ->
  JobConfig.enabled (jobConfigs (this w) ReportError) = true ->
  jobs (this w) ReportError = Some info ->
  JobInfo.preScheduleCb info = Some ResetFirstError ->
  jobRuntime (this w) ReportError = Some (JobRuntime.make false) ->
  errors (this w) = [] ->
  let p := timerCallback ReportError cbjob w in
  let w' := completion p in
  snd p = RCompleting ReportError /\
  trace (fst p) = BodyStart ReportError :: trace w /\
  isRunning ReportError (fst p) = true /\
  timers (this (fst p)) ReportError = None /\
  trace w'
  = SetTimeout (nextTimeout w) ReportError (JobInfo.seconds info * 1000)
      :: PreSchedule ReportError :: BodyStart ReportError :: trace w /\
  requests w' = requests w /\
  timers (this w') ReportError = Some (nextTimeout w) /\
  isRunning ReportError w' = false /\
  jobs (this w') = jobs (this w) /\
  jobConfigs (this w') = jobConfigs (this w) /\
  timeouts w' = timeouts w ++ [Timeout.make (nextTimeout w) ReportError info] /\
  microtasks w' = microtasks w.
Proof.
  intros Hcb Hc He Hj Hp Hr Hne.
  unfold timerCallback, handler, isRunning. simpl. rewrite Hr. simpl.
  unfold execute, callJob. rewrite Hcb. unfold _reportError. simpl.
  rewrite Hne. simpl. rewrite ?upd_same.
  unfold finish. simpl. rewrite ?upd_same.
  unfold _runJobLater. simpl. rewrite Hc, He, Hj. simpl.
  unfold armTimer. simpl. rewrite ?upd_same, Hp. simpl. rewrite ?upd_same.
  repeat split; auto.
Qed.

(** An immediate run of the error job while it is running: the timer is
    cancelled and armed anew, and the hook takes the latch back. *)
Lemma flush_deferred job w :
  closed (this w) = false ->
  JobConfig.enabled (jobConfigs (this w) ReportError) = true ->
  jobs (this w) ReportError = Some job ->
  JobInfo.preScheduleCb job = Some ResetFirstError ->
  jobRuntime (this w) ReportError = Some (JobRuntime.make true) ->
  let w' := fst (_runJob ReportError true w) in
  trace w'
  = SetTimeout (nextTimeout w) ReportError (JobInfo.seconds job * 1000)
      :: PreSchedule ReportError :: cleared w ++ trace w /\
  isFirstErrorReported (this w') = false /\
  timers (this w') ReportError = Some (nextTimeout w) /\
  requests w' = requests w /\
  errors (this w') = errors (this w) /\
  jobRuntime (this w') = jobRuntime (this w) /\
  snd (_runJob ReportError true w) = RNull /\
  microtasks w' = microtasks w.
Proof.
  intros Hc He Hj Hp Hr. unfold _runJob. rewrite Hc, He, Hj. simpl.
  unfold cleared, _stopScheduledJob.
  destruct (timers (this w) ReportError) as [h|] eqn:Et; simpl;
    unfold handler; simpl; rewrite Hr; simpl;
    unfold _runJobLater; simpl; rewrite Hc, He, Hj; simpl;
    unfold armTimer; simpl; rewrite ?upd_same, ?Et, Hp; simpl;
    rewrite ?upd_same; repeat split; auto.
Qed.

(** ** The end of a body *)

Lemma keptFor_refl job w : keptFor job w w.
Proof. repeat split; apply incl_refl. Qed.

Lemma keptFor_trans job w1 w2 w3 :
  keptFor job w1 w2 -> keptFor job w2 w3 -> keptFor job w1 w3.
Proof.
  intros (A1 & A2 & A3 & A4 & A5 & A6 & A7 & A8 & A9)
         (B1 & B2 & B3 & B4 & B5 & B6 & B7 & B8 & B9).
  repeat split; try congruence; eapply incl_tran; eauto.
Qed.

Lemma armTimer_keptFor job nm info w :
  (nm = job -> timers (this w) job <> None) ->
  keptFor job w (armTimer nm info w).
Proof.
  intro Hside. unfold armTimer.
  destruct (timers (this w) nm) eqn:Et; [apply keptFor_refl|].
  destruct (ReportActions_eqb nm job) eqn:E.
  - apply ReportActions_eqb_eq in E. subst nm. now destruct (Hside eq_refl).
  - assert (nm <> job) by now apply ReportActions_eqb_neq.
    destruct (JobInfo.preScheduleCb info) as [[]|]; simpl;
      unfold keptFor, armedFor, started; simpl; rewrite !countIf_cons; simpl;
      rewrite E, upd_other by assumption;
      repeat split; auto;
      try (intros e He; simpl; auto; fail);
      apply incl_appl, incl_refl.
Qed.

Lemma op_keptFor job t w1 w2 :
  resumeTags t = true -> Op t w1 w2 ->
  (closed (this w1) = false -> timers (this w1) job <> None) ->
  keptFor job w1 w2.
Proof.
  intros Ht H Hside. destruct H; try discriminate.
  - apply armTimer_keptFor. auto.
  - repeat split; apply incl_refl.
Qed.

Lemma ops_keptFor job w1 w2 :
  Ops resumeTags w1 w2 ->
  (closed (this w1) = false -> timers (this w1) job <> None) ->
  keptFor job w1 w2.
Proof.
  intros H Hside. induction H as [|t w2 w3 H IH Ht Hop];
    [apply keptFor_refl|].
  eapply keptFor_trans; [exact IH|].
  eapply op_keptFor; [exact Ht|exact Hop|].
  destruct IH as (_ & A & _ & _ & B & _). rewrite A, B. exact Hside.
Qed.

Lemma runMicrotasks_keptFor job w : keptFor job w (runMicrotasks w).
Proof.
  destruct (runMicrotasks_trace_gen (microtasks w) (setMicrotasks [] w))
    as (A & _ & C & _ & _ & _ & G).
  unfold runMicrotasks, keptFor, armedFor, started. cbv zeta.
  rewrite A, C, G. simpl.
  rewrite !countIf_inert;
    try apply forallb_inert_listeners;
    try (intros []; simpl; congruence).
  repeat split; auto; try apply incl_refl. apply incl_appr, incl_refl.
Qed.

Lemma rearmed_kept job w wF w' :
  rearmed job w wF -> keptFor job wF w' -> rearmed job w w'.
Proof.
  intros R (_ & A2 & A3 & _ & _ & _ & _ & A8 & A9). unfold rearmed in *.
  destruct (closed (this w)); [congruence|].
  destruct (timers (this w) job).
  - destruct R. split; congruence.
  - destruct R as (info & R1 & R2 & R3 & R4 & R5). exists info.
    repeat split; try congruence; auto.
Qed.

(** The last link of the chain: the flag goes down and the job is armed
    again unless a timer is pending or the client is closed. *)
Lemma finish_rearms r job w :
  registered w -> jobRuntime (this w) job <> None ->
  let wF := finish job (dropRequest r w) in
  isRunning job wF = false /\ started wF = started w /\
  jobs (this wF) = jobs (this w) /\
  jobConfigs (this wF) = jobConfigs (this w) /\
  closed (this wF) = closed (this w) /\
  (closed (this wF) = false -> timers (this wF) job <> None) /\
  rearmed job w wF.
Proof.
  intros Hreg Hr. destruct (Hreg job Hr) as [He Hj].
  destruct (jobs (this w) job) as [info|] eqn:Ej; [|congruence].
  unfold finish, rearmed. simpl.
  destruct (jobRuntime (this w) job) eqn:Er; [|congruence].
  unfold _runJobLater. simpl.
  destruct (closed (this w)) eqn:Hc; simpl.
  { unfold isRunning. simpl. rewrite upd_same. repeat split; auto.
    congruence. }
  rewrite He, Ej. simpl. unfold armTimer. simpl.
  destruct (timers (this w) job) as [h|] eqn:Et; simpl.
  { unfold isRunning. simpl. rewrite upd_same, Et. repeat split; auto.
    discriminate. }
  destruct (JobInfo.preScheduleCb info) as [[]|]; simpl;
    unfold isRunning, started, armedFor; simpl;
    rewrite !upd_same, !countIf_cons; simpl;
    rewrite ?ReportActions_eqb_refl;
    (repeat split; auto; try discriminate);
    exists info; repeat split; auto;
    apply in_or_app; right; left; reflexivity.
Qed.

Lemma bodySettled_rearms r x job k w :
  registered w -> requestsOk w -> cfgOk w -> awaitOk w ->
  findRequest r (requests w) = Some (KJob x job k) ->
  let w' := runMicrotasks (bodySettled r x job w) in
  isRunning job w' = false /\ started w' = started w /\
  jobs (this w') = jobs (this w) /\
  jobConfigs (this w') = jobConfigs (this w) /\
  rearmed job w w'.
Proof.
  intros Hreg Hreq Hc Ha Hf.
  assert (Hr : jobRuntime (this w) job <> None)
    by (eapply Hreq, findRequest_In, Hf).
  pose proof (@finish_rearms r job w Hreg Hr) as F. cbv zeta in F.
  pose proof (@finish_later r x job k w Hf) as A.
  unfold bodySettled. cbv zeta.
  remember (finish job (dropRequest r w)) as wF eqn:EF. clear EF.
  destruct F as (F1 & F2 & F3 & F4 & F5 & F6 & F7).
  assert (K : keptFor job wF (runMicrotasks (resume x wF))).
  { eapply keptFor_trans; [|apply runMicrotasks_keptFor].
    apply ops_keptFor; [|exact F6]. apply resume_later.
    - exact (ops_cfgOk A Hc).
    - exact (ops_awaitOk (allow := laterTags) eq_refl A Ha). }
  pose proof (@rearmed_kept job w wF _ F7 K) as R.
  destruct K as (K1 & K2 & K3 & K4 & K5 & K6 & K7 & _).
  unfold isRunning in *. rewrite K1.
  repeat split; try congruence.
Qed.

Lemma httpSettles_ends r x job k outcome w :
  findRequest r (requests w) = Some (KJob x job k) ->
  endsBody k outcome = true ->
  httpSettles r outcome w = bodySettled r x job w \/
  exists items,
    k = ThenActivate /\
    httpSettles r outcome w
    = bodySettled r x job (_activateNewVersionInfo items w).
Proof.
  intros Hf He. unfold httpSettles. rewrite Hf.
  destruct outcome as [|[items|]]; [auto| |];
    destruct k as [|[|next rest]|]; simpl in He; try discriminate; eauto.
Qed.

Lemma fold_trigger_nextTimeout (l : list Listener) w :
  nextTimeout (fold_left (fun w cb => _trigger cb w) l w) = nextTimeout w.
Proof.
  revert w. induction l as [|a l IH]; intro w; simpl; [reflexivity|].
  now rewrite IH.
Qed.

Lemma rearmed_from job w wA w' :
  closed (this wA) = closed (this w) -> timers (this wA) = timers (this w) ->
  jobs (this wA) = jobs (this w) -> nextTimeout wA = nextTimeout w ->
  trace wA = trace w ->
  rearmed job wA w' -> rearmed job w w'.
Proof.
  unfold rearmed, armedFor. intros -> -> -> -> ->. auto.
Qed.

(** ** The timer book *)

Lemma close_nextTimeout (names : list ReportActions) w :
  nextTimeout
    (fold_left
       (fun w name =>
          match timers (this w) name with
          | Some timer => clearTimeout timer w
          | None => w
          end) names w)
  = nextTimeout w.
Proof.
  revert w. induction names as [|nm rest IH]; intro w; simpl; [reflexivity|].
  rewrite IH. destruct (timers (this w) nm); reflexivity.
Qed.

Lemma fold_listener_nextTimeout (l : list Listener) w :
  nextTimeout
    (fold_left
       (fun w cb => emit (ListenerCall cb (_versionCheckResult (this w))) w)
       l w)
  = nextTimeout w.
Proof.
  revert w. induction l as [|a l IH]; intro w; simpl; [reflexivity|].
  now rewrite IH.
Qed.

Lemma op_timers t w w' : Op t w w' -> TimerChange w w'.
Proof.
  intro H. destruct H;
    try (apply tc_keep; blocks; simpl; break; reflexivity).
  - (* stop *)
    unfold _stopScheduledJob.
    destruct (timers (this w) nm) as [h|] eqn:E; [|now apply tc_keep].
    apply tc_cancel with (nm := nm) (h := h); auto.
  - (* arm *)
    unfold armTimer.
    destruct (timers (this w) nm) as [h|] eqn:E; [now apply tc_keep|].
    apply tc_arm with (nm := nm) (job := job); auto;
      destruct (JobInfo.preScheduleCb job) as [[]|]; reflexivity.
  - (* execute *)
    destruct (execute_keepsTimers nm job w) as (A & B & _).
    destruct (execute_frame nm job w)
      as (_ & _ & _ & _ & _ & _ & _ & _ & _ & _ & _ & _ & _ & _ & C).
    now apply tc_keep.
  - (* execute, returned *)
    destruct (execute_keepsTimers nm job w) as (A & B & _).
    destruct (execute_frame nm job w)
      as (_ & _ & _ & _ & _ & _ & _ & _ & _ & _ & _ & _ & _ & _ & C).
    now apply tc_keep.
  - (* activate *)
    destruct (_activateNewVersionInfo_keepsTimers items w) as (A & B & _).
    apply tc_keep; auto. unfold _activateNewVersionInfo. cbv zeta.
    now rewrite fold_trigger_nextTimeout.
  - (* fire *)
    destruct (findTimeout_In _ _ H) as [Hin Hh].
    apply tc_cancel with (nm := Timeout.name t) (h := h); auto.
    right. now exists t.
  - (* close *)
    unfold close.
    match goal with |- context [fold_left ?f allJobs ?W] =>
      pose proof (close_clears allJobs W) as K;
      pose proof (close_nextTimeout allJobs W) as N;
      cbv zeta in K; destruct K as [K1 K2];
      remember (fold_left f allJobs W) as F eqn:EF end.
    clear EF. apply tc_close; simpl in *; auto.
    intros t Hin. destruct (K2 t Hin) as [A B]. split; [exact A|].
    intro nm. apply B. destruct nm; simpl; auto.
  - (* microtasks *)
    destruct (runMicrotasks_keepsTimers w) as (A & B & _).
    apply tc_keep; auto. unfold runMicrotasks.
    now rewrite fold_listener_nextTimeout.
Qed.

Lemma handle_inj (l : list Timeout.t) t t' :
  NoDup (map Timeout.handle l) -> In t l -> In t' l ->
  Timeout.handle t = Timeout.handle t' -> t = t'.
Proof.
  induction l as [|a l IH]; simpl; intros Hn Ht Ht' E; [contradiction|].
  inversion Hn as [|? ? Hnotin Hn']; subst.
  destruct Ht as [->|Ht], Ht' as [->|Ht']; auto.
  - exfalso. apply Hnotin. rewrite E. now apply in_map.
  - exfalso. apply Hnotin. rewrite <- E. now apply in_map.
Qed.

(** The runtime retires a timeout, and the client a request, by its number:
    the filter looks at the key alone, so it commutes with the projection
    ([filter_map_swap]) and the keys stay distinct ([NoDup_filter]). *)
Ltac retired_by_key :=
  match goal with
  | |- NoDup (map ?key (filter _ ?l)) =>
      match goal with
      | |- context [Nat.eqb _ ?h] =>
          let E := fresh "E" in
          pose proof (filter_map_swap (fun k => negb (Nat.eqb k h)) key l)
            as E;
          cbv beta in E; rewrite <- E; apply NoDup_filter
      end
  end.

Lemma NoDup_snoc {A} (l : list A) a :
  NoDup l -> ~ In a l -> NoDup (l ++ [a]).
Proof.
  induction l as [|b l IH]; simpl; intros Hn Hin.
  - constructor; [tauto|constructor].
  - inversion Hn as [|? ? Hnotin Hn']; subst. constructor.
    + intro H. apply in_app_or in H. destruct H as [H|[H|[]]]; [tauto|].
      subst. tauto.
    + apply IH; tauto.
Qed.

Lemma change_timerBook w w' :
  TimerChange w w' -> jobsOk w -> timerBook w -> timerBook w'.
Proof.
  intros H Hj (T & L & (F1 & F2) & O).
  destruct H as [A B C|nm job Hn Hjob A B C|nm h Hc A B C|A B C].
  - unfold timerBook, timersTracked, timersLive, handlesFresh, timeoutsOk.
    rewrite A, B, C. auto.
  - assert (Hnew : forall t, In t (timeouts w) -> Timeout.name t <> nm).
    { intros t Hin E. apply T in Hin. rewrite E in Hin. congruence. }
    repeat split.
    + intros t Hin. rewrite A, B in *. apply in_app_or in Hin.
      destruct Hin as [Hin|[<-|[]]].
      * rewrite upd_other by (intro E; apply (Hnew t Hin); auto). now apply T.
      * simpl. apply upd_same.
    + intros nm' h Hs. rewrite A in Hs. rewrite B. unfold upd in Hs.
      destruct (ReportActions_eqb nm nm') eqn:E.
      * apply ReportActions_eqb_eq in E. subst nm'. injection Hs as <-.
        exists (Timeout.make (nextTimeout w) nm job).
        split; [apply in_or_app; right; left; reflexivity|auto].
      * destruct (L nm' h Hs) as (t & Hin & Hname & Hh).
        exists t. split; [apply in_or_app; auto|auto].
    + intros t Hin. rewrite B in Hin. rewrite C. apply in_app_or in Hin.
      destruct Hin as [Hin|[<-|[]]]; [apply F1 in Hin; lia|simpl; lia].
    + rewrite B, map_app. simpl. apply NoDup_snoc; [exact F2|].
      intro Hin. apply in_map_iff in Hin.
      destruct Hin as (t & E & Hin). apply F1 in Hin. lia.
    + rewrite B in H. apply in_app_or in H.
      destruct H as [Hin|[<-|[]]]; [now apply O|]. simpl.
      now destruct (Hj _ _ Hjob) as (_ & X & _).
    + rewrite B in H. apply in_app_or in H.
      destruct H as [Hin|[<-|[]]]; [now apply O|]. simpl.
      now destruct (Hj _ _ Hjob) as (_ & _ & X).
  - assert (Hh : exists t0,
               In t0 (timeouts w) /\ Timeout.name t0 = nm /\
               Timeout.handle t0 = h).
    { destruct Hc as [Hc|(t0 & Hf & Hnm)]; [now apply L|].
      apply findTimeout_In in Hf. exists t0. tauto. }
    destruct Hh as (t0 & Hin0 & Hn0 & Hh0).
    repeat split.
    + intros t Hin. rewrite A, B in *. apply in_filter_handle in Hin.
      destruct Hin as [Hin Hne].
      rewrite upd_other; [now apply T|].
      intro E. apply Hne.
      pose proof (T t Hin) as X. pose proof (T t0 Hin0) as Y. congruence.
    + intros nm' h' Hs. rewrite A in Hs. rewrite B. unfold upd in Hs.
      destruct (ReportActions_eqb nm nm') eqn:E; [discriminate|].
      apply ReportActions_eqb_neq in E.
      destruct (L nm' h' Hs) as (t & Hin & Hname & Hh).
      exists t. split; [|auto]. apply filter_In. split; [exact Hin|].
      apply negb_true_iff, Nat.eqb_neq. intro X.
      assert (t = t0)
        by (apply (@handle_inj (timeouts w)); auto; congruence).
      subst t. congruence.
    + intros t Hin. rewrite B in Hin. rewrite C.
      apply in_filter_handle in Hin. now apply F1.
    + rewrite B. retired_by_key. assumption.
    + rewrite B in H. apply in_filter_handle in H. now apply O.
    + rewrite B in H. apply in_filter_handle in H. now apply O.
  - assert (E : timeouts w' = []).
    { destruct (timeouts w') as [|t l]; [reflexivity|].
      destruct (B t (or_introl eq_refl)) as [Hin Hno].
      destruct (Hno (Timeout.name t)). now apply T. }
    unfold timerBook, timersTracked, timersLive, handlesFresh, timeoutsOk.
    rewrite E. simpl. repeat split; try contradiction; try constructor.
    intros nm h Hs. rewrite A in Hs. discriminate.
Qed.

Lemma _register_nextTimeout nm cb pre w :
  nextTimeout (_register nm cb pre w) = nextTimeout w.
Proof. unfold _register. break; reflexivity. Qed.

Lemma _schedule_timerBook w : timerBook w -> timerBook (_schedule w).
Proof.
  destruct (_schedule_frame w) as (_ & A & _ & _ & _ & _ & _ & _ & _ & B).
  assert (C : nextTimeout (_schedule w) = nextTimeout w)
    by (unfold _schedule; now rewrite !_register_nextTimeout).
  unfold timerBook, timersTracked, timersLive, handlesFresh, timeoutsOk.
  rewrite A, B, C. auto.
Qed.

Lemma step_timerBook ev w :
  timerInv w -> jobsOk w -> timerBook w -> timerBook (step ev w).
Proof.
  intros Ht Hj Hb.
  apply (ops_preserve_all
           (fun w => jobsOk w /\ timerBook w)
           (fun t w w' (H : Op t w w') K =>
              conj (op_jobsOk H (proj1 K))
                   (change_timerBook (op_timers H) (proj1 K) (proj2 K)))
           (step_ops ev Ht)).
  destruct ev; simpl; auto using _schedule_jobsOk, _schedule_timerBook.
Qed.

Lemma boot_timerBook penv n v : timerBook (boot penv n v).
Proof.
  split; [intros t []|]. split; [intros nm h H; discriminate|].
  split; [split; [intros t []|constructor]|intros t []].
Qed.

Lemma run_timerBook evs w :
  sound w -> grounded w -> timerBook w -> timerBook (run evs w).
Proof.
  revert w. induction evs as [|ev evs IH]; intros w Hs Hg Hb; simpl; [auto|].
  apply IH.
  - now apply step_sound.
  - apply step_grounded; [apply Hs|exact Hg].
  - apply step_timerBook; [apply Hs|apply Hg|exact Hb].
Qed.

Lemma reachable_timerBook penv n v evs : timerBook (run evs (boot penv n v)).
Proof.
  apply run_timerBook;
    [apply boot_sound|apply boot_grounded|apply boot_timerBook].
Qed.

(** * The claims *)

(** ** Scheduler *)

(** C1. At most one execution of a job's body is in flight at any time.
    When a timer of the job fires, or an immediate run of it reaches the
    handler (the client is open), while the job is running, no body is
    started and nothing is queued: the trigger becomes a fresh timer for the
    job's interval. *)
Theorem one_execution_per_job env n v evs job
  (Honce : initCount evs <= 1) :
  let w := run evs (boot env n v) in
  inflight job w <= 1 /\
  (isRunning job w = true ->
   (forall h t,
      findTimeout h (timeouts w) = Some t -> Timeout.name t = job ->
      rearmedInstead job w (timerFires h w)) /\
   (closed (this w) = false ->
    rearmedInstead job w (fst (_runJob job true w)) /\
    snd (_runJob job true w) = RNull)).
Proof.
  intro w.
  assert (Hs : sound w) by apply run_sound, boot_sound.
  split.
  - apply (run_preInit evs (boot_timerInv env n v) (boot_preInit env n v) Honce).
  - intro Hrun. split.
    + intros h t Hf <-. now apply timerFires_running.
    + intro Hc. now apply _runJob_running.
Qed.

Lemma one_execution_per_job_witness :
  inflight ReportError flushInFlight <= 1 /\
  (isRunning ReportError flushInFlight = true ->
   (forall h t,
      findTimeout h (timeouts flushInFlight) = Some t ->
      Timeout.name t = ReportError ->
      rearmedInstead ReportError flushInFlight (timerFires h flushInFlight)) /\
   (closed (this flushInFlight) = false ->
    rearmedInstead ReportError flushInFlight
      (fst (_runJob ReportError true flushInFlight)) /\
    snd (_runJob ReportError true flushInFlight) = RNull)).
Proof.
  apply (@one_execution_per_job sampleEnv "proc" "1.0"
           [Init; HttpSettles 0 (HttpOk (Notifications []));
            AcceptError (errorOf "a"); AcceptError (errorOf "b");
            AcceptError (errorOf "c"); HttpSettles 1 ok; TimerFires 4]
           ReportError).
  simpl. lia.
Defined.

(** C3, as the code has it.  After [close()] no timeout is live, no body is
    ever started and no timer armed, whatever happens next; nothing more is
    sent for the version, counters and metrics jobs, and for the error job
    at most the payloads that a flush in flight at [close()] had still
    queued. *)
Theorem close_stops_the_scheduler env n v before after :
  let w0 := step Close (run before (boot env n v)) in
  let w := run after w0 in
  closed (this w) = true /\
  timeouts w = [] /\
  started w = started w0 /\
  armed w = armed w0 /\
  posted "report/version" w = posted "report/version" w0 /\
  posted "report/counters" w = posted "report/counters" w0 /\
  posted "report/metrics" w = posted "report/metrics" w0 /\
  posted "report/error" w + queued w <= posted "report/error" w0 + queued w0.
Proof.
  intros w0 w.
  assert (Ht : timerInv (run before (boot env n v)))
    by apply run_timerInv, boot_timerInv.
  assert (Hd : dormant w0) by now apply step_close_dormant.
  assert (Ht0 : timerInv w0) by now apply step_timerInv.
  destruct (run_quiet after Ht0 Hd) as ((A & B) & C & D & E & F & G & H & I).
  destruct (run_sameSetup after Ht0) as (_ & _ & _ & _ & _ & _ & K).
  fold w in A, B, C, D, E, F, G, H, I, K.
  repeat split; auto.
  apply K. unfold w0, step. simpl.
  destruct (runMicrotasks_keepsTimers
              (close (run before (boot env n v)))) as (_ & _ & ->).
  apply close_closed.
Qed.

(** C3 as stated fails: the client is closed while a flush of two errors
    is in flight; when the request for the first settles, the request for
    the second is sent. *)
Lemma close_does_not_stop_a_flush_in_flight :
  let w0 := step Close flushInFlight in
  let w := step (HttpSettles 2 ok) w0 in
  closed (this w0) = true /\
  trace w
  = HttpPost "http://collector/report/error"
      [("id", JStr "abc"); ("process", JStr "proc"); ("version", JStr "1.0");
       ("error", JStr "c"); ("count", JNum 1)]
    :: trace w0.
Proof. vm_compute. split; reflexivity. Qed.

(** C4: the jobs of a client without identity or base address.  No body is
    ever started, no timer armed and no request of the four jobs sent. *)
Theorem unconfigured_client_runs_no_job env n v evs :
  truthy (JsRecord.get "WORLDVIOUS_ID" env) = false \/
  truthy (JsRecord.get "WORLDVIOUS_URL" env) = false ->
  let w := run evs (boot env n v) in
  (forall job, JobConfig.enabled (jobConfigs (this w) job) = false) /\
  started w = 0 /\ armed w = 0 /\
  posted "report/version" w = 0 /\ posted "report/counters" w = 0 /\
  posted "report/metrics" w = 0 /\ posted "report/error" w = 0.
Proof.
  intros Hmiss w.
  assert (He : forall job,
             JobConfig.enabled (jobConfigs (this (boot env n v)) job) = false).
  { intro job. simpl.
    destruct Hmiss as [-> | ->]; simpl;
      [|destruct (truthy (JsRecord.get "WORLDVIOUS_ID" env))]; simpl;
      destruct job; reflexivity. }
  assert (Hd : dormant (boot env n v))
    by (split; [reflexivity|right; split; [exact He|reflexivity]]).
  destruct (run_quiet evs (boot_timerInv env n v) Hd)
    as (_ & C & D & E & F & G & H & I).
  destruct (run_sameSetup evs (boot_timerInv env n v)) as (K & _).
  fold w in C, D, E, F, G, H, I, K.
  split; [intro job; rewrite K; apply He|].
  assert (Z : started (boot env n v) = 0 /\ armed (boot env n v) = 0 /\
              queued (boot env n v) = 0 /\
              forall path, posted path (boot env n v) = 0)
    by (repeat split; reflexivity).
  destruct Z as (Z1 & Z2 & Z3 & Z4).
  rewrite Z1 in D. rewrite Z2 in E. rewrite Z3 in I. rewrite Z4 in F, G, H, I.
  repeat split; auto. lia.
Qed.

(** C4 fails on [reportFeedback]: with the identity set and no base
    address, the client is disabled, yet the call posts to the address
    built from the missing variable. *)
Lemma feedback_is_posted_without_base_address :
  let w0 := boot [("WORLDVIOUS_ID", "abc")] "proc" "1.0" in
  let w :=
    step (ReportFeedback (FeedbackSubmitData.make "f1" (JOpaque "{}"))) w0 in
  enabled (this w0) = false /\
  trace w
  = [HttpPost "undefined/report/feedback"
       [("id", JStr "abc"); ("feedbackId", JStr "f1");
        ("answers", JOpaque "{}")]].
Proof. vm_compute. split; reflexivity. Qed.

(** ** Error aggregation *)

(** The part of C5 that holds.  The signature of an error is its stack
    when it has a non-empty one, else its string form, and the sentinel for
    [null] and [undefined]; and in every state the client can reach, the
    batch a flush would build holds, for every signature that is not a name
    inherited from [Object.prototype], exactly one payload when the
    signature was accepted since the last snapshot, with exactly the number
    of those [acceptError] calls as its count, and none otherwise.  No
    inherited name is ever a key of the pending map. *)
Theorem error_counts_are_exact env n v evs s :
  let w := run evs (boot env n v) in
  (_getErrorString JsNull = "UNDEFINED ERROR" /\
   _getErrorString JsUndefined = "UNDEFINED ERROR" /\
   (forall stack str,
      stack <> "" -> _getErrorString (JsObject (Some stack) str) = stack) /\
   (forall str, _getErrorString (JsObject (Some "") str) = str) /\
   (forall str, _getErrorString (JsObject None str) = str)) /\
  (JsRecord.inherited s = false ->
   payloadsFor s (buildPayloads (this w))
   = match acceptedSince s (trace w) with
     | 0 => []
     | S c => [errorPayload (this w) (ErrorInfo.make s (S c))]
     end) /\
  (JsRecord.inherited s = true -> JsRecord.get s (errors (this w)) = None).
Proof.
  intro w.
  assert (Hs : errorsOk w) by apply (run_sound evs (boot_sound env n v)).
  split; [|split].
  - repeat split; auto. intros stack str H. simpl.
    destruct (String.eqb stack "") eqn:E; [|reflexivity].
    apply String.eqb_eq in E. contradiction.
  - now apply payloads_of_signature.
  - intro Hi. destruct Hs as ((_ & Hk) & Hc). specialize (Hc s).
    unfold pendingCount in Hc. rewrite Hi in Hc.
    destruct (JsRecord.get s (errors (this w))) as [info|] eqn:G;
      [|reflexivity].
    destruct (Hk _ _ (get_In _ _ G)) as [_ H1]. lia.
Qed.

(** C5 fails for an error whose signature is a name every object
    inherits: while the flush of "x" is in flight, "toString" is accepted
    twice and "y" once; the read of [errors["toString"]] finds the
    inherited function, so no entry is made, and the next batch reports "y"
    alone. *)
Lemma inherited_signature_is_never_reported :
  let w :=
    run [Init; HttpSettles 0 ok; AcceptError (errorOf "x");
         AcceptError (errorOf "toString"); AcceptError (errorOf "toString");
         AcceptError (errorOf "y")]
      sampleWorld in
  _getErrorString (errorOf "toString") = "toString" /\
  acceptedSince "toString" (trace w) = 2 /\
  acceptedSince "y" (trace w) = 1 /\
  buildPayloads (this w)
  = [[("id", JStr "abc"); ("process", JStr "proc"); ("version", JStr "1.0");
      ("error", JStr "y"); ("count", JNum 1)]].
Proof. vm_compute. repeat split. Qed.

(** The scenario of the specification: with the interval of the error job
    set to 3 seconds, ten errors in a row give one flush with count 1 at
    once, and the flush of the next timer carries the other nine. *)
Example ten_errors_two_flushes :
  let env := sampleEnv ++ [("WORLDVIOUS_ERROR_REPORT_TIMEOUT", "3")] in
  let e := AcceptError (errorOf "boom") in
  let w :=
    run [Init; HttpSettles 0 (HttpOk (Notifications []));
         e; e; e; e; e; e; e; e; e; e; HttpSettles 1 ok; TimerFires 4]
      (boot env "proc" "1.0") in
  filter isHttpPost (history w)
  = [HttpPost "http://collector/report/version"
       [("id", JStr "abc"); ("process", JStr "proc"); ("version", JStr "1.0")];
     HttpPost "http://collector/report/error"
       [("id", JStr "abc"); ("process", JStr "proc"); ("version", JStr "1.0");
        ("error", JStr "boom"); ("count", JNum 1)];
     HttpPost "http://collector/report/error"
       [("id", JStr "abc"); ("process", JStr "proc"); ("version", JStr "1.0");
        ("error", JStr "boom"); ("count", JNum 9)]] /\
  In (SetTimeout 4 ReportError 3000) (history w).
Proof. vm_compute. split; [reflexivity|tauto]. Qed.

(** C2. The flush of the error job.  With an empty pending map it sends
    nothing and returns.  Otherwise it builds one payload per entry of the
    map, of the five fields, the signatures of the payloads being the keys
    of the map, each once; it empties the map and marks the snapshot before
    the first request, sends the first payload only and keeps the rest for
    later; each success sends the next payload alone.  No settling request
    brings a count back, and a signature accepted on an empty map counts 1.
    The signatures the map can hold are those that are not names inherited
    from [Object.prototype]. *)
Theorem flush_clears_then_sends_in_turn penv n v evs K :
  let w := run evs (boot penv n v) in
  (errors (this w) = [] -> _reportError K w = (w, Returned)) /\
  (forall info,
     errorPayload (this w) info
     = [("id", json_of_opt (id (this w))); ("process", JStr (name (this w)));
        ("version", JStr (version (this w)));
        ("error", JStr (ErrorInfo.error info));
        ("count", JNum (Z.of_nat (ErrorInfo.count info)))]) /\
  (map payloadSignature (buildPayloads (this w))
   = map (fun k => Some (JStr k)) (JsRecord.keys (errors (this w))) /\
   NoDup (JsRecord.keys (errors (this w)))) /\
  (errors (this w) <> [] ->
   exists first rest,
     buildPayloads (this w) = first :: rest /\
     snd (_reportError K w) = Pending /\
     errors (this (fst (_reportError K w))) = [] /\
     trace (fst (_reportError K w))
     = HttpPost (requestUrl (env w) "report/error") first
       :: BatchSnapshot :: trace w /\
     requests (fst (_reportError K w))
     = requests w ++ [(nextRequest w, K (ThenSerial rest))]) /\
  (forall r x job next rest data,
     findRequest r (requests w)
     = Some (KJob x job (ThenSerial (next :: rest))) ->
     let w' := httpSettles r (HttpOk data) w in
     trace w' = HttpPost (requestUrl (env w) "report/error") next :: trace w /\
     requests w'
     = filter (fun q => negb (Nat.eqb (fst q) r)) (requests w)
       ++ [(nextRequest w, KJob x job (ThenSerial rest))]) /\
  (forall r outcome s,
     pendingCount s (errors (this (step (HttpSettles r outcome) w)))
     <= pendingCount s (errors (this w))) /\
  (forall error,
     errors (this w) = [] ->
     JsRecord.inherited (_getErrorString error) = false ->
     pendingCount (_getErrorString error)
       (errors (this (recordError error w))) = 1) /\
  (forall k,
     In k (JsRecord.keys (errors (this w))) -> JsRecord.inherited k = false).
Proof.
  intro w.
  assert (Hs : sound w) by apply run_sound, boot_sound.
  destruct Hs as (_ & _ & (Hwf & Hcount)).
  split; [|split; [|split; [|split; [|split; [|split; [|split]]]]]].
  - intro E. unfold _reportError. rewrite E. reflexivity.
  - intro info. reflexivity.
  - split; [|apply Hwf]. unfold buildPayloads. now apply payload_signatures.
  - intro Hne. unfold _reportError, buildPayloads, JsRecord.keys,
      JsRecord.values.
    destruct (errors (this w)) as [|[k info] m]; [congruence|]. simpl.
    eexists. eexists. repeat split.
  - intros r x job next rest data Hf. unfold httpSettles. rewrite Hf. simpl.
    split; reflexivity.
  - intros r outcome s.
    destruct (settling_keeps_or_clears r outcome w) as [E|E]; rewrite E.
    + lia.
    + unfold pendingCount. simpl. lia.
  - intros error E Hi. unfold recordError, pendingCount. simpl.
    rewrite E. simpl. rewrite Hi. simpl.
    rewrite String.eqb_refl. reflexivity.
  - intros k Hin. destruct (JsRecord.inherited k) eqn:Hi; [|reflexivity].
    specialize (Hcount k). rewrite Hi in Hcount. unfold pendingCount in Hcount.
    destruct (JsRecord.get k (errors (this w))) as [info|] eqn:G.
    + destruct Hwf as (_ & Hk).
      destruct (Hk _ _ (get_In _ _ G)) as [_ H1]. lia.
    + apply (proj1 (get_None_keys k (errors (this w)))) in G. contradiction.
Qed.

(** ** Configuration *)

Example parseInt_samples :
  JsNumber.parseInt "3" = Some 3%Z /\
  JsNumber.parseInt " 42" = Some 42%Z /\
  JsNumber.parseInt "12px" = Some 12%Z /\
  JsNumber.parseInt "0x10" = Some 16%Z /\
  JsNumber.parseInt "-5" = Some (-5)%Z /\
  JsNumber.parseInt "abc" = None /\
  JsNumber.parseInt "" = None.
Proof. repeat split. Qed.












(** ** Feedback *)


(** ** Notifications *)

Lemma sameNotifications_trans w1 w2 w3 :
  sameNotifications w1 w2 -> sameNotifications w2 w3 ->
  sameNotifications w1 w3.
Proof.
  unfold sameNotifications. intros (A & B & C & D) (E & F & G & H).
  repeat split; congruence.
Qed.

Lemma op_sameNotifications t w w' :
  bodyTags t = true -> Op t w w' -> sameNotifications w w'.
Proof.
  intros Ht H. destruct H; try discriminate;
    try (unfold sameNotifications; blocks; simpl; break; repeat split; fail).
  - destruct (execute_frame nm job w)
      as (_ & _ & _ & _ & _ & _ & _ & A & _ & _ & _ & _ & B & C & _).
    unfold sameNotifications. rewrite A, B, C. repeat split.
    unfold execute, callJob, _checkVersion, _reportError, _reportCounters,
      _reportMetrics, serialRequests. simpl.
    destruct (JobInfo.cb job); simpl; break; reflexivity.
  - destruct (execute_frame nm job w)
      as (_ & _ & _ & _ & _ & _ & _ & A & _ & _ & _ & _ & B & C & _).
    unfold sameNotifications. simpl. rewrite A, B, C. repeat split.
    unfold execute, callJob, _checkVersion, _reportError, _reportCounters,
      _reportMetrics, serialRequests. simpl.
    destruct (JobInfo.cb job); simpl; break; reflexivity.
Qed.

Lemma bodySettled_sameNotifications r x job k w :
  findRequest r (requests w) = Some (KJob x job k) ->
  sameNotifications w (bodySettled r x job w).
Proof.
  intro Hf.
  apply (ops_preserve (fun w' => sameNotifications w w')
           (@bodySettled_ops r x job k w Hf)).
  - intros t w1 w2 Ha H S. eapply sameNotifications_trans; [exact S|].
    eapply op_sameNotifications; eauto.
  - repeat split.
Qed.

Lemma listenerCalls_app l1 l2 :
  listenerCalls (l1 ++ l2) = listenerCalls l1 ++ listenerCalls l2.
Proof. apply filter_app. Qed.

Lemma listenerCalls_all (l : list Listener) r :
  listenerCalls (rev (map (fun cb => ListenerCall cb r) l))
  = rev (map (fun cb => ListenerCall cb r) l).
Proof.
  unfold listenerCalls. apply forallb_filter_id.
  apply forallb_forall. intros e He. apply in_rev, in_map_iff in He.
  destruct He as (cb & <- & _). reflexivity.
Qed.

(** What the end of a turn does with the queued listener calls. *)
Lemma runMicrotasks_calls w :
  let w' := runMicrotasks w in
  this w' = this w /\ microtasks w' = [] /\
  trace w'
  = rev (map (fun cb => ListenerCall cb (_versionCheckResult (this w)))
           (microtasks w))
    ++ trace w.
Proof.
  destruct (runMicrotasks_trace_gen (microtasks w) (setMicrotasks [] w))
    as (A & _ & _ & _ & _ & B & C).
  unfold runMicrotasks. cbv zeta. rewrite A, B, C. repeat split.
Qed.

Lemma run_drained evs w : microtasks w = [] -> microtasks (run evs w) = [].
Proof.
  revert w. induction evs as [|ev evs IH]; intros w H; simpl; [auto|].
  apply IH. unfold step. apply runMicrotasks_calls.
Qed.

(** C8, as the code has it.  [onNotificationsChanged] appends the listener
    and queues one call of it; the call runs when the turn ends, with the
    notification state held then.  A version-check response that carries
    notifications replaces the state and gives every registered listener
    one call with the new state; a failed or empty response changes
    nothing and calls no listener. *)
Theorem listeners_are_called_once_per_update penv n v evs :
  let w := run evs (boot penv n v) in
  (forall cb,
     let w1 := onNotificationsChanged cb w in
     let w' := step (OnNotificationsChanged cb) w in
     (trace w1 = trace w /\ microtasks w1 = [cb]) /\
     _notificationsChangeListeners (this w')
     = _notificationsChangeListeners (this w) ++ [cb] /\
     _versionCheckResult (this w') = _versionCheckResult (this w) /\
     trace w' = ListenerCall cb (_versionCheckResult (this w)) :: trace w) /\
  (forall r x job items,
     findRequest r (requests w) = Some (KJob x job ThenActivate) ->
     let w' := step (HttpSettles r (HttpOk (Notifications items))) w in
     _versionCheckResult (this w') = items /\
     _notificationsChangeListeners (this w')
     = _notificationsChangeListeners (this w) /\
     listenerCalls (trace w')
     = rev (map (fun cb => ListenerCall cb items)
              (_notificationsChangeListeners (this w)))
       ++ listenerCalls (trace w)) /\
  (forall r x job outcome,
     findRequest r (requests w) = Some (KJob x job ThenActivate) ->
     outcome = HttpFailed \/ outcome = HttpOk NoData ->
     let w' := step (HttpSettles r outcome) w in
     _versionCheckResult (this w') = _versionCheckResult (this w) /\
     listenerCalls (trace w') = listenerCalls (trace w)).
Proof.
  intro w.
  assert (Hm : microtasks w = []) by (apply run_drained; reflexivity).
  split; [|split].
  - intros cb w1 w'. unfold w1, w', step. simpl.
    destruct (runMicrotasks_calls (onNotificationsChanged cb w))
      as (A & B & C).
    rewrite A, C. unfold onNotificationsChanged, _trigger. simpl.
    rewrite Hm. repeat split.
  - intros r x job items Hf w'. unfold w', step. simpl.
    unfold httpSettles. rewrite Hf.
    destruct (fold_trigger_gen
                (_notificationsChangeListeners
                   (this (onThis (setVersionCheckResult items) w)))
                (onThis (setVersionCheckResult items) w))
      as (A & _ & _ & D & _ & F & G).
    fold (_activateNewVersionInfo items w) in A, D, F, G.
    simpl in A, D, F, G. rewrite Hm in G. simpl in G.
    assert (Hf' : findRequest r (requests (_activateNewVersionInfo items w))
                  = Some (KJob x job ThenActivate)) by (rewrite D; exact Hf).
    destruct (@bodySettled_sameNotifications r x job ThenActivate _ Hf')
      as (S1 & S2 & S3 & S4).
    destruct (runMicrotasks_calls
                (bodySettled r x job (_activateNewVersionInfo items w)))
      as (R1 & R2 & R3).
    rewrite R1, R3, S1, S2, S3, A, G. simpl.
    rewrite listenerCalls_app, listenerCalls_all, S4, F. repeat split.
  - intros r x job outcome Hf Ho w'. unfold w', step. simpl.
    unfold httpSettles. rewrite Hf.
    destruct (@bodySettled_sameNotifications r x job ThenActivate _ Hf)
      as (S1 & S2 & S3 & S4).
    destruct (runMicrotasks_calls (bodySettled r x job w)) as (R1 & R2 & R3).
    destruct Ho as [-> | ->]; rewrite R1, R3, S1, S3, Hm; simpl; auto.
Qed.

(** C8 as stated fails: when [onNotificationsChanged] returns, the listener
    is registered and has not been called; its call is a queued promise
    job. *)
Lemma listener_is_not_called_synchronously :
  let w := onNotificationsChanged 7 sampleWorld in
  _notificationsChangeListeners (this w) = [7] /\
  listenerCalls (trace w) = [] /\
  microtasks w = [7].
Proof. vm_compute. repeat split. Qed.

(** ** The first error *)

(** C6, as the code has it.  With the latch raised, [acceptError] only
    counts.  With the latch down on an open client whose error job is
    registered, the call raises the latch and goes to the error job.  When
    the job is idle its timer is cancelled and the run starts within the
    call: with errors pending the batch is taken and its first payload
    posted before the call returns; with nothing pending (the signature is
    an inherited name) the body returns at once and the call returns with
    the latch up, the job running and no timer, and the promise jobs of the
    same turn then lower the flag, call the hook, which lowers the latch,
    and arm the timer.  When the job is running no run starts: within the
    call the job's timer is armed anew and the hook lowers the latch again.
    In every trace the hook call stands right before a timer of the error
    job, each such timer has one, and no hook call stands anywhere else. *)
Theorem first_error_runs_unless_running penv n v evs error :
  let w := run evs (boot penv n v) in
  let w1 := recordError error w in
  let w' := fst (acceptError error w) in
  let wE := step (AcceptError error) w in
  hooksOk (trace w) = true /\
  (isFirstErrorReported (this w) = true ->
   w' = w1 /\ snd (acceptError error w) = RNull /\
   trace w1 = ErrorAccepted (_getErrorString error) :: trace w /\
   requests w1 = requests w /\ timeouts w1 = timeouts w /\
   timers (this w1) = timers (this w) /\
   this wE = this w1 /\ trace wE = trace w1) /\
  (isFirstErrorReported (this w) = false -> closed (this w) = false ->
   jobRuntime (this w) ReportError = Some (JobRuntime.make false) ->
   (JsRecord.inherited (_getErrorString error) = false ->
    buildPayloads (this w1) <> []) /\
   match buildPayloads (this w1) with
   | first :: rest =>
       trace w'
       = HttpPost (requestUrl (env w) "report/error") first
           :: BatchSnapshot :: BodyStart ReportError
           :: cleared w ++ trace w1 /\
       isFirstErrorReported (this w') = true /\
       timers (this w') ReportError = None /\
       isRunning ReportError w' = true /\
       errors (this w') = [] /\
       this wE = this w' /\ trace wE = trace w'
   | [] =>
       snd (acceptError error w) = RCompleting ReportError /\
       trace w' = BodyStart ReportError :: cleared w ++ trace w1 /\
       isFirstErrorReported (this w') = true /\
       timers (this w') ReportError = None /\
       isRunning ReportError w' = true /\
       requests w' = requests w /\
       exists job,
         jobs (this w) ReportError = Some job /\
         trace wE
         = SetTimeout (nextTimeout w) ReportError
             (JobInfo.seconds job * 1000)
             :: PreSchedule ReportError :: trace w' /\
         isFirstErrorReported (this wE) = false /\
         timers (this wE) ReportError = Some (nextTimeout w) /\
         isRunning ReportError wE = false
   end) /\
  (isFirstErrorReported (this w) = false -> closed (this w) = false ->
   isRunning ReportError w = true ->
   snd (acceptError error w) = RNull /\
   exists job,
     jobs (this w) ReportError = Some job /\
     trace w'
     = SetTimeout (nextTimeout w) ReportError (JobInfo.seconds job * 1000)
         :: PreSchedule ReportError :: cleared w ++ trace w1 /\
     isFirstErrorReported (this w') = false /\
     timers (this w') ReportError = Some (nextTimeout w) /\
     requests w' = requests w /\
     errors (this w') = errors (this w1) /\
     this wE = this w' /\ trace wE = trace w').
Proof.
  intros w w1 w' wE.
  destruct (reachable_facts penv n v evs)
    as ((_ & Hreg & _) & Hjobs & _ & _ & _ & Hh).
  fold w in Hreg, Hjobs, Hh.
  assert (Hm : microtasks w = []) by (apply run_drained; reflexivity).
  destruct (recordError_keeps error w)
    as (K1 & K2 & K3 & K4 & K5 & K6 & K7 & K8 & K9 & K10 & K11 & K12).
  assert (Km : microtasks (recordError error w) = microtasks w).
  { unfold recordError. simpl.
    destruct (JsRecord.get (_getErrorString error) (errors (this w)));
      [|destruct (JsRecord.inherited (_getErrorString error))]; reflexivity. }
  fold w1 in K1, K2, K3, K4, K5, K6, K7, K8, K9, K10, K11, K12, Km.
  assert (L : isFirstErrorReported (this w) = false ->
              acceptError error w
              = _runJob ReportError true
                  (onThis (setIsFirstErrorReported true) w1)).
  { intro Hl. unfold acceptError. fold w1. rewrite K6, Hl. reflexivity. }
  assert (L1 : isFirstErrorReported (this w) = true ->
               acceptError error w = (w1, RNull)).
  { intro Hl. unfold acceptError. fold w1. rewrite K6, Hl. reflexivity. }
  assert (E : wE = runMicrotasks (completion (acceptError error w)))
    by reflexivity.
  assert (Idle : forall z,
             microtasks z = [] ->
             this (runMicrotasks z) = this z /\
             trace (runMicrotasks z) = trace z).
  { intros z Hz. destruct (runMicrotasks_calls z) as (A & _ & B).
    rewrite Hz in B. auto. }
  unfold w'. clearbody w1 wE. clear w'.
  split; [exact Hh|]. split; [|split].
  - intro Hl. rewrite E, (L1 Hl). simpl.
    destruct (Idle w1) as [I1 I2]; [congruence|]. repeat split; auto.
  - intros Hl Hc Hr. rewrite E, (L Hl).
    destruct (Hreg ReportError) as [He Hj]; [congruence|].
    destruct (jobs (this w) ReportError) as [job|] eqn:Ej; [|congruence].
    destruct (Hjobs _ _ Ej) as (_ & Hcb & Hp). simpl in Hcb, Hp.
    assert (Hb : buildPayloads (this w1) = [] <-> errors (this w1) = []).
    { unfold buildPayloads, JsRecord.values.
      destruct (errors (this w1)); simpl; split; congruence. }
    split; [intros Hi Hb0; apply (K12 Hi), Hb, Hb0|].
    destruct (errors (this w1)) as [|e0 m0] eqn:Ee.
    + rewrite (proj2 Hb eq_refl).
      pose proof (@flush_empty_returns job
                    (onThis (setIsFirstErrorReported true) w1)) as Y.
      pose proof (@flush_empty job
                    (onThis (setIsFirstErrorReported true) w1)) as X.
      cbv zeta in X, Y.
      destruct Y as (Y1 & Y2 & Y3 & Y4 & Y5 & Y6 & Y7); simpl;
        try congruence.
      destruct X as (A & B & C & D & F & G & M); simpl; try congruence.
      unfold cleared in *. simpl in A, D, Y2, Y4, M.
      rewrite K5, K7 in A. rewrite K7 in D. rewrite K5 in Y2.
      destruct (Idle (completion
                        (_runJob ReportError true
                           (onThis (setIsFirstErrorReported true) w1))))
        as [I1 I2]; [congruence|].
      rewrite I1, I2.
      split; [exact Y1|]. split; [exact Y2|]. split; [exact Y4|].
      split; [exact Y5|]. split; [exact Y6|].
      split; [simpl in Y3; congruence|].
      exists job. split; [reflexivity|]. rewrite A, Y2.
      repeat split; auto.
      unfold isRunning in *. rewrite I1. exact F.
    + pose proof (@flush_starts job
                    (onThis (setIsFirstErrorReported true) w1)) as X.
      cbv zeta in X.
      destruct X as (first & rest & A & B & R & D & F & G & H & Rs & Rm);
        simpl; try congruence.
      change (buildPayloads (this w1) = first :: rest) in A. rewrite A.
      simpl in D. unfold cleared in *. simpl in B.
      rewrite K5, K10 in B.
      rewrite (@completion_fst (_runJob ReportError true
                                  (onThis (setIsFirstErrorReported true) w1)))
        by (intros nm; rewrite Rs; discriminate).
      destruct (Idle (fst (_runJob ReportError true
                             (onThis (setIsFirstErrorReported true) w1))))
        as [I1 I2].
      { simpl in Rm. congruence. }
      repeat split; auto.
  - intros Hl Hc Hrun. rewrite E, (L Hl).
    destruct (running_registered _ Hreg Hrun) as (He & job & Ej).
    apply isRunning_true in Hrun.
    destruct (Hjobs _ _ Ej) as (_ & _ & Hp). simpl in Hp.
    pose proof (@flush_deferred job
                  (onThis (setIsFirstErrorReported true) w1)) as X.
    cbv zeta in X.
    destruct X as (A & B & C & D & F & _ & Rs & Rm); simpl; try congruence.
    unfold cleared in *. simpl in A, C, D, F, Rm.
    rewrite K5, K7 in A. rewrite K7 in C. rewrite K8 in D.
    rewrite (@completion_fst (_runJob ReportError true
                                (onThis (setIsFirstErrorReported true) w1)))
      by (intros nm; rewrite Rs; discriminate).
    destruct (Idle (fst (_runJob ReportError true
                           (onThis (setIsFirstErrorReported true) w1))))
      as [I1 I2]; [congruence|].
    split; [exact Rs|]. exists job. repeat split; auto.
Qed.

(** C6 fails as it stands when the error job is running: the flush of "b"
    and "c" is in flight and the latch is down; accepting "d" starts no
    body and posts nothing, it arms the sixty-second timer and leaves the
    latch down. *)
Lemma first_error_while_flushing_is_deferred :
  let w := flushInFlight in
  let w' := step (AcceptError (errorOf "d")) w in
  isFirstErrorReported (this w) = false /\
  closed (this w) = false /\
  isRunning ReportError w = true /\
  started w' = started w /\
  posted "report/error" w' = posted "report/error" w /\
  trace w'
  = SetTimeout 5 ReportError 60000 :: PreSchedule ReportError
      :: ErrorAccepted "d" :: trace w /\
  isFirstErrorReported (this w') = false.
Proof. vm_compute. repeat split. Qed.

(** * Further properties of the code *)

(** ** Timers remembered and timeouts live *)

Lemma one_name_per_timeout (l : list Timeout.t) :
  NoDup (map Timeout.handle l) ->
  (forall t t', In t l -> In t' l ->
     Timeout.name t = Timeout.name t' -> Timeout.handle t = Timeout.handle t') ->
  NoDup (map Timeout.name l).
Proof.
  induction l as [|a l IH]; simpl; intros Hn Hs; [constructor|].
  inversion Hn as [|? ? Hnotin Hn']; subst. constructor.
  - intro Hin. apply in_map_iff in Hin. destruct Hin as (t & E & Hin).
    apply Hnotin. rewrite <- (Hs t a); auto. now apply in_map.
  - apply IH; auto.
Qed.

(** X1. The timers the client remembers are exactly the timeouts that are
    live: a job has a remembered handle if and only if a live timeout of
    that job has this handle, and no job has two live timeouts.  So no
    timeout is leaked and no handle outlives its timeout, whatever the
    client has been through. *)
Theorem remembered_timers_are_the_live_ones penv n v evs :
  let w := run evs (boot penv n v) in
  (forall nm h,
     timers (this w) nm = Some h <->
     exists t,
       In t (timeouts w) /\ Timeout.name t = nm /\ Timeout.handle t = h) /\
  NoDup (map Timeout.name (timeouts w)).
Proof.
  intro w. destruct (reachable_timerBook penv n v evs) as (T & L & (_ & F) & _).
  fold w in T, L, F. split.
  - intros nm h. split; [apply L|].
    intros (t & Hin & <- & <-). now apply T.
  - apply one_name_per_timeout; [exact F|].
    intros t t' Hin Hin' E. apply T in Hin. apply T in Hin'. congruence.
Qed.

(** ** [close] *)

Lemma close_cleared (names : list ReportActions) w :
  let w' :=
    fold_left
      (fun w name =>
         match timers (this w) name with
         | Some timer => clearTimeout timer w
         | None => w
         end) names w in
  awaiting w' = awaiting w /\ microtasks w' = microtasks w /\
  exists added,
    trace w' = added ++ trace w /\
    length added = length (filter (hasTimer w) names) /\
    forall e,
      In e added <->
      exists nm h,
        In nm names /\ timers (this w) nm = Some h /\ e = ClearTimeout h.
Proof.
  revert w. induction names as [|nm rest IH]; intro w; simpl.
  - repeat split. exists []. repeat split; [intros []|].
    intros (nm & h & [] & _).
  - set (w1 := match timers (this w) nm with
               | Some timer => clearTimeout timer w
               | None => w
               end).
    assert (E1 : this w1 = this w) by (subst w1; break; reflexivity).
    destruct (IH w1) as (A & B & added & C & D & E).
    assert (F : filter (hasTimer w1) rest = filter (hasTimer w) rest)
      by (apply filter_ext; intro a; unfold hasTimer; now rewrite E1).
    rewrite F in D. rewrite E1 in E. unfold hasTimer at 1.
    subst w1. destruct (timers (this w) nm) as [h0|] eqn:Et; simpl in *.
    + repeat split; auto. exists (added ++ [ClearTimeout h0]).
      rewrite <- app_assoc. split; [exact C|].
      split; [rewrite length_app; simpl; lia|].
      intro e. rewrite in_app_iff, E. simpl. split.
      * intros [(n0 & h & Hin & Hs & He)|[<-|[]]].
        -- exists n0, h. auto.
        -- exists nm, h0. auto.
      * intros (n0 & h & [<-|Hin] & Hs & He).
        -- right. left. congruence.
        -- left. exists n0, h. auto.
    + repeat split; auto. exists added. split; [exact C|].
      split; [exact D|]. intro e. rewrite E. split.
      * intros (n0 & h & Hin & Hs & He). exists n0, h. auto.
      * intros (n0 & h & [<-|Hin] & Hs & He); [congruence|].
        exists n0, h. auto.
Qed.

Lemma close_effects w :
  awaiting (close w) = awaiting w /\ microtasks (close w) = microtasks w /\
  exists added,
    trace (close w) = added ++ trace w /\
    length added = length (filter (hasTimer w) allJobs) /\
    forall e,
      In e added <->
      exists nm h, timers (this w) nm = Some h /\ e = ClearTimeout h.
Proof.
  unfold close.
  match goal with |- context [fold_left ?f allJobs ?W] =>
    pose proof (close_cleared allJobs W) as K;
    cbv zeta in K; destruct K as (K1 & K2 & added & K3 & K4 & K5);
    remember (fold_left f allJobs W) as F eqn:EF end.
  clear EF. simpl in K1, K2, K3, K5.
  split; [exact K1|]. split; [exact K2|]. exists added.
  split; [exact K3|]. split; [exact K4|].
  intro e. rewrite K5. split.
  - intros (nm & h & _ & Hs & He). now exists nm, h.
  - intros (nm & h & Hs & He). exists nm, h.
    split; [destruct nm; simpl; auto|auto].
Qed.

Lemma allJobs_complete nm : In nm allJobs.
Proof. destruct nm; simpl; auto. Qed.

Lemma allJobs_NoDup : NoDup allJobs.
Proof.
  unfold allJobs. repeat constructor; simpl; intuition discriminate.
Qed.

Lemma live_timeouts_counted w :
  timerBook w ->
  length (filter (hasTimer w) allJobs) = length (timeouts w).
Proof.
  intros (T & L & (_ & F) & _).
  assert (Hn : NoDup (map Timeout.name (timeouts w))).
  { apply one_name_per_timeout; [exact F|].
    intros t t' Hin Hin' E. apply T in Hin. apply T in Hin'. congruence. }
  rewrite <- (length_map Timeout.name (timeouts w)).
  apply Nat.le_antisymm; apply NoDup_incl_length.
  - apply NoDup_filter, allJobs_NoDup.
  - intros nm Hin. apply filter_In in Hin. destruct Hin as [_ Hin].
    unfold hasTimer in Hin.
    destruct (timers (this w) nm) as [h|] eqn:E; [|discriminate].
    destruct (L nm h E) as (t & Ht & <- & _). now apply in_map.
  - exact Hn.
  - intros nm Hin. apply in_map_iff in Hin. destruct Hin as (t & <- & Hin).
    apply filter_In. split; [apply allJobs_complete|].
    unfold hasTimer. now rewrite (T t Hin).
Qed.

Lemma runMicrotasks_idle w :
  microtasks w = [] ->
  this (runMicrotasks w) = this w /\ trace (runMicrotasks w) = trace w /\
  timeouts (runMicrotasks w) = timeouts w /\
  requests (runMicrotasks w) = requests w /\
  awaiting (runMicrotasks w) = awaiting w /\
  microtasks (runMicrotasks w) = [] /\
  env (runMicrotasks w) = env w.
Proof.
  intro E. unfold runMicrotasks. rewrite E. simpl. repeat split.
Qed.

(** X2. [close()] on any state the client can reach: the client is marked
    closed and forgets its timers, every live timeout is cancelled, each
    once and nothing else, no timeout stays live, and the requests in
    flight, the loops waiting for them and the rest of the client are left
    alone.  A second [close()] changes nothing and cancels nothing. *)
Theorem close_cancels_every_timer_once penv n v evs :
  let w := run evs (boot penv n v) in
  let w1 := step Close w in
  let w2 := step Close w1 in
  this w1 = setTimers (fun _ => None) (setClosed true (this w)) /\
  timeouts w1 = [] /\ requests w1 = requests w /\
  awaiting w1 = awaiting w /\
  (exists added,
     trace w1 = added ++ trace w /\
     length added = length (timeouts w) /\
     forall e,
       In e added <->
       exists t, In t (timeouts w) /\ e = ClearTimeout (Timeout.handle t)) /\
  this w2 = this w1 /\ trace w2 = trace w1 /\ requests w2 = requests w1.
Proof.
  intros w w1 w2.
  assert (Hb : timerBook w) by apply reachable_timerBook.
  assert (Ht : timerInv w) by apply run_timerInv, boot_timerInv.
  assert (Hm : microtasks w = []) by (apply run_drained; reflexivity).
  assert (K : forall w0,
            timerBook w0 -> timerInv w0 -> microtasks w0 = [] ->
            this (step Close w0)
            = setTimers (fun _ => None) (setClosed true (this w0)) /\
            timeouts (step Close w0) = [] /\
            requests (step Close w0) = requests w0 /\
            awaiting (step Close w0) = awaiting w0 /\
            microtasks (step Close w0) = [] /\
            exists added,
              trace (step Close w0) = added ++ trace w0 /\
              length added = length (timeouts w0) /\
              forall e,
                In e added <->
                exists t,
                  In t (timeouts w0) /\
                  e = ClearTimeout (Timeout.handle t)).
  { intros w0 Hb0 Ht0 Hm0.
    destruct (close_frame w0) as (A & _ & C & _).
    destruct (close_effects w0) as (D1 & D2 & added & D3 & D4 & D5).
    assert (M : microtasks (close w0) = []) by congruence.
    destruct (runMicrotasks_idle _ M) as (R1 & R2 & R3 & R4 & R5 & R6 & _).
    unfold step. simpl. rewrite R1, R2, R3, R4, R5, R6.
    split; [exact A|]. split; [apply close_timeouts, Ht0|].
    split; [exact C|]. split; [exact D1|].
    split; [reflexivity|]. exists added.
    split; [exact D3|]. split.
    - rewrite D4. apply (live_timeouts_counted Hb0).
    - intro e. rewrite D5. destruct Hb0 as (T & L & _). split.
      + intros (nm & h & Hs & ->). destruct (L nm h Hs) as (t & Hin & _ & <-).
        now exists t.
      + intros (t & Hin & ->). exists (Timeout.name t), (Timeout.handle t).
        split; [now apply T|reflexivity]. }
  destruct (K w Hb Ht Hm) as (A & B & C & D & E & F).
  fold w1 in A, B, C, D, E, F.
  assert (Hb1 : timerBook w1)
    by (apply step_timerBook; [exact Ht| |exact Hb];
        apply reachable_facts).
  assert (Ht1 : timerInv w1) by now apply step_timerInv.
  destruct (K w1 Hb1 Ht1 E) as (A2 & _ & C2 & _ & _ & added & F1 & F2 & _).
  fold w2 in A2, C2, F1, F2.
  repeat split; auto.
  - rewrite A2, A. reflexivity.
  - rewrite B in F2. destruct added; [exact F1|discriminate].
Qed.

(** ** What is sent *)

Lemma op_trace t w w' :
  Op t w w' ->
  exists added,
    trace w' = added ++ trace w /\
    (loudTag t = false -> forallb quietEntry added = true).
Proof.
  intro H. destruct H;
    try (exists []; split; [reflexivity|intros _; reflexivity]).
  - eexists [_]. split; [reflexivity|discriminate].
  - unfold _stopScheduledJob, clearTimeout.
    destruct (timers (this w) nm) as [h|].
    + exists [ClearTimeout h]. split; [reflexivity|reflexivity].
    + exists []. split; [reflexivity|reflexivity].
  - unfold armTimer, setTimeout, callPreSchedule.
    destruct (timers (this w) nm); [now exists []|].
    destruct (JobInfo.preScheduleCb job) as [[]|].
    + eexists [_; _]. split; [reflexivity|discriminate].
    + eexists [_]. split; [reflexivity|discriminate].
  - destruct (execute_trace nm job w) as (added & A & _).
    exists added. split; [exact A|discriminate].
  - destruct (execute_trace nm job w) as (added & A & _).
    exists added. split; [exact A|discriminate].
  - eexists [_]. split; [reflexivity|discriminate].
  - destruct (fold_trigger_gen (_notificationsChangeListeners
                (this (onThis (setVersionCheckResult items) w)))
                (onThis (setVersionCheckResult items) w))
      as (_ & _ & _ & _ & _ & F & _).
    exists []. split; [exact F|reflexivity].
  - destruct (close_frame w) as (_ & _ & _ & added & D & E).
    exists added. split; [exact D|intros _].
    revert E. apply forallb_impl. intros []; simpl; congruence.
  - unfold reportFeedback. destruct (negb _); [now exists []|].
    eexists [_]. split; [reflexivity|discriminate].
  - destruct (runMicrotasks_trace_gen (microtasks w) (setMicrotasks [] w))
      as (_ & _ & _ & _ & _ & _ & G).
    eexists. split; [unfold runMicrotasks; exact G|intros _].
    apply forallb_forall. intros e He. apply in_rev, in_map_iff in He.
    destruct He as (cb & <- & _). reflexivity.
Qed.


Lemma stamped_errorPayload c info : stamped c (errorPayload c info).
Proof. split; reflexivity. Qed.








(** ** A job switched off *)

Lemma execute_shape nm job w :
  exists body,
    trace (fst (fst (execute nm job w))) = body ++ BodyStart nm :: trace w /\
    forallb bodyEntry body = true.
Proof.
  unfold execute, callJob, _checkVersion, _reportError, _reportCounters,
    _reportMetrics, serialRequests. simpl.
  destruct (JobInfo.cb job); simpl; break; simpl;
    match goal with
    | |- exists body, ?a :: ?b :: BodyStart _ :: _ = _ /\ _ => exists [a; b]
    | |- exists body, ?a :: BodyStart _ :: _ = _ /\ _ => exists [a]
    | |- exists body, BodyStart _ :: _ = _ /\ _ => exists []
    end; split; reflexivity.
Qed.

Lemma op_jobRuntime t w w' :
  Op t w w' ->
  (forall n, jobRuntime (this w') n = jobRuntime (this w) n) \/
  exists nm v,
    jobRuntime (this w) nm <> None /\
    forall n,
      jobRuntime (this w') n
      = upd (jobRuntime (this w)) nm (Some (JobRuntime.make v)) n.
Proof.
  intro H. destruct H;
    try (left; intro n; blocks; simpl; break; reflexivity).
  - destruct (execute_cases nm job w) as (A & _).
    right. exists nm, true. split; [congruence|]. intro n. now rewrite A.
  - destruct (execute_cases nm job w) as (A & _).
    right. exists nm, false. split; [congruence|]. intro n. simpl.
    rewrite A. unfold upd. destruct (ReportActions_eqb nm n); reflexivity.
  - right. exists nm, false. split; [exact H0|]. intro n. reflexivity.
  - destruct (fold_trigger_gen (_notificationsChangeListeners
                (this (onThis (setVersionCheckResult items) w)))
                (onThis (setVersionCheckResult items) w))
      as (A & _).
    left. intro n. unfold _activateNewVersionInfo. rewrite A. reflexivity.
  - destruct (runMicrotasks_trace_gen (microtasks w) (setMicrotasks [] w))
      as (A & _).
    left. intro n. unfold runMicrotasks. rewrite A. reflexivity.
Qed.

Lemma countIf_quiet (p : Effect -> bool) added l :
  (forall e, quietEntry e = true -> p e = false) ->
  forallb quietEntry added = true ->
  countIf p (added ++ l) = countIf p l.
Proof.
  intros Hp Ha. rewrite countIf_app.
  enough (countIf p added = 0) by lia.
  induction added as [|e added IH]; [reflexivity|].
  simpl in Ha. apply andb_prop in Ha. destruct Ha as [He Ha].
  rewrite countIf_cons, (Hp e He), IH; auto.
Qed.

Lemma countIf_body (p : Effect -> bool) body l :
  (forall e, bodyEntry e = true -> p e = false) ->
  forallb bodyEntry body = true ->
  countIf p (body ++ l) = countIf p l.
Proof.
  intros Hp Ha. rewrite countIf_app.
  enough (countIf p body = 0) by lia.
  induction body as [|e body IH]; [reflexivity|].
  simpl in Ha. apply andb_prop in Ha. destruct Ha as [He Ha].
  rewrite countIf_cons, (Hp e He), IH; auto.
Qed.

Lemma op_neverUsed job t w w' :
  Op t w w' -> neverUsed job w -> neverUsed job w'.
Proof.
  intros H (He & Hj & Hr & Ht & Hs & Ha).
  destruct (op_sameSetup H) as (Sc & _).
  pose proof (op_jobs H) as Sj.
  assert (R : jobRuntime (this w') job = None).
  { destruct (op_jobRuntime H) as [A|(nm & v & A & B)]; [now rewrite A|].
    rewrite B. rewrite upd_other; [exact Hr|]. intros ->. contradiction. }
  assert (T : timers (this w') job = None).
  { destruct (op_timers H) as [A _ _|nm j Hn Hjob A _ _|nm h _ A _ _|A _ _].
    - now rewrite A.
    - rewrite A, upd_other; [exact Ht|]. intros ->. congruence.
    - rewrite A. unfold upd. destruct (ReportActions_eqb nm job); auto.
    - apply A. }
  assert (C : startedFor job w' = 0 /\ armedFor job w' = 0).
  { unfold startedFor, armedFor in *.
    destruct (op_trace H) as (added & A & B).
    assert (Q : loudTag t = false ->
                countIf (isStartOf job) (trace w') = 0 /\
                countIf (isTimerOf job) (trace w') = 0).
    { intro L. rewrite A, !countIf_quiet; auto; intros []; simpl; congruence. }
    clear added A B. destruct H; try (apply Q; reflexivity).
    - simpl. rewrite !countIf_cons. simpl. auto.
    - unfold armTimer, setTimeout, callPreSchedule.
      destruct (timers (this w) nm); [auto|].
      assert (E : ReportActions_eqb nm job = false)
        by (apply ReportActions_eqb_neq; intros ->; congruence).
      destruct (JobInfo.preScheduleCb job0) as [[]|]; simpl;
        rewrite !countIf_cons; simpl; rewrite E; simpl; auto.
    - destruct (execute_shape nm job0 w) as (body & A & B).
      assert (E : ReportActions_eqb nm job = false)
        by (apply ReportActions_eqb_neq; intros ->; congruence).
      rewrite A, !countIf_body, !countIf_cons; auto;
        try (intros []; simpl; congruence).
      simpl. rewrite E. auto.
    - destruct (execute_shape nm job0 w) as (body & A & B).
      assert (E : ReportActions_eqb nm job = false)
        by (apply ReportActions_eqb_neq; intros ->; congruence).
      simpl. rewrite A, !countIf_body, !countIf_cons; auto;
        try (intros []; simpl; congruence).
      simpl. rewrite E. auto.
    - simpl. rewrite !countIf_cons. simpl. auto.
    - unfold reportFeedback. destruct (negb _); [auto|].
      simpl. rewrite !countIf_cons. simpl. auto. }
  unfold neverUsed. rewrite Sc, Sj. tauto.
Qed.

Lemma _register_neverUsed job nm cb pre w :
  neverUsed job w -> neverUsed job (_register nm cb pre w).
Proof.
  intros (He & Hj & Hr & Ht & Hs & Ha). unfold _register.
  destruct (JobConfig.enabled (jobConfigs (this w) nm)) eqn:E; simpl;
    [|repeat split; assumption].
  assert (nm <> job) by (intros ->; congruence).
  unfold neverUsed, startedFor, armedFor. simpl.
  rewrite !upd_other by assumption. repeat split; assumption.
Qed.

Lemma run_neverUsed job evs w :
  timerInv w -> neverUsed job w -> neverUsed job (run evs w).
Proof.
  revert w. induction evs as [|ev evs IH]; intros w Ht Hn; simpl; [auto|].
  apply IH; [now apply step_timerInv|].
  apply (ops_preserve_all _ (@op_neverUsed job) (step_ops ev Ht)).
  destruct ev; simpl; auto.
  unfold _schedule. auto using _register_neverUsed.
Qed.

(** X4. A job whose disable variable holds any non-empty string (also
    ["false"] or ["0"]) is switched off for good: whatever the client goes
    through, the job is never registered, none of its bodies is ever
    started and no timer is ever armed for it. *)
Theorem disabled_job_never_runs penv n v evs job
  (Hoff :
     truthy (JsRecord.get (JobConfig.disableEnvName (defaultJobConfig job))
               penv) = true) :
  let w := run evs (boot penv n v) in
  JobConfig.enabled (jobConfigs (this w) job) = false /\
  jobs (this w) job = None /\ timers (this w) job = None /\
  startedFor job w = 0 /\ armedFor job w = 0.
Proof.
  intro w.
  assert (N : neverUsed job (boot penv n v)).
  { repeat split. simpl. rewrite Hoff. destruct (negb _); reflexivity. }
  destruct (run_neverUsed evs (boot_timerInv penv n v) N)
    as (A & B & _ & C & D & E).
  auto.
Qed.

Lemma disabled_job_never_runs_witness :
  let penv := sampleEnv ++ [("WORLDVIOUS_ERROR_REPORT_DISABLE", "false")] in
  let w :=
    run [Init; AcceptError (errorOf "a"); HttpSettles 0 ok;
         AcceptError (errorOf "b")]
      (boot penv "proc" "1.0") in
  JobConfig.enabled (jobConfigs (this w) ReportError) = false /\
  jobs (this w) ReportError = None /\ timers (this w) ReportError = None /\
  startedFor ReportError w = 0 /\ armedFor ReportError w = 0.
Proof.
  apply (@disabled_job_never_runs
           (sampleEnv ++ [("WORLDVIOUS_ERROR_REPORT_DISABLE", "false")])
           "proc" "1.0"
           [Init; AcceptError (errorOf "a"); HttpSettles 0 ok;
            AcceptError (errorOf "b")]
           ReportError).
  reflexivity.
Defined.

(** ** Errors accepted by a client that sends nothing *)

Lemma op_errors_dormant t w w' :
  Op t w w' -> dormant w -> t <> TRecord ->
  errors (this w') = errors (this w).
Proof.
  intros H (_ & Hd) Ht.
  assert (X : forall nm,
            closed (this w) = false ->
            jobRuntime (this w) nm = Some (JobRuntime.make false) -> False).
  { intros nm Hc Hr. destruct Hd as [Hd|[_ Hd]]; [congruence|].
    rewrite Hd in Hr. discriminate. }
  destruct H; try congruence;
    try (blocks; simpl; break; reflexivity);
    try (exfalso; eapply X; eassumption).
  - destruct (fold_trigger_gen (_notificationsChangeListeners
                (this (onThis (setVersionCheckResult items) w)))
                (onThis (setVersionCheckResult items) w))
      as (A & _).
    unfold _activateNewVersionInfo. rewrite A. reflexivity.
  - destruct (runMicrotasks_trace_gen (microtasks w) (setMicrotasks [] w))
      as (A & _).
    unfold runMicrotasks. rewrite A. reflexivity.
Qed.

Lemma ops_errors_dormant allow w w' :
  allow TRecord = false -> Ops allow w w' -> dormant w ->
  errors (this w') = errors (this w) /\ dormant w'.
Proof.
  intros Ha H Hd. induction H as [|t w2 w3 H IH Ht Hop]; [auto|].
  destruct IH as [E D]. split.
  - rewrite <- E. eapply op_errors_dormant; eauto. intros ->. congruence.
  - apply (op_quiet Hop D).
Qed.

Lemma acceptError_dormant error w :
  dormant w -> this (completion (acceptError error w))
               = this (recordError error w) \/
               this (completion (acceptError error w))
               = setIsFirstErrorReported true (this (recordError error w)).
Proof.
  intros (_ & Hd). unfold acceptError.
  destruct (recordError_keeps error w) as (K1 & K2 & _).
  remember (recordError error w) as w1 eqn:E1. clear E1.
  destruct (negb _); [|now left]. right. unfold _runJob. simpl.
  destruct Hd as [Hd|[Hd _]].
  - rewrite K1, Hd. reflexivity.
  - rewrite K2, Hd. simpl. destruct (closed _); reflexivity.
Qed.

Lemma step_errors_dormant ev w :
  timerInv w -> dormant w ->
  errors (this (step ev w))
  = match ev with
    | AcceptError error => errors (this (recordError error w))
    | _ => errors (this w)
    end.
Proof.
  intros Ht Hd. unfold step.
  destruct (runMicrotasks_trace_gen (microtasks (dispatch ev w))
              (setMicrotasks [] (dispatch ev w))) as (A & _).
  unfold runMicrotasks. rewrite A.
  change (this (setMicrotasks [] (dispatch ev w))) with (this (dispatch ev w)).
  clear A.
  assert (S : dormant (scheduled ev w)) by apply (scheduled_quiet ev Hd).
  assert (E : errors (this (scheduled ev w)) = errors (this w)).
  { destruct ev; try reflexivity. simpl.
    now destruct (_schedule_frame w) as (_ & _ & _ & _ & _ & E & _). }
  pose proof (dispatch_ops ev Ht) as O.
  destruct ev as [| |error| | | | | |];
    try (etransitivity; [|exact E];
         eapply ops_errors_dormant; [|exact O|exact S]; reflexivity).
  change (dispatch (AcceptError error) w) with (completion (acceptError error w)).
  destruct (acceptError_dormant error Hd) as [B|B]; now rewrite B.
Qed.

Lemma recordError_count error w s :
  errorsOk w ->
  pendingCount s (errors (this (recordError error w)))
  = pendingCount s (errors (this w))
    + (if JsRecord.inherited s then 0
       else if String.eqb (_getErrorString error) s then 1 else 0).
Proof.
  intros Hok. pose proof (recordError_errorsOk error Hok) as (_ & Hc').
  destruct Hok as (_ & Hc). rewrite Hc', Hc.
  unfold recordError. simpl.
  destruct (JsRecord.inherited s); [reflexivity|].
  destruct (String.eqb (_getErrorString error) s); lia.
Qed.

Lemma run_errors_dormant evs w s :
  sound w -> dormant w ->
  pendingCount s (errors (this (run evs w)))
  = pendingCount s (errors (this w))
    + (if JsRecord.inherited s then 0 else acceptedIn s evs).
Proof.
  revert w. induction evs as [|ev evs IH]; intros w Hs Hd; simpl.
  - destruct (JsRecord.inherited s); lia.
  - assert (Ht : timerInv w) by apply Hs.
    rewrite IH; [|now apply step_sound|apply (step_quiet ev Ht Hd)].
    unfold pendingCount at 1. rewrite (step_errors_dormant ev Ht Hd).
    destruct ev;
      try (fold (pendingCount s (errors (this w))); reflexivity).
    fold (pendingCount s (errors (this (recordError error w)))).
    rewrite recordError_count by apply Hs.
    destruct (JsRecord.inherited s); lia.
Qed.

(** X5. Errors accepted after [close()] are counted and kept: from
    [close()] on, the pending count of a signature grows by one with each
    [acceptError] call of that signature and is never reset, since no flush
    starts any more.  (A signature that is a name inherited from
    [Object.prototype] has no count, as before.) *)
Theorem closed_client_keeps_counting penv n v before after s :
  let w0 := step Close (run before (boot penv n v)) in
  let w := run after w0 in
  pendingCount s (errors (this w))
  = pendingCount s (errors (this w0))
    + (if JsRecord.inherited s then 0 else acceptedIn s after).
Proof.
  intros w0 w.
  assert (Hs : sound (run before (boot penv n v)))
    by apply run_sound, boot_sound.
  apply run_errors_dormant.
  - now apply step_sound.
  - apply step_close_dormant, Hs.
Qed.

(** X6. A client built without the identity or without the base address
    still counts every error it is given: the pending count of a signature
    is the number of all [acceptError] calls of that signature so far, and
    nothing ever empties the map. *)
Theorem unconfigured_client_keeps_counting penv n v evs s
  (Hmiss :
     truthy (JsRecord.get "WORLDVIOUS_ID" penv) = false \/
     truthy (JsRecord.get "WORLDVIOUS_URL" penv) = false) :
  let w := run evs (boot penv n v) in
  pendingCount s (errors (this w))
  = if JsRecord.inherited s then 0 else acceptedIn s evs.
Proof.
  intro w.
  assert (He : forall job,
             JobConfig.enabled (jobConfigs (this (boot penv n v)) job) = false).
  { intro job. simpl.
    destruct Hmiss as [-> | ->]; simpl;
      [|destruct (truthy (JsRecord.get "WORLDVIOUS_ID" penv))]; simpl;
      destruct job; reflexivity. }
  assert (Hd : dormant (boot penv n v))
    by (split; [reflexivity|right; split; [exact He|reflexivity]]).
  unfold w. rewrite (run_errors_dormant evs s (boot_sound penv n v) Hd).
  reflexivity.
Qed.

Lemma unconfigured_client_keeps_counting_witness :
  let e := AcceptError (errorOf "boom") in
  let w := run [Init; e; e; TimerFires 0; e] (boot [] "proc" "1.0") in
  pendingCount "boom" (errors (this w))
  = if JsRecord.inherited "boom" then 0
    else acceptedIn "boom" [Init; e; e; TimerFires 0; e].
Proof.
  apply (@unconfigured_client_keeps_counting [] "proc" "1.0"
           [Init; AcceptError (errorOf "boom"); AcceptError (errorOf "boom");
            TimerFires 0; AcceptError (errorOf "boom")] "boom").
  left. reflexivity.
Defined.

(** ** Counters and metrics *)







(** ** No job is lost *)

Lemma execute_requests nm job w :
  let w' := fst (fst (execute nm job w)) in
  snd (fst (execute nm job w)) = nextExecution w /\
  snd (execute nm job w) <> Threw /\
  ((snd (execute nm job w) = Returned /\
    requests w' = requests w /\ nextRequest w' = nextRequest w) \/
   (snd (execute nm job w) = Pending /\
    exists k,
      requests w'
      = requests w ++ [(nextRequest w, KJob (nextExecution w) nm k)] /\
      nextRequest w' = S (nextRequest w))).
Proof.
  unfold execute, callJob, _checkVersion, _reportError, _reportCounters,
    _reportMetrics, serialRequests. simpl.
  destruct (JobInfo.cb job); simpl; break; simpl;
    (split; [reflexivity|]); (split; [discriminate|]);
    try (left; repeat split; fail);
    right; (split; [reflexivity|]); eexists; split; reflexivity.
Qed.

Lemma fold_trigger_nextRequest (l : list Listener) w :
  nextRequest (fold_left (fun w cb => _trigger cb w) l w) = nextRequest w.
Proof.
  revert w. induction l as [|a l IH]; intro w; simpl; [reflexivity|].
  now rewrite IH.
Qed.

Lemma fold_listener_nextRequest (l : list Listener) w :
  nextRequest
    (fold_left
       (fun w cb => emit (ListenerCall cb (_versionCheckResult (this w))) w)
       l w)
  = nextRequest w.
Proof.
  revert w. induction l as [|a l IH]; intro w; simpl; [reflexivity|].
  now rewrite IH.
Qed.

Lemma op_requests t w w' : Op t w w' -> RequestChange w w'.
Proof.
  intro H. destruct H;
    try (apply rc_keep; blocks; simpl; break; reflexivity).
  - destruct (execute_requests nm job w)
      as (_ & _ & [(_ & A & B)|(_ & k & A & B)]);
      [now apply rc_keep|now apply rc_add with (k := KJob (nextExecution w) nm k)].
  - destruct (execute_requests nm job w)
      as (_ & _ & [(_ & A & B)|(_ & k & A & B)]);
      [now apply rc_keep|now apply rc_add with (k := KJob (nextExecution w) nm k)].
  - now apply rc_drop with (r := r).
  - now apply rc_drop with (r := r).
  - now apply rc_next with (r := r) (k := KJob x nm (ThenSerial rest)).
  - apply rc_keep; unfold _activateNewVersionInfo; cbv zeta.
    + now rewrite fold_trigger_requests.
    + now rewrite fold_trigger_nextRequest.
  - unfold reportFeedback. destruct (negb _); [now apply rc_keep|].
    now apply rc_add with (k := KHost).
  - destruct (runMicrotasks_trace_gen (microtasks w) (setMicrotasks [] w))
      as (_ & _ & _ & D & _).
    apply rc_keep; [exact D|]. unfold runMicrotasks.
    now rewrite fold_listener_nextRequest.
Qed.

Lemma change_requestIds w w' :
  RequestChange w w' -> requestIds w -> requestIds w'.
Proof.
  intros H (F1 & F2). destruct H as [A B|k A B|r A B|r k A B].
  - unfold requestIds. rewrite A, B. auto.
  - split.
    + intros q Hin. rewrite A in Hin. rewrite B. apply in_app_or in Hin.
      destruct Hin as [Hin|[<-|[]]]; [apply F1 in Hin; lia|simpl; lia].
    + rewrite A, map_app. simpl. apply NoDup_snoc; [exact F2|].
      intro Hin. apply in_map_iff in Hin.
      destruct Hin as (q & E & Hin). apply F1 in Hin. lia.
  - split.
    + intros q Hin. rewrite A in Hin. rewrite B. apply filter_In in Hin.
      apply F1. tauto.
    + rewrite A. retired_by_key. assumption.
  - split.
    + intros q Hin. rewrite A in Hin. rewrite B. apply in_app_or in Hin.
      destruct Hin as [Hin|[<-|[]]]; [|simpl; lia].
      apply filter_In in Hin. destruct Hin as [Hin _]. apply F1 in Hin. lia.
    + rewrite A, map_app. simpl. apply NoDup_snoc;
        [retired_by_key; assumption|].
      intro Hin. apply in_map_iff in Hin.
      destruct Hin as (q & E & Hin). apply filter_In in Hin.
      destruct Hin as [Hin _]. apply F1 in Hin. lia.
Qed.

Lemma _schedule_requestIds w : requestIds w -> requestIds (_schedule w).
Proof.
  destruct (_schedule_frame w) as (_ & _ & _ & _ & A & _).
  assert (B : nextRequest (_schedule w) = nextRequest w)
    by (unfold _schedule, _register; break; reflexivity).
  unfold requestIds. now rewrite A, B.
Qed.

Lemma run_requestIds evs w :
  timerInv w -> requestIds w -> requestIds (run evs w).
Proof.
  revert w. induction evs as [|ev evs IH]; intros w Ht Hr; simpl; [auto|].
  apply IH; [now apply step_timerInv|].
  apply (ops_preserve_all _
           (fun t w w' (H : Op t w w') => change_requestIds (op_requests H))
           (step_ops ev Ht)).
  destruct ev; simpl; auto using _schedule_requestIds.
Qed.

Lemma request_unique w r k k' :
  requestIds w -> In (r, k) (requests w) -> In (r, k') (requests w) -> k = k'.
Proof.
  intros (_ & Hn) H1 H2.
  induction (requests w) as [|q l IH]; simpl in *; [contradiction|].
  inversion Hn as [|? ? Hnotin Hn']; subst.
  destruct H1 as [->|H1], H2 as [E|H2].
  - congruence.
  - exfalso. apply Hnotin. apply in_map_iff. now exists (r, k').
  - subst q. exfalso. apply Hnotin. apply in_map_iff. now exists (r, k).
  - auto.
Qed.

Lemma moves_refl T w : moves T w w.
Proof.
  repeat split; auto using incl_refl; tauto.
Qed.

Lemma moves_weaken (T T' : ReportActions -> bool) w w' :
  (forall n, T n = true -> T' n = true) -> moves T w w' -> moves T' w w'.
Proof.
  intros Hs (A & B & C & D & E & F & G & H).
  assert (X : forall n, T' n = false -> T n = false).
  { intros n Hn. destruct (T n) eqn:Et; [|reflexivity].
    apply Hs in Et. congruence. }
  repeat split; auto; apply B.
Qed.

Lemma hasRequest_incl n w w' :
  incl (requests w) (requests w') -> hasRequest n w -> hasRequest n w'.
Proof. intros Hi (r & x & k & Hin). exists r, x, k. now apply Hi. Qed.

Lemma inFlight_incl x w w' :
  incl (requests w) (requests w') -> inFlight x w -> inFlight x w'.
Proof. intros Hi (r & n & k & Hin). exists r, n, k. now apply Hi. Qed.

Lemma moves_trans T w1 w2 w3 : moves T w1 w2 -> moves T w2 w3 -> moves T w1 w3.
Proof.
  intros (A1 & B1 & C1 & D1 & E1 & F1 & G1 & H1)
         (A2 & B2 & C2 & D2 & E2 & F2 & G2 & H2).
  split; [congruence|]. split; [intro n; rewrite B2; apply B1|].
  split; [intros n Hn; rewrite C2, C1; auto|].
  split; [intros n Hn Ht; apply D2; auto|].
  split; [eapply incl_tran; eauto|]. split; [eapply incl_tran; eauto|].
  split.
  - intros n Hn. destruct (G2 n Hn) as [Hr|Hq]; [|now right].
    destruct (G1 n Hr) as [Hr1|Hq]; [now left|right].
    now apply hasRequest_incl with (w := w2).
  - intros x rest Hin. destruct (H2 x rest Hin) as [Hr|Hq]; [|now right].
    destruct (H1 x rest Hr) as [Hr1|Hq]; [now left|right].
    now apply inFlight_incl with (w := w2).
Qed.

Lemma covered_moves T n w w' :
  moves T w w' -> T n = false -> covered n w -> covered n w'.
Proof.
  intros (_ & _ & C & D & E & _) Hn [Hr|[Ht|(x & rest & Hin & Hm)]].
  - left. now rewrite C.
  - right. left. now apply D.
  - right. right. exists x, rest. split; [now apply E|exact Hm].
Qed.

Lemma covers_step (T T2 : ReportActions -> bool) w1 w2 :
  covers T w1 -> moves T2 w1 w2 -> covers T2 w2 ->
  covers (fun n => T n || T2 n) w2.
Proof.
  intros C1 M C2 Hc n Hn Hj. destruct (T2 n) eqn:E2; [now apply C2|].
  rewrite orb_false_r in Hn. apply covered_moves with (T := T2) (w := w1); auto.
  destruct M as (A & B & _). apply C1; [congruence|exact Hn|now apply B].
Qed.

Lemma covers_ext (T T' : ReportActions -> bool) w :
  (forall n, T' n = true -> T n = true) -> covers T w -> covers T' w.
Proof. intros Hs C Hc n Hn Hj. apply C; auto. Qed.

Lemma moves_scheduleOk T w w' :
  moves T w w' -> covers T w' -> scheduleOk w -> scheduleOk w'.
Proof.
  intros M C (K & Bz & Aw). pose proof M as (A & B & _ & _ & _ & F & G & H).
  split; [|split].
  - intros Hc n Hj. destruct (T n) eqn:Et; [now apply C|].
    apply covered_moves with (T := T) (w := w); auto.
    apply K; [congruence|now apply B].
  - intros n Hn. destruct (G n Hn) as [Hr|Hq]; [|exact Hq].
    apply hasRequest_incl with (w := w); auto.
  - intros x rest Hin. destruct (H x rest Hin) as [Hr|Hq]; [|exact Hq].
    apply inFlight_incl with (w := w); eauto.
Qed.

Lemma frame_moves T w w' :
  closed (this w') = closed (this w) ->
  jobRuntime (this w') = jobRuntime (this w) ->
  (forall n, T n = false ->
     timers (this w) n <> None -> timers (this w') n <> None) ->
  awaiting w' = awaiting w -> requests w' = requests w ->
  moves T w w'.
Proof.
  intros A B C D E. unfold moves, isRunning, hasRequest, inFlight.
  rewrite A, B, D, E. repeat split; auto using incl_refl; tauto.
Qed.

Lemma armTimer_moves nm job w :
  moves (fun _ => false) w (armTimer nm job w) /\
  timers (this (armTimer nm job w)) nm <> None.
Proof.
  unfold armTimer. destruct (timers (this w) nm) as [h|] eqn:E.
  - split; [apply moves_refl|congruence].
  - split.
    + apply frame_moves;
        try (destruct (JobInfo.preScheduleCb job) as [[]|]; reflexivity).
      intros n _ Hn.
      destruct (JobInfo.preScheduleCb job) as [[]|]; simpl; unfold upd;
        destruct (ReportActions_eqb nm n); congruence.
    + destruct (JobInfo.preScheduleCb job) as [[]|]; simpl;
        rewrite upd_same; discriminate.
Qed.

Lemma _runJobLater_moves nm w :
  moves (fun _ => false) w (_runJobLater nm w) /\
  (closed (this w) = false ->
   JobConfig.enabled (jobConfigs (this w) nm) = true ->
   jobs (this w) nm <> None ->
   timers (this (_runJobLater nm w)) nm <> None).
Proof.
  unfold _runJobLater. destruct (closed (this w)); [split; [apply moves_refl|discriminate]|].
  destruct (JobConfig.enabled (jobConfigs (this w) nm)); simpl;
    [|split; [apply moves_refl|discriminate]].
  destruct (jobs (this w) nm) as [job|];
    [|split; [apply moves_refl|congruence]].
  destruct (armTimer_moves nm job w) as [M C]. split; auto.
Qed.

Lemma _stopScheduledJob_moves nm w :
  moves (only nm) w (_stopScheduledJob nm w).
Proof.
  unfold _stopScheduledJob. destruct (timers (this w) nm) as [h|] eqn:E;
    [|apply moves_refl].
  apply frame_moves; try reflexivity.
  intros n Hn Ht. simpl. unfold only in Hn. unfold upd. now rewrite Hn.
Qed.

Lemma setRunning_isRunning nm v n w :
  isRunning n (setRunning nm v w)
  = if ReportActions_eqb nm n then v else isRunning n w.
Proof. apply isRunning_upd. Qed.

Lemma handler_moves nm job w :
  registered w ->
  moves (only nm) w (completion (handler nm job w)) /\
  covers (only nm) (completion (handler nm job w)) /\
  (forall x,
     snd (handler nm job w) = RAwait x ->
     inFlight x (completion (handler nm job w))).
Proof.
  intro Hreg. unfold handler.
  destruct (jobRuntime (this w) nm) as [[running]|] eqn:Hr.
  2:{ simpl. split; [apply moves_refl|]. split; [|discriminate].
      intros Hc n Hn Hj. apply ReportActions_eqb_eq in Hn. subst n.
      congruence. }
  destruct (Hreg nm) as [He Hj]; [congruence|].
  destruct running; simpl.
  - destruct (_runJobLater_moves nm w) as [M C].
    split; [eapply moves_weaken; [|exact M]; discriminate|].
    split; [|discriminate].
    intros Hc n Hn _. apply ReportActions_eqb_eq in Hn. subst n.
    right. left. apply C; auto. destruct M as (A & _). congruence.
  - pose proof (execute_requests nm job w) as (X1 & X2 & X3).
    pose proof (execute_cases nm job w) as (A & _).
    pose proof (execute_frame nm job w)
      as (F1 & F2 & F3 & F4 & _ & _ & F7 & _).
    destruct (execute nm job w) as [[w1 x] res]. simpl in *.
    assert (Hiff : forall n,
               jobRuntime (this w1) n <> None <->
               jobRuntime (this w) n <> None).
    { intro n. rewrite A. unfold upd.
      destruct (ReportActions_eqb nm n) eqn:E; [|tauto].
      apply ReportActions_eqb_eq in E. subst n. rewrite Hr.
      split; discriminate. }
    assert (Hrun : forall n,
               only nm n = false -> isRunning n w1 = isRunning n w).
    { intros n Hn. unfold isRunning. rewrite A. unfold only in Hn.
      unfold upd. now rewrite Hn. }
    destruct res; [contradiction|simpl|simpl].
    + (* returned at once *)
      destruct X3 as [(_ & R1 & _)|(E & _)]; [|discriminate].
      unfold finish. rewrite A, upd_same.
      destruct (_runJobLater_moves nm (setRunning nm false w1)) as [M C].
      assert (M1 : moves (only nm) w (setRunning nm false w1)).
      { split; [exact F3|]. split.
        - intro n. simpl. unfold upd.
          destruct (ReportActions_eqb nm n) eqn:E; [|apply Hiff].
          apply ReportActions_eqb_eq in E. subst n. rewrite Hr.
          split; discriminate.
        - split.
          + intros n Hn. rewrite setRunning_isRunning.
            unfold only in Hn. rewrite Hn. now apply Hrun.
          + split; [intros n _; simpl; now rewrite F4|].
            split; [simpl; rewrite F7; apply incl_refl|].
            split; [simpl; rewrite R1; apply incl_refl|].
            split.
            * intros n Hn. rewrite setRunning_isRunning in Hn.
              destruct (ReportActions_eqb nm n) eqn:E; [discriminate|].
              left. rewrite <- Hn. symmetry. now apply Hrun.
            * intros x0 rest Hin. left. simpl in Hin. now rewrite F7 in Hin. }
      split.
      * eapply moves_trans; [exact M1|].
        eapply moves_weaken; [|exact M]. discriminate.
      * split; [|discriminate].
        intros Hc n Hn _. apply ReportActions_eqb_eq in Hn. subst n.
        right. left. destruct M as (Mc & _). apply C.
        -- rewrite <- Mc. exact Hc.
        -- simpl. now rewrite F2.
        -- simpl. now rewrite F1.
    + (* waiting for the transport *)
      destruct X3 as [(E & _)|(_ & k & R1 & _)]; [discriminate|].
      assert (Q : In (nextRequest w, KJob (nextExecution w) nm k)
                    (requests w1))
        by (rewrite R1; apply in_or_app; right; left; reflexivity).
      split.
      * split; [exact F3|]. split; [exact Hiff|]. split; [exact Hrun|].
        split; [intros n _; now rewrite F4|].
        split; [rewrite F7; apply incl_refl|].
        split; [rewrite R1; apply incl_appl, incl_refl|].
        split.
        -- intros n Hn. destruct (ReportActions_eqb nm n) eqn:E.
           ++ apply ReportActions_eqb_eq in E. subst n. right.
              now exists (nextRequest w), (nextExecution w), k.
           ++ left. rewrite <- Hn. symmetry. now apply Hrun.
        -- intros x0 rest Hin. left. now rewrite F7 in Hin.
      * split.
        -- intros Hc n Hn _. apply ReportActions_eqb_eq in Hn. subst n.
           left. unfold isRunning. rewrite A, upd_same. reflexivity.
        -- intros x0 [= <-]. subst x.
           now exists (nextRequest w), nm, k.
Qed.

Lemma ops_registered allow w w' :
  Ops allow w w' -> registered w -> registered w'.
Proof. apply ops_preserve_all. apply op_registered. Qed.

Lemma finish_moves nm w :
  registered w ->
  moves (only nm) w (finish nm w) /\ covers (only nm) (finish nm w) /\
  isRunning nm (finish nm w) = false.
Proof.
  intro Hreg. unfold finish.
  destruct (jobRuntime (this w) nm) as [rt|] eqn:Hr.
  2:{ split; [apply moves_refl|]. split.
      - intros Hc n Hn Hj. apply ReportActions_eqb_eq in Hn. subst n.
        congruence.
      - unfold isRunning. now rewrite Hr. }
  destruct (Hreg nm) as [He Hj]; [congruence|].
  destruct (_runJobLater_moves nm (setRunning nm false w)) as [M C].
  assert (M1 : moves (only nm) w (setRunning nm false w)).
  { split; [reflexivity|]. split.
    - intro n. simpl. unfold upd.
      destruct (ReportActions_eqb nm n) eqn:E; [|tauto].
      apply ReportActions_eqb_eq in E. subst n. rewrite Hr.
      split; discriminate.
    - split.
      + intros n Hn. rewrite setRunning_isRunning.
        unfold only in Hn. now rewrite Hn.
      + split; [intros n _ Ht; exact Ht|].
        split; [apply incl_refl|]. split; [apply incl_refl|].
        split.
        * intros n Hn. rewrite setRunning_isRunning in Hn.
          destruct (ReportActions_eqb nm n) eqn:E; [discriminate|].
          now left.
        * intros x0 rest Hin. now left. }
  split; [|split].
  - eapply moves_trans; [exact M1|].
    eapply moves_weaken; [|exact M]. discriminate.
  - intros Hc n Hn _. apply ReportActions_eqb_eq in Hn. subst n.
    right. left. destruct M as (Mc & _). apply C; auto.
    rewrite <- Mc. exact Hc.
  - destruct M as (_ & _ & Mr & _). rewrite Mr by reflexivity.
    rewrite setRunning_isRunning. now rewrite ReportActions_eqb_refl.
Qed.

Lemma _runJob_moves nm now w :
  registered w ->
  moves (only nm) w (completion (_runJob nm now w)) /\
  covers (only nm) (completion (_runJob nm now w)) /\
  (forall x,
     snd (_runJob nm now w) = RAwait x ->
     inFlight x (completion (_runJob nm now w))).
Proof.
  intro Hreg. unfold _runJob.
  destruct (closed (this w)) eqn:Hc.
  { simpl. split; [apply moves_refl|]. split; [|discriminate].
    intros Hc'. congruence. }
  destruct (JobConfig.enabled (jobConfigs (this w) nm)) eqn:He; simpl.
  2:{ split; [apply moves_refl|]. split; [|discriminate].
      intros _ n Hn Hj. apply ReportActions_eqb_eq in Hn. subst n.
      apply Hreg in Hj. destruct Hj. congruence. }
  destruct (jobs (this w) nm) as [job|] eqn:Hj.
  2:{ simpl. split; [apply moves_refl|]. split; [|discriminate].
      intros _ n Hn Hj'. apply ReportActions_eqb_eq in Hn. subst n.
      apply Hreg in Hj'. destruct Hj'. congruence. }
  destruct now.
  - assert (Hreg' : registered (_stopScheduledJob nm w)).
    { eapply op_registered; [apply (@op_stop nm w Hc)|exact Hreg]. }
    destruct (handler_moves nm job Hreg') as (M & C & R).
    split; [|split; assumption].
    eapply moves_trans; [apply _stopScheduledJob_moves|exact M].
  - simpl. destruct (armTimer_moves nm job w) as [M C].
    split; [eapply moves_weaken; [|exact M]; discriminate|].
    split; [|discriminate].
    intros _ n Hn _. apply ReportActions_eqb_eq in Hn. subst n.
    right. left. exact C.
Qed.

Lemma among_cons nm names n :
  among (nm :: names) n = only nm n || among names n.
Proof. reflexivity. Qed.

Lemma among_In names n : among names n = true <-> In n names.
Proof.
  unfold among. rewrite existsb_exists. split.
  - intros (nm & Hin & E). apply ReportActions_eqb_eq in E. now subst.
  - intro Hin. exists n. split; [exact Hin|apply ReportActions_eqb_refl].
Qed.

Lemma serialJobs_moves names w :
  registered w ->
  moves (among names) w (serialJobs names w) /\
  covers (among names) (serialJobs names w).
Proof.
  revert w. induction names as [|nm rest IH]; intros w Hreg; simpl.
  { split; [apply moves_refl|]. intros _ n Hn. discriminate. }
  pose proof (@_runJob_moves nm
                (JobConfig.shouldStartImmediately (jobConfigs (this w) nm))
                w Hreg) as (M & C & R).
  assert (Hreg1 : registered
            (completion
               (_runJob nm
                  (JobConfig.shouldStartImmediately (jobConfigs (this w) nm))
                  w)))
    by (eapply ops_registered; [apply _runJob_ops|exact Hreg]).
  destruct (_runJob nm
              (JobConfig.shouldStartImmediately (jobConfigs (this w) nm)) w)
    as [w1 res].
  assert (Go : moves (among (nm :: rest)) w
                 (serialJobs rest (completion (w1, res))) /\
               covers (among (nm :: rest))
                 (serialJobs rest (completion (w1, res)))).
  { destruct (IH _ Hreg1) as [M2 C2]. split.
    - eapply moves_trans.
      + eapply moves_weaken; [|exact M]. intros n Hn.
        rewrite among_cons, Hn. reflexivity.
      + eapply moves_weaken; [|exact M2]. intros n Hn.
        rewrite among_cons, Hn. apply orb_true_r.
    - apply covers_step with (w1 := completion (w1, res)); assumption. }
  destruct res as [| |x|nm']; simpl in *; try exact Go.
  clear Go. specialize (R x eq_refl).
  assert (M2 : moves (fun _ => false) w1
                 (setAwaiting (awaiting w1 ++ [(x, rest)]) w1)).
  { split; [reflexivity|]. split; [tauto|].
    split; [reflexivity|]. split; [auto|].
    split; [simpl; apply incl_appl, incl_refl|].
    split; [apply incl_refl|]. split; [now left|].
    intros x0 rest0 Hin. simpl in Hin. apply in_app_or in Hin.
    destruct Hin as [Hin|[[= <- <-]|[]]]; [now left|right; exact R]. }
  split.
  - eapply moves_trans.
    + eapply moves_weaken; [|exact M]. intros n Hn.
      rewrite among_cons, Hn. reflexivity.
    + eapply moves_weaken; [|exact M2]. discriminate.
  - intros Hc n Hn Hj. rewrite among_cons in Hn.
    destruct (only nm n) eqn:E.
    + apply covered_moves with (T := fun _ : ReportActions => false) (w := w1);
        auto.
    + simpl in Hn. apply among_In in Hn. right. right. exists x, rest.
      split; [simpl; apply in_or_app; right; now left|exact Hn].
Qed.

Lemma fold_serialJobs_moves (mine : list (nat * list ReportActions)) w :
  registered w ->
  let w' := fold_left (fun w a => serialJobs (snd a) w) mine w in
  moves (among (concat (map snd mine))) w w' /\
  covers (among (concat (map snd mine))) w'.
Proof.
  revert w. induction mine as [|[x rest] mine IH]; intros w Hreg; simpl.
  { split; [apply moves_refl|]. intros _ n Hn. discriminate. }
  destruct (serialJobs_moves rest Hreg) as [M1 C1].
  assert (Hreg1 : registered (serialJobs rest w))
    by (eapply ops_registered; [apply serialJobs_ops|exact Hreg]).
  destruct (IH _ Hreg1) as [M2 C2]. split.
  - eapply moves_trans.
    + eapply moves_weaken; [|exact M1]. intros n Hn.
      apply among_In. apply in_or_app. left. now apply among_In.
    + eapply moves_weaken; [|exact M2]. intros n Hn.
      apply among_In. apply in_or_app. right. now apply among_In.
  - eapply covers_ext; [|eapply covers_step; [exact C1|exact M2|exact C2]].
    intros n Hn. simpl. apply among_In in Hn. apply in_app_or in Hn.
    destruct Hn as [Hn|Hn]; apply among_In in Hn; rewrite Hn;
      auto using orb_true_r.
Qed.

Lemma scheduleOk_frame w w' :
  closed (this w') = closed (this w) ->
  jobRuntime (this w') = jobRuntime (this w) ->
  timers (this w') = timers (this w) ->
  awaiting w' = awaiting w -> incl (requests w) (requests w') ->
  scheduleOk w -> scheduleOk w'.
Proof.
  intros A B C D E (K & Bz & Aw). split; [|split].
  - unfold kept, covered, isRunning. rewrite A, B, C, D. exact K.
  - intros n Hn. apply hasRequest_incl with (w := w); [exact E|].
    apply Bz. unfold isRunning in *. now rewrite <- B.
  - intros x rest Hin. apply inFlight_incl with (w := w); [exact E|].
    apply Aw with (rest := rest). now rewrite <- D.
Qed.

Lemma dropRequest_keeps r x nm k w q :
  requestIds w -> In (r, KJob x nm k) (requests w) ->
  In q (requests w) -> snd q <> KJob x nm k ->
  In q (requests (dropRequest r w)).
Proof.
  intros Hid Hr Hq Hne. simpl. apply filter_In. split; [exact Hq|].
  destruct q as [r' k']. simpl in *.
  destruct (Nat.eqb r' r) eqn:E; [|reflexivity].
  apply Nat.eqb_eq in E. subst r'. exfalso. apply Hne.
  exact (@request_unique w r k' (KJob x nm k) Hid Hq Hr).
Qed.

Lemma bodySettled_scheduleOk r x nm k w :
  registered w -> requestIds w -> In (r, KJob x nm k) (requests w) ->
  scheduleOk w -> scheduleOk (bodySettled r x nm w).
Proof.
  intros Hreg Hid Hr (K & Bz & Aw). unfold bodySettled, resume.
  set (w1 := dropRequest r w).
  assert (Hreg1 : registered w1)
    by (apply registered_frame with (w := w); auto).
  destruct (finish_moves nm Hreg1) as (M1 & C1 & R1).
  assert (Hreg2 : registered (finish nm w1)).
  { unfold finish. destruct (jobRuntime (this w1) nm) eqn:Hj; [|exact Hreg1].
    eapply ops_registered; [apply _runJobLater_ops|].
    apply registered_setRunning; [congruence|exact Hreg1]. }
  remember (finish nm w1) as w2 eqn:E2. clear E2.
  set (mine := filter (fun a => Nat.eqb (fst a) x) (awaiting w2)).
  set (others := filter (fun a => negb (Nat.eqb (fst a) x)) (awaiting w2)).
  assert (Hreg2' : registered (setAwaiting others w2))
    by (apply registered_frame with (w := w2); auto).
  pose proof (fold_serialJobs_moves mine Hreg2') as M2. cbv zeta in M2.
  destruct M2 as (M2 & C2).
  remember (fold_left (fun w a => serialJobs (snd a) w) mine
              (setAwaiting others w2)) as w3 eqn:E3. clear E3.
  pose proof M1 as (A1 & B1 & _ & _ & _ & F1 & G1 & H1).
  pose proof M2 as (A2 & B2 & _ & _ & _ & F2 & G2 & H2).
  simpl in A1, A2, B1, B2, F2.
  split; [|split].
  - intros Hc n Hj.
    destruct (among (concat (map snd mine)) n) eqn:Et; [now apply C2|].
    apply covered_moves with (T := among (concat (map snd mine)))
                             (w := setAwaiting others w2); auto.
    assert (Hcov : covered n w2).
    { destruct (only nm n) eqn:En.
      - apply C1; [congruence|exact En|now apply B2].
      - apply covered_moves with (T := only nm) (w := w1); auto.
        apply (K ltac:(congruence) n). apply B1. now apply B2. }
    destruct Hcov as [Hrun|[Ht|(x' & rest & Hin & Hm)]];
      [now left|right; now left|].
    destruct (Nat.eqb x' x) eqn:Ex.
    + exfalso. assert (In n (concat (map snd mine))).
      { apply in_concat. exists rest. split; [|exact Hm].
        apply in_map_iff. exists (x', rest). split; [reflexivity|].
        apply filter_In. now split. }
      apply among_In in H. congruence.
    + right. right. exists x', rest. split; [|exact Hm].
      simpl. apply filter_In. split; [exact Hin|]. simpl. now rewrite Ex.
  - intros n Hn. destruct (G2 n Hn) as [Hrun|Hq]; [|exact Hq].
    apply hasRequest_incl with (w := w2); [exact F2|].
    change (isRunning n w2 = true) in Hrun.
    destruct (G1 n Hrun) as [Hrun1|Hq]; [|exact Hq].
    apply hasRequest_incl with (w := w1); [exact F1|].
    change (isRunning n w = true) in Hrun1.
    destruct (Bz n Hrun1) as (r' & x' & k' & Hin).
    exists r', x', k'.
    apply dropRequest_keeps with (x := x) (nm := nm) (k := k); auto.
    simpl. intros [= _ -> _]. congruence.
  - intros x' rest Hin. destruct (H2 x' rest Hin) as [Ho|Hq]; [|exact Hq].
    apply inFlight_incl with (w := w2); [exact F2|].
    simpl in Ho. apply filter_In in Ho. destruct Ho as [Ho Hx]. simpl in Hx.
    destruct (H1 x' rest Ho) as [Ho1|Hq]; [|exact Hq].
    apply inFlight_incl with (w := w1); [exact F1|].
    change (In (x', rest) (awaiting w)) in Ho1.
    destruct (Aw x' rest Ho1) as (r' & n' & k' & Hin').
    exists r', n', k'.
    apply dropRequest_keeps with (x := x) (nm := nm) (k := k); auto.
    simpl. intros [= -> _ _]. rewrite Nat.eqb_refl in Hx. discriminate.
Qed.

Lemma _activateNewVersionInfo_same items w :
  let w' := _activateNewVersionInfo items w in
  closed (this w') = closed (this w) /\
  jobRuntime (this w') = jobRuntime (this w) /\
  jobs (this w') = jobs (this w) /\
  jobConfigs (this w') = jobConfigs (this w) /\
  timers (this w') = timers (this w) /\
  awaiting w' = awaiting w /\ requests w' = requests w /\
  nextRequest w' = nextRequest w.
Proof.
  unfold _activateNewVersionInfo.
  match goal with |- context [fold_left ?f ?l ?W] =>
    destruct (fold_trigger_gen l W) as (A & _ & _ & D & E & _);
    pose proof (fold_trigger_nextRequest l W) as N;
    remember (fold_left f l W) as F eqn:EF end.
  clear EF. cbv zeta. rewrite A, D, E, N. repeat split.
Qed.

Lemma httpSettles_scheduleOk r o w :
  registered w -> requestIds w -> scheduleOk w ->
  scheduleOk (httpSettles r o w).
Proof.
  intros Hreg Hid Hok. unfold httpSettles.
  destruct (findRequest r (requests w)) as [[x nm body|]|] eqn:Hf;
    [| |exact Hok].
  - apply findRequest_In in Hf.
    assert (Plain : scheduleOk (bodySettled r x nm w))
      by (now apply bodySettled_scheduleOk with (k := body)).
    destruct o as [|data]; [exact Plain|].
    destruct body as [|[|next rest]|]; try exact Plain.
    + destruct data as [items|]; [|exact Plain].
      pose proof (_activateNewVersionInfo_same items w) as S.
      cbv zeta in S. destruct S as (A & B & C & D & E & F & G & N).
      apply bodySettled_scheduleOk with (k := ThenActivate).
      * apply registered_frame with (w := w); auto.
      * unfold requestIds. now rewrite G, N.
      * now rewrite G.
      * apply scheduleOk_frame with (w := w); auto.
        rewrite G. apply incl_refl.
    + (* the next payload of the batch leaves *)
      destruct Hok as (K & Bz & Aw). split; [|split].
      * exact K.
      * intros n Hn. change (isRunning n w = true) in Hn.
        destruct (Bz n Hn) as (r' & x' & k' & Hin).
        destruct (ReportActions_eqb nm n) eqn:E.
        -- apply ReportActions_eqb_eq in E. subst n.
           exists (nextRequest w), x, (ThenSerial rest). simpl.
           apply in_or_app. right. now left.
        -- exists r', x', k'. simpl. apply in_or_app. left.
           apply (@dropRequest_keeps r x nm (ThenSerial (next :: rest)) w
                    (r', KJob x' n k') Hid Hf Hin).
           simpl. intros [= _ -> _]. rewrite ReportActions_eqb_refl in E.
           discriminate.
      * intros x' rest' Hin. change (In (x', rest') (awaiting w)) in Hin.
        destruct (Aw x' rest' Hin) as (r' & n' & k' & Hin').
        destruct (Nat.eqb x x') eqn:E.
        -- apply Nat.eqb_eq in E. subst x'.
           exists (nextRequest w), nm, (ThenSerial rest). simpl.
           apply in_or_app. right. now left.
        -- exists r', n', k'. simpl. apply in_or_app. left.
           apply (@dropRequest_keeps r x nm (ThenSerial (next :: rest)) w
                    (r', KJob x' n' k') Hid Hf Hin').
           simpl. intros [= -> _ _]. rewrite Nat.eqb_refl in E.
           discriminate.
  - (* a request of the host *)
    apply findRequest_In in Hf.
    destruct Hok as (K & Bz & Aw). split; [|split].
    + exact K.
    + intros n Hn. change (isRunning n w = true) in Hn.
      destruct (Bz n Hn) as (r' & x' & k' & Hin).
      exists r', x', k'. simpl. apply filter_In. split; [exact Hin|].
      simpl. destruct (Nat.eqb r' r) eqn:E; [|reflexivity].
      apply Nat.eqb_eq in E. subst r'.
      pose proof (@request_unique w r _ _ Hid Hin Hf). discriminate.
    + intros x' rest' Hin. change (In (x', rest') (awaiting w)) in Hin.
      destruct (Aw x' rest' Hin) as (r' & n' & k' & Hin').
      exists r', n', k'. simpl. apply filter_In. split; [exact Hin'|].
      simpl. destruct (Nat.eqb r' r) eqn:E; [|reflexivity].
      apply Nat.eqb_eq in E. subst r'.
      pose proof (@request_unique w r _ _ Hid Hin' Hf). discriminate.
Qed.

Lemma timerFires_scheduleOk h w :
  registered w -> scheduleOk w -> scheduleOk (timerFires h w).
Proof.
  intros Hreg Hok. unfold timerFires, timerCallback.
  destruct (findTimeout h (timeouts w)) as [t|] eqn:Ef; [|exact Hok].
  set (w1 := onThis
               (fun c => setTimers (upd (timers c) (Timeout.name t) None) c)
               (expire h w)).
  assert (Hreg1 : registered w1)
    by (apply registered_frame with (w := w); auto).
  destruct (handler_moves (Timeout.name t) (Timeout.job t) Hreg1)
    as (M & C & _).
  apply moves_scheduleOk with (T := only (Timeout.name t)) (w := w);
    [|exact C|exact Hok].
  eapply moves_trans; [|exact M].
  apply frame_moves; try reflexivity.
  intros n Hn Ht. simpl. unfold only in Hn. unfold upd. now rewrite Hn.
Qed.

Lemma acceptError_scheduleOk error w :
  registered w -> scheduleOk w -> scheduleOk (completion (acceptError error w)).
Proof.
  intros Hreg Hok. unfold acceptError.
  pose proof (recordError_keeps error w) as S. cbv zeta in S.
  destruct S as (A & B & C & D & E & _ & _ & G & _).
  assert (F : awaiting (recordError error w) = awaiting w).
  { unfold recordError. simpl.
    destruct (JsRecord.get (_getErrorString error) (errors (this w)));
      [|destruct (JsRecord.inherited (_getErrorString error))]; reflexivity. }
  remember (recordError error w) as w1 eqn:E1. clear E1.
  assert (Hok1 : scheduleOk w1).
  { apply scheduleOk_frame with (w := w); auto. rewrite G. apply incl_refl. }
  assert (Hreg1 : registered w1)
    by (apply registered_frame with (w := w); auto).
  destruct (isFirstErrorReported (this w1)); simpl; [exact Hok1|].
  set (w2 := onThis (setIsFirstErrorReported true) w1).
  assert (Hreg2 : registered w2)
    by (apply registered_frame with (w := w1); auto).
  destruct (@_runJob_moves ReportError true w2 Hreg2) as (M & Cv & _).
  apply moves_scheduleOk with (T := only ReportError) (w := w2);
    [exact M|exact Cv|].
  apply scheduleOk_frame with (w := w1); auto. apply incl_refl.
Qed.

Lemma _register_running nm cb pre w n :
  isRunning n (_register nm cb pre w) = true -> isRunning n w = true.
Proof.
  unfold _register.
  destruct (JobConfig.enabled (jobConfigs (this w) nm)); simpl; [|auto].
  unfold isRunning. simpl. unfold upd.
  destruct (ReportActions_eqb nm n); [discriminate|auto].
Qed.

Lemma among_allJobs n : among allJobs n = true.
Proof. destruct n; reflexivity. Qed.

Lemma init_scheduleOk w :
  registered w -> scheduleOk w -> scheduleOk (init w).
Proof.
  intros Hreg (_ & Bz & Aw). unfold init.
  pose proof (_schedule_frame w) as (A & _ & _ & _ & B & _ & _ & C & _ & D).
  assert (Hreg1 : registered (_schedule w)) by now apply _schedule_registered.
  assert (Bz1 : busyOk (_schedule w)).
  { intros n Hn. unfold hasRequest. rewrite B. apply Bz.
    unfold _schedule in Hn. now repeat apply _register_running in Hn. }
  assert (Aw1 : awaitLive (_schedule w)).
  { intros x rest Hin. unfold inFlight. rewrite B. apply Aw with (rest := rest).
    now rewrite <- C. }
  destruct (serialJobs_moves allJobs Hreg1) as (M & Cv).
  remember (_schedule w) as w1 eqn:E1. clear E1.
  pose proof M as (_ & _ & _ & _ & _ & F & G & H).
  split; [|split].
  - intros Hc n Hj. apply Cv; auto using among_allJobs.
  - intros n Hn. destruct (G n Hn) as [Hr|Hq]; [|exact Hq].
    apply hasRequest_incl with (w := w1); auto.
  - intros x rest Hin. destruct (H x rest Hin) as [Hr|Hq]; [|exact Hq].
    apply inFlight_incl with (w := w1); eauto.
Qed.

Lemma step_scheduleOk ev w :
  registered w -> requestIds w -> scheduleOk w -> scheduleOk (step ev w).
Proof.
  intros Hreg Hid Hok. unfold step.
  assert (D : scheduleOk (dispatch ev w)).
  { destruct ev; simpl.
    - now apply init_scheduleOk.
    - destruct (close_frame w) as (A & _ & B & _).
      destruct (close_effects w) as (C & _).
      destruct Hok as (_ & Bz & Aw). split; [|split].
      + intro Hc. rewrite close_closed in Hc. discriminate.
      + intros n Hn. unfold hasRequest. rewrite B. apply Bz.
        unfold isRunning in *. now rewrite A in Hn.
      + intros x rest Hin. unfold inFlight. rewrite B.
        apply Aw with (rest := rest). now rewrite <- C.
    - now apply acceptError_scheduleOk.
    - apply scheduleOk_frame with (w := w); auto. apply incl_refl.
    - apply scheduleOk_frame with (w := w); auto. apply incl_refl.
    - unfold reportFeedback. destruct (truthy (id (this w))); simpl;
        [|exact Hok].
      apply scheduleOk_frame with (w := w); auto.
      simpl. apply incl_appl, incl_refl.
    - apply scheduleOk_frame with (w := w); auto. apply incl_refl.
    - now apply timerFires_scheduleOk.
    - now apply httpSettles_scheduleOk. }
  destruct (runMicrotasks_trace_gen (microtasks (dispatch ev w))
              (setMicrotasks [] (dispatch ev w))) as (A & _ & _ & B & C & _).
  unfold runMicrotasks.
  apply scheduleOk_frame with (w := dispatch ev w); auto;
    try (rewrite A; reflexivity).
  rewrite B. apply incl_refl.
Qed.

Lemma run_scheduleOk evs w :
  sound w -> requestIds w -> scheduleOk w -> scheduleOk (run evs w).
Proof.
  revert w. induction evs as [|ev evs IH]; intros w Hs Hid Hok; simpl;
    [exact Hok|].
  apply IH.
  - now apply step_sound.
  - apply (@run_requestIds [ev] w); [apply Hs|exact Hid].
  - apply step_scheduleOk; [apply Hs|exact Hid|exact Hok].
Qed.

Lemma boot_scheduleOk penv n v : scheduleOk (boot penv n v).
Proof.
  split; [|split].
  - intros _ nm Hj. now contradiction Hj.
  - intros nm Hn. discriminate.
  - intros x rest [].
Qed.

Lemma reachable_scheduleOk penv n v evs :
  requestIds (run evs (boot penv n v)) /\ scheduleOk (run evs (boot penv n v)).
Proof.
  assert (Hid : requestIds (boot penv n v))
    by (split; [intros q []|constructor]).
  split.
  - apply run_requestIds; [apply boot_sound|exact Hid].
  - apply run_scheduleOk; [apply boot_sound|exact Hid|apply boot_scheduleOk].
Qed.

Lemma In_findRequest (l : list (nat * Continuation)) r k :
  NoDup (map fst l) -> In (r, k) l -> findRequest r l = Some k.
Proof.
  induction l as [|[r' k'] l IH]; simpl; [contradiction|].
  intros Hn [E|Hin].
  - inversion E; subst. now rewrite Nat.eqb_refl.
  - inversion Hn as [|? ? Hnotin Hn']; subst.
    destruct (Nat.eqb r' r) eqn:E; [|auto].
    apply Nat.eqb_eq in E. subst. exfalso. apply Hnotin.
    apply in_map_iff. now exists (r, k).
Qed.

Lemma op_keeps_runtime t w w' nm :
  Op t w w' -> jobRuntime (this w) nm <> None ->
  jobRuntime (this w') nm <> None.
Proof.
  intros H Hj. destruct (op_jobRuntime H) as [E|(j & v & _ & E)]; rewrite E;
    [exact Hj|].
  unfold upd. destruct (ReportActions_eqb j nm); [discriminate|exact Hj].
Qed.

Lemma _register_keeps_runtime nm cb pre w n :
  jobRuntime (this w) n <> None ->
  jobRuntime (this (_register nm cb pre w)) n <> None.
Proof.
  intro Hj. unfold _register.
  destruct (JobConfig.enabled (jobConfigs (this w) nm)); simpl; [|exact Hj].
  unfold upd. destruct (ReportActions_eqb nm n); [discriminate|exact Hj].
Qed.

Lemma _register_runtime nm cb pre w :
  JobConfig.enabled (jobConfigs (this w) nm) = true ->
  jobRuntime (this (_register nm cb pre w)) nm <> None.
Proof.
  intro He. unfold _register. rewrite He. simpl. rewrite upd_same.
  discriminate.
Qed.

Lemma _schedule_runtime w nm :
  JobConfig.enabled (jobConfigs (this w) nm) = true ->
  jobRuntime (this (_schedule w)) nm <> None.
Proof.
  intro He. unfold _schedule.
  assert (R : forall n cb pre w0,
             jobConfigs (this (_register n cb pre w0)) = jobConfigs (this w0))
    by (intros; unfold _register; break; reflexivity).
  cbv zeta. destruct nm.
  - do 3 apply _register_keeps_runtime. now apply _register_runtime.
  - do 2 apply _register_keeps_runtime. apply _register_runtime.
    now rewrite !R.
  - apply _register_keeps_runtime. apply _register_runtime.
    now rewrite !R.
  - apply _register_runtime. now rewrite !R.
Qed.

Lemma step_keeps_runtime ev w nm :
  timerInv w -> jobRuntime (this w) nm <> None ->
  jobRuntime (this (step ev w)) nm <> None.
Proof.
  intros Ht Hj.
  apply (ops_preserve_all (fun w => jobRuntime (this w) nm <> None)
           (fun t w w' (H : Op t w w') => @op_keeps_runtime t w w' nm H)
           (step_ops ev Ht)).
  destruct ev; simpl; auto.
  unfold _schedule. cbv zeta. now do 4 apply _register_keeps_runtime.
Qed.

Lemma run_keeps_runtime evs w nm :
  timerInv w -> jobRuntime (this w) nm <> None ->
  jobRuntime (this (run evs w)) nm <> None.
Proof.
  revert w. induction evs as [|ev evs IH]; intros w Ht Hj; simpl; [exact Hj|].
  apply IH; [now apply step_timerInv|now apply step_keeps_runtime].
Qed.

Lemma init_registers_enabled evs w nm :
  timerInv w -> In Init evs ->
  JobConfig.enabled (jobConfigs (this w) nm) = true ->
  jobRuntime (this (run evs w)) nm <> None.
Proof.
  revert w. induction evs as [|ev evs IH]; intros w Ht Hin He; simpl;
    [contradiction|].
  destruct Hin as [->|Hin].
  - apply run_keeps_runtime; [now apply step_timerInv|].
    apply (ops_preserve_all (fun w => jobRuntime (this w) nm <> None)
             (fun t w w' (H : Op t w w') => @op_keeps_runtime t w w' nm H)
             (step_ops Init Ht)).
    simpl. now apply _schedule_runtime.
  - apply IH; [now apply step_timerInv|exact Hin|].
    destruct (step_sameSetup ev Ht) as (A & _). now rewrite A.
Qed.

(** X8.  No enabled job is lost.  Once [init] has run, each enabled job of a
    client that is not closed is, after any events, in one of three states:
    its body is running and a request of it is out; a live timeout of it is
    pending; or the loop of [init] has it ahead, waiting for an execution
    that has a request out.  So a timer or a response of the transport
    always leads to its next run. *)
Theorem enabled_job_is_never_lost penv n v evs nm :
  In Init evs ->
  JobConfig.enabled (jobConfigs (constructor penv n v) nm) = true ->
  let w := run evs (boot penv n v) in
  closed (this w) = false ->
  (isRunning nm w = true /\ hasRequest nm w) \/
  (exists t, In t (timeouts w) /\ Timeout.name t = nm) \/
  (exists x rest, In (x, rest) (awaiting w) /\ In nm rest /\ inFlight x w).
Proof.
  intros Hin He w Hc.
  assert (Hs : sound (boot penv n v)) by apply boot_sound.
  assert (Hj : jobRuntime (this w) nm <> None)
    by (apply init_registers_enabled; [apply Hs|exact Hin|exact He]).
  assert (Hok : scheduleOk w).
  { apply run_scheduleOk; [exact Hs| |apply boot_scheduleOk].
    split; [intros q []|constructor]. }
  destruct (reachable_timerBook penv n v evs) as (_ & Hl & _).
  destruct Hok as (K & Bz & Aw).
  destruct (K Hc nm Hj) as [Hr|[Ht|(x & rest & Ha & Hm)]].
  - left. split; [exact Hr|now apply Bz].
  - right. left. fold w in Hl.
    destruct (timers (this w) nm) as [h|] eqn:E; [|congruence].
    destruct (Hl nm h E) as (t & T1 & T2 & _). now exists t.
  - right. right. exists x, rest. repeat split; auto.
    now apply Aw with (rest := rest).
Qed.

Lemma enabled_job_is_never_lost_witness :
  let w := run [Init; AcceptError (errorOf "boom")] sampleWorld in
  (isRunning ReportError w = true /\ hasRequest ReportError w) \/
  (exists t, In t (timeouts w) /\ Timeout.name t = ReportError) \/
  (exists x rest,
     In (x, rest) (awaiting w) /\ In ReportError rest /\ inFlight x w).
Proof.
  apply (@enabled_job_is_never_lost sampleEnv "proc" "1.0"
           [Init; AcceptError (errorOf "boom")] ReportError);
    [left; reflexivity|reflexivity|reflexivity].
Defined.

(** ** The end of every body *)

(** C7, as the code has it.  A body ends in one of two ways, and either way
    the turn ends with the job's running flag down and the job registered
    and configured as before.
    When the last request of the body settles, with success or with
    failure, no body is started, and on an open client the job then has a
    timer: the one that was pending, armed by a trigger that found the job
    running, or else one fresh timer for the job's interval, armed in this
    turn; on a closed client no timer is armed.
    When the body returns at once, which is the error job with nothing to
    send, started by its timer or by [acceptError], the handler returns
    with the running flag up and no timer; the last link of its promise
    chain, run in the same turn, lowers the flag, and one fresh timer is
    armed for the job's interval.
    There is no third way: between turns a job whose running flag is up has
    a request out, the one whose settlement ends or continues its body. *)
Theorem settled_body_rearms_unless_armed penv n v evs :
  let w := run evs (boot penv n v) in
  (forall r x job k outcome,
     findRequest r (requests w) = Some (KJob x job k) ->
     endsBody k outcome = true ->
     let w' := step (HttpSettles r outcome) w in
     isRunning job w' = false /\ started w' = started w /\
     jobs (this w') = jobs (this w) /\
     jobConfigs (this w') = jobConfigs (this w) /\
     rearmed job w w') /\
  (forall h t,
     findTimeout h (timeouts w) = Some t ->
     Timeout.name t = ReportError ->
     jobRuntime (this w) ReportError = Some (JobRuntime.make false) ->
     errors (this w) = [] ->
     let p := timerCallback ReportError (Timeout.job t) (expire h w) in
     let w' := step (TimerFires h) w in
     snd p = RCompleting ReportError /\
     trace (fst p) = BodyStart ReportError :: trace w /\
     isRunning ReportError (fst p) = true /\
     timers (this (fst p)) ReportError = None /\
     dispatch (TimerFires h) w = finish ReportError (fst p) /\
     completedAtOnce ReportError w w') /\
  (forall error,
     isFirstErrorReported (this w) = false ->
     closed (this w) = false ->
     jobRuntime (this w) ReportError = Some (JobRuntime.make false) ->
     errors (this w) = [] ->
     JsRecord.inherited (_getErrorString error) = true ->
     let p := acceptError error w in
     let w' := step (AcceptError error) w in
     snd p = RCompleting ReportError /\
     trace (fst p)
     = BodyStart ReportError :: cleared w
         ++ ErrorAccepted (_getErrorString error) :: trace w /\
     isRunning ReportError (fst p) = true /\
     timers (this (fst p)) ReportError = None /\
     dispatch (AcceptError error) w = finish ReportError (fst p) /\
     completedAtOnce ReportError w w') /\
  (forall job,
     isRunning job w = true ->
     exists r x k, findRequest r (requests w) = Some (KJob x job k)).
Proof.
  intro w.
  destruct (reachable_facts penv n v evs)
    as (((_ & Hq) & Hreg & _) & Hjobs & Hc & Hreq & Ha & _).
  destruct (reachable_timerBook penv n v evs) as (_ & _ & _ & Hto).
  destruct (reachable_scheduleOk penv n v evs) as ((_ & Hnd) & _ & Hbusy & _).
  assert (Hm : microtasks w = []) by (apply run_drained; reflexivity).
  fold w in Hq, Hreg, Hjobs, Hc, Hreq, Ha, Hto, Hnd, Hbusy.
  clearbody w. split; [|split; [|split]].
  - intros r x job k outcome Hf He w'. unfold w', step. simpl.
    destruct (@httpSettles_ends r x job k outcome w Hf He)
      as [E|(items & -> & E)];
      rewrite E.
    + eapply bodySettled_rearms; eauto.
    + pose proof (op_activate items w) as A.
      destruct (fold_trigger_gen (_notificationsChangeListeners
                  (this (onThis (setVersionCheckResult items) w)))
                  (onThis (setVersionCheckResult items) w))
        as (T1 & _ & _ & T4 & _ & T6 & _).
      assert (T0 : nextTimeout (_activateNewVersionInfo items w)
                   = nextTimeout w).
      { unfold _activateNewVersionInfo. cbv zeta.
        now rewrite fold_trigger_nextTimeout. }
      destruct (@bodySettled_rearms r x job ThenActivate
                  (_activateNewVersionInfo items w))
        as (B1 & B2 & B3 & B4 & B5).
      * exact (op_registered A Hreg).
      * exact (op_requestsOk A Hreq).
      * exact (op_cfgOk A Hc).
      * exact (op_awaitOk (t := TActivate) ltac:(discriminate) A Ha).
      * unfold _activateNewVersionInfo. rewrite T4. exact Hf.
      * unfold _activateNewVersionInfo in *. cbv zeta in *.
        unfold started in *. rewrite T1, T6 in *. simpl in *.
        repeat split; auto.
        eapply rearmed_from; [| | | | |exact B5]; simpl;
          rewrite ?T1, ?T6; auto.
  - intros h t Hf Hn Hr Hne p w'.
    destruct (findTimeout_In _ _ Hf) as [Hin _].
    destruct (Hto t Hin) as [Hcb _]. rewrite Hn in Hcb. simpl in Hcb.
    assert (Hopen : closed (this w) = false).
    { destruct (closed (this w)) eqn:E; [|reflexivity].
      rewrite (Hq E) in Hin. destruct Hin. }
    destruct (Hreg ReportError) as [He Hj]; [congruence|].
    destruct (jobs (this w) ReportError) as [info|] eqn:Ej; [|congruence].
    destruct (Hjobs _ _ Ej) as (_ & _ & Hp). simpl in Hp.
    destruct (@timer_flush_empty (Timeout.job t) info (expire h w))
      as (P1 & P2 & P3 & P4 & P5 & P6 & P7 & P8 & P9 & P10 & P11 & P12);
      auto.
    fold p in P1, P2, P3, P4, P5, P6, P7, P8, P9, P10, P11, P12.
    simpl in P2, P5, P6, P7, P9, P10, P11, P12.
    assert (D : dispatch (TimerFires h) w = completion p).
    { simpl. unfold timerFires. rewrite Hf, Hn. reflexivity. }
    assert (Dw : w' = runMicrotasks (completion p)).
    { unfold w', step. now rewrite D. }
    destruct (@runMicrotasks_idle (completion p))
      as (I1 & I2 & I3 & I4 & _); [congruence|].
    clearbody w' p. subst w'.
    split; [exact P1|]. split; [exact P2|]. split; [exact P3|].
    split; [exact P4|]. split.
    { rewrite D. now apply completion_completing. }
    unfold completedAtOnce, isRunning, started, armedFor in *.
    rewrite I1, I2, I4, I3, P5, P11.
    split; [exact P8|]. split; [reflexivity|]. split; [exact P6|].
    split; [exact P9|]. split; [exact P10|].
    exists info. split; [exact Ej|]. split; [exact P7|].
    split; [reflexivity|]. split; [reflexivity|].
    apply in_or_app. right. left. reflexivity.
  - intros error Hl Hopen Hr Hne Hi p w'.
    destruct (recordError_keeps error w)
      as (K1 & K2 & K3 & K4 & K5 & K6 & K7 & K8 & K9 & K10 & K11 & _).
    assert (Ke : errors (this (recordError error w)) = []).
    { unfold recordError. simpl. rewrite Hne, Hi. simpl. exact Hne. }
    assert (Km : microtasks (recordError error w) = microtasks w).
    { unfold recordError. simpl.
      destruct (JsRecord.get (_getErrorString error) (errors (this w)));
        [|destruct (JsRecord.inherited (_getErrorString error))];
        reflexivity. }
    destruct (Hreg ReportError) as [He Hj]; [congruence|].
    destruct (jobs (this w) ReportError) as [info|] eqn:Ej; [|congruence].
    destruct (Hjobs _ _ Ej) as (_ & Hcb & Hp). simpl in Hcb, Hp.
    remember (recordError error w) as w1 eqn:E1.
    assert (L : p = _runJob ReportError true
                      (onThis (setIsFirstErrorReported true) w1)).
    { unfold p, acceptError. rewrite <- E1, K6, Hl. reflexivity. }
    clear E1.
    pose proof (@flush_empty_returns info
                  (onThis (setIsFirstErrorReported true) w1)) as Y.
    pose proof (@flush_empty info
                  (onThis (setIsFirstErrorReported true) w1)) as X.
    pose proof (@flush_empty_frame info
                  (onThis (setIsFirstErrorReported true) w1)) as Z.
    cbv zeta in X, Y, Z. rewrite <- L in X, Y, Z.
    destruct Y as (Y1 & Y2 & Y3 & Y4 & Y5 & Y6 & Y7); simpl;
      try congruence.
    destruct X as (A & B & C & D & F & G & M); simpl; try congruence.
    destruct Z as (Z1 & Z2 & Z3); simpl; try congruence.
    unfold cleared in *. simpl in A, B, D, Y2, Y3, M, Z1, Z2, Z3.
    rewrite K5, K7, K11 in A. rewrite K7 in D, Z3. rewrite K5, K11 in Y2.
    assert (Dw : w' = runMicrotasks (completion p)) by reflexivity.
    assert (D0 : dispatch (AcceptError error) w = finish ReportError (fst p))
      by (apply (@completion_completing p); exact Y1).
    destruct (@runMicrotasks_idle (completion p))
      as (I1 & I2 & I3 & I4 & _); [congruence|].
    clearbody w' p. subst w'.
    split; [exact Y1|]. split; [exact Y2|]. split; [exact Y6|].
    split; [exact Y5|]. split.
    { exact D0. }
    unfold completedAtOnce, isRunning, started, armedFor in *.
    rewrite I1, I2, I4, I3, A.
    split; [exact F|]. split.
    { rewrite !countIf_cons, countIf_app, countIf_cons. simpl.
      destruct (timers (this w) ReportError); simpl; lia. }
    split; [congruence|]. split; [congruence|]. split; [congruence|].
    exists info. split; [exact Ej|]. split; [exact D|].
    split.
    { rewrite !countIf_cons, countIf_app, countIf_cons. simpl.
      destruct (timers (this w) ReportError); simpl; lia. }
    split; [reflexivity|]. exact Z3.
  - intros job Hrun. destruct (Hbusy job Hrun) as (r & x & k & Hin).
    exists r, x, k. now apply In_findRequest.
Qed.

Lemma settled_body_rearms_unless_armed_witness :
  (let w := run [Init] sampleWorld in
   let w' := step (HttpSettles 0 HttpFailed) w in
   findRequest 0 (requests w) = Some (KJob 0 VersionCheck ThenActivate) /\
   endsBody ThenActivate HttpFailed = true /\
   isRunning VersionCheck w' = false /\ started w' = started w /\
   jobs (this w') = jobs (this w) /\
   jobConfigs (this w') = jobConfigs (this w) /\
   rearmed VersionCheck w w') /\
  (let w := run [Init; HttpSettles 0 ok] sampleWorld in
   completedAtOnce ReportError w (step (TimerFires 1) w) /\
   completedAtOnce ReportError w
     (step (AcceptError (errorOf "constructor")) w)) /\
  (let w := run [Init] sampleWorld in
   isRunning VersionCheck w = true /\
   exists r x k,
     findRequest r (requests w) = Some (KJob x VersionCheck k)).
Proof.
  pose proof (@settled_body_rearms_unless_armed sampleEnv "proc" "1.0"
                [Init]) as (A & _ & _ & D).
  pose proof (@settled_body_rearms_unless_armed sampleEnv "proc" "1.0"
                [Init; HttpSettles 0 ok]) as (_ & B & C & _).
  fold sampleWorld in A, B, C, D.
  split; [|split]; cbv zeta.
  - split; [vm_compute; reflexivity|]. split; [reflexivity|].
    apply (A 0 0 VersionCheck ThenActivate HttpFailed);
      vm_compute; reflexivity.
  - assert (T : exists t,
                findTimeout 1
                  (timeouts (run [Init; HttpSettles 0 ok] sampleWorld))
                = Some t /\ Timeout.name t = ReportError)
      by (vm_compute; eexists; split; reflexivity).
    destruct T as (t & T1 & T2). split.
    + apply (B 1 t T1 T2); vm_compute; reflexivity.
    + apply (C (errorOf "constructor")); vm_compute; reflexivity.
  - split; [vm_compute; reflexivity|].
    apply (D VersionCheck); vm_compute; reflexivity.
Defined.

(** C7 fails as it stands when a trigger armed the job's timer while the
    body ran: the flush of "b" and "c" is in flight, accepting "d" arms the
    error timer, and when the flush ends, two settlements later, no timer is
    armed, so the next run is due sixty seconds after "d", not after the
    end of the flush.  And on a closed client the end of a body arms
    nothing. *)
Lemma completion_does_not_rearm_a_pending_timer :
  let w := run [AcceptError (errorOf "d"); HttpSettles 2 ok] flushInFlight in
  let w' := step (HttpSettles 3 ok) w in
  findRequest 3 (requests w) = Some (KJob 2 ReportError (ThenSerial [])) /\
  closed (this w) = false /\
  isRunning ReportError w = true /\ isRunning ReportError w' = false /\
  timers (this w) ReportError = Some 5 /\
  timers (this w') ReportError = Some 5 /\
  armed w' = armed w /\ trace w' = trace w /\
  let c := run [Init; Close] sampleWorld in
  let c' := step (HttpSettles 0 ok) c in
  isRunning VersionCheck c = true /\ isRunning VersionCheck c' = false /\
  armed c' = armed c /\ timeouts c' = [].
Proof. vm_compute. repeat split. Qed.

(** ** The start of the client *)

Lemma op_arm_frame t w w' :
  Op t w w' -> armTag t = true ->
  requests w' = requests w /\ awaiting w' = awaiting w /\
  closed (this w') = closed (this w) /\
  jobConfigs (this w') = jobConfigs (this w).
Proof.
  intros H Ht. destruct H; try discriminate.
  unfold armTimer. destruct (timers (this w) nm); [repeat split|].
  destruct (JobInfo.preScheduleCb job) as [[]|]; repeat split.
Qed.

Lemma ops_arm_frame w w' :
  Ops armTag w w' ->
  requests w' = requests w /\ awaiting w' = awaiting w /\
  closed (this w') = closed (this w) /\
  jobConfigs (this w') = jobConfigs (this w).
Proof.
  intro H. induction H as [|t w2 w3 H IH Ht Hop]; [repeat split|].
  destruct IH as (A & B & C & D).
  destruct (op_arm_frame Hop Ht) as (A' & B' & C' & D').
  repeat split; congruence.
Qed.

(** Once the loop of [init] is past the version check, the end of a body
    takes the request and the waiting loops away and adds none. *)
Lemma bodySettled_clears r x nm w :
  cfgOk w -> awaitOk w ->
  let w' := bodySettled r x nm w in
  requests w' = filter (fun q => negb (Nat.eqb (fst q) r)) (requests w) /\
  awaiting w' = filter (fun a => negb (Nat.eqb (fst a) x)) (awaiting w) /\
  closed (this w') = closed (this w).
Proof.
  intros Hc Ha. unfold bodySettled, resume.
  assert (F : requests (finish nm (dropRequest r w))
              = filter (fun q => negb (Nat.eqb (fst q) r)) (requests w) /\
              awaiting (finish nm (dropRequest r w)) = awaiting w /\
              closed (this (finish nm (dropRequest r w))) = closed (this w) /\
              jobConfigs (this (finish nm (dropRequest r w)))
              = jobConfigs (this w)).
  { unfold finish. destruct (jobRuntime (this (dropRequest r w)) nm);
      [|repeat split].
    destruct (ops_arm_frame
                (_runJobLater_ops nm (setRunning nm false (dropRequest r w))))
      as (A & B & C & D).
    rewrite A, B, C, D. repeat split. }
  destruct F as (F1 & F2 & F3 & F4).
  remember (finish nm (dropRequest r w)) as wF eqn:EF. clear EF.
  assert (L : Ops armTag
                (setAwaiting
                   (filter (fun a => negb (Nat.eqb (fst a) x)) (awaiting wF))
                   wF)
                (fold_left (fun w a => serialJobs (snd a) w)
                   (filter (fun a => Nat.eqb (fst a) x) (awaiting wF))
                   (setAwaiting
                      (filter (fun a => negb (Nat.eqb (fst a) x))
                         (awaiting wF)) wF))).
  { apply fold_serialJobs_later.
    - intro job. simpl. rewrite F4. apply Hc.
    - intros [x' rest] Hin. apply filter_In in Hin. destruct Hin as [Hin _].
      simpl. rewrite F2 in Hin. eapply Ha; eauto. }
  destruct (ops_arm_frame L) as (A & B & C & _). rewrite A, B, C. simpl.
  rewrite F1, F2, F3. repeat split.
Qed.

Lemma _register_jobRuntime nm cb pre w n :
  jobRuntime (this (_register nm cb pre w)) n
  = if JobConfig.enabled (jobConfigs (this w) nm) && ReportActions_eqb nm n
    then Some (JobRuntime.make false)
    else jobRuntime (this w) n.
Proof.
  unfold _register.
  destruct (JobConfig.enabled (jobConfigs (this w) nm)); simpl; [|reflexivity].
  unfold upd. destruct (ReportActions_eqb nm n); reflexivity.
Qed.

Lemma _register_counters nm cb pre w :
  nextRequest (_register nm cb pre w) = nextRequest w /\
  nextExecution (_register nm cb pre w) = nextExecution w /\
  jobConfigs (this (_register nm cb pre w)) = jobConfigs (this w).
Proof. unfold _register. break; repeat split. Qed.

(** The state [_schedule] leaves on a client that has just been built. *)
Lemma _schedule_fresh penv n v :
  JobConfig.enabled (jobConfigs (constructor penv n v) VersionCheck) = true ->
  let w := _schedule (boot penv n v) in
  closed (this w) = false /\
  JobConfig.enabled (jobConfigs (this w) VersionCheck) = true /\
  JobConfig.shouldStartImmediately (jobConfigs (this w) VersionCheck) = true /\
  (exists info,
     jobs (this w) VersionCheck = Some info /\
     JobInfo.cb info = CheckVersion) /\
  jobRuntime (this w) VersionCheck = Some (JobRuntime.make false) /\
  timers (this w) VersionCheck = None /\
  (timeouts w = [] /\ env w = penv /\ trace w = [] /\ requests w = [] /\
   awaiting w = [] /\ microtasks w = []) /\
  (id (this w) = JsRecord.get "WORLDVIOUS_ID" penv /\ name (this w) = n /\
   version (this w) = v) /\
  nextRequest w = 0 /\ nextExecution w = 0.
Proof.
  intros He w.
  destruct (_schedule_frame (boot penv n v))
    as (A1 & A2 & A3 & A4 & A5 & _ & A7 & A8 & A9 & A10).
  destruct (_schedule_sameSetup (boot penv n v))
    as (_ & _ & B3 & B4 & B5 & _).
  assert (Hrt : jobRuntime (this w) VersionCheck
                = Some (JobRuntime.make false)).
  { unfold w, _schedule. cbv zeta. rewrite !_register_jobRuntime.
    cbn [ReportActions_eqb]. rewrite !andb_false_r, andb_true_r.
    change (this (boot penv n v)) with (constructor penv n v).
    now rewrite He. }
  assert (Hreg : registered w)
    by (apply _schedule_registered; intros nm Hn; now contradiction Hn).
  assert (Hjobs : jobsOk w)
    by (apply _schedule_jobsOk; intros job info Hj; discriminate Hj).
  destruct (Hreg VersionCheck) as [_ Hj]; [congruence|].
  destruct (jobs (this w) VersionCheck) as [info|] eqn:Ej; [|congruence].
  destruct (Hjobs VersionCheck info Ej) as (_ & Hcb & _).
  fold w in A1, A2, A3, A4, A5, A7, A8, A9, A10, B3, B4, B5.
  split; [now rewrite A1|]. split; [now rewrite A7|].
  split; [rewrite A7; apply (boot_cfgOk penv n v VersionCheck)|].
  split; [exists info; split; [reflexivity|exact Hcb]|].
  split; [exact Hrt|]. split; [now rewrite A10|].
  split; [repeat split; assumption|].
  split; [repeat split; assumption|].
  unfold w, _schedule. cbv zeta.
  split.
  - now repeat match goal with
    | |- context [nextRequest (_register ?a ?b ?c ?d)] =>
        rewrite (proj1 (_register_counters a b c d))
    end.
  - now repeat match goal with
    | |- context [nextExecution (_register ?a ?b ?c ?d)] =>
        rewrite (proj1 (proj2 (_register_counters a b c d)))
    end.
Qed.

(** An idle version check that is run at once sends its request. *)
Lemma _runJob_version w info :
  closed (this w) = false ->
  JobConfig.enabled (jobConfigs (this w) VersionCheck) = true ->
  jobs (this w) VersionCheck = Some info -> JobInfo.cb info = CheckVersion ->
  jobRuntime (this w) VersionCheck = Some (JobRuntime.make false) ->
  timers (this w) VersionCheck = None ->
  let w' := fst (_runJob VersionCheck true w) in
  snd (_runJob VersionCheck true w) = RAwait (nextExecution w) /\
  trace w'
  = HttpPost (requestUrl (env w) "report/version")
      [("id", json_of_opt (id (this w))); ("process", JStr (name (this w)));
       ("version", JStr (version (this w)))]
    :: BodyStart VersionCheck :: trace w /\
  timeouts w' = timeouts w /\
  requests w'
  = requests w
    ++ [(nextRequest w, KJob (nextExecution w) VersionCheck ThenActivate)] /\
  awaiting w' = awaiting w /\ microtasks w' = microtasks w /\
  closed (this w') = false.
Proof.
  intros Hc He Hj Hcb Hr Ht. unfold _runJob. rewrite Hc, He. simpl.
  rewrite Hj. unfold _stopScheduledJob. rewrite Ht. unfold handler.
  rewrite Hr. simpl. unfold execute. simpl. rewrite Hcb. simpl.
  repeat split. exact Hc.
Qed.

Lemma init_fresh penv n v :
  JobConfig.enabled (jobConfigs (constructor penv n v) VersionCheck) = true ->
  let w := step Init (boot penv n v) in
  trace w
  = [HttpPost (requestUrl penv "report/version")
       [("id", json_of_opt (JsRecord.get "WORLDVIOUS_ID" penv));
        ("process", JStr n); ("version", JStr v)];
     BodyStart VersionCheck] /\
  timeouts w = [] /\
  requests w = [(0, KJob 0 VersionCheck ThenActivate)] /\
  awaiting w = [(0, [ReportError; ReportCounters; ReportMetrics])] /\
  closed (this w) = false.
Proof.
  intros He w.
  pose proof (@_schedule_fresh penv n v He) as S. cbv zeta in S.
  destruct S as (Hc & He1 & Hs & (info & Hj & Hcb) & Hr & Ht
                 & (T1 & T2 & T3 & T4 & T5 & T6) & (I1 & I2 & I3) & N1 & N2).
  unfold w, step. simpl dispatch. unfold init. cbv zeta.
  remember (_schedule (boot penv n v)) as w1 eqn:E1. clear E1.
  unfold allJobs. simpl serialJobs. rewrite Hs.
  pose proof (@_runJob_version w1 info Hc He1 Hj Hcb Hr Ht) as R.
  cbv zeta in R.
  destruct (_runJob VersionCheck true w1) as [w2 res]. simpl in R.
  destruct R as (R1 & R2 & R3 & R4 & R5 & R6 & R7). subst res.
  match goal with |- context [runMicrotasks ?W] =>
    destruct (@runMicrotasks_idle W) as (M1 & M2 & M3 & M4 & M5 & _);
      [simpl; congruence|]
  end.
  rewrite M1, M2, M3, M4, M5. simpl.
  rewrite R2, R3, R4, R5, R7, T1, T2, T3, T4, T5, I1, I2, I3, N1, N2.
  repeat split.
Qed.

Lemma run_one ev w : run [ev] w = step ev w.
Proof. reflexivity. Qed.

Lemma run_pair ev1 ev2 w : run [ev1; ev2] w = step ev2 (step ev1 w).
Proof. reflexivity. Qed.

(** X9.  The start of the client.  On a client that has just been built and
    whose version check is enabled, [init] sends the version check and
    nothing else, and arms no timer: the other jobs wait.  When that request
    settles, with any answer or with a failure, nothing is left in flight
    and the jobs that have a pending timer are exactly the enabled ones. *)
Theorem init_checks_the_version_first penv n v
  (He : JobConfig.enabled (jobConfigs (constructor penv n v) VersionCheck)
        = true) :
  let w := step Init (boot penv n v) in
  trace w
  = [HttpPost (requestUrl penv "report/version")
       [("id", json_of_opt (JsRecord.get "WORLDVIOUS_ID" penv));
        ("process", JStr n); ("version", JStr v)];
     BodyStart VersionCheck] /\
  timeouts w = [] /\
  forall o,
    let w' := step (HttpSettles 0 o) w in
    requests w' = [] /\ awaiting w' = [] /\
    forall nm,
      (exists t, In t (timeouts w') /\ Timeout.name t = nm) <->
      JobConfig.enabled (jobConfigs (constructor penv n v) nm) = true.
Proof.
  pose proof (@init_fresh penv n v He) as F.
  destruct (reachable_facts penv n v [Init]) as (Hs & _ & Hc & _ & Ha & _).
  rewrite run_one in Hs, Hc, Ha.
  assert (Ez : forall o,
             run [Init; HttpSettles 0 o] (boot penv n v)
             = step (HttpSettles 0 o) (step Init (boot penv n v)))
    by (intro o; apply run_pair).
  cbv zeta in *.
  remember (step Init (boot penv n v)) as w eqn:Ew. clear Ew.
  destruct F as (F1 & F2 & F3 & F4 & F5).
  split; [exact F1|]. split; [exact F2|]. intros o.
  assert (Hcl : requests (httpSettles 0 o w) = [] /\
                awaiting (httpSettles 0 o w) = [] /\
                closed (this (httpSettles 0 o w)) = false).
  { unfold httpSettles. rewrite F3. simpl findRequest. cbv iota beta.
    assert (Plain : requests (bodySettled 0 0 VersionCheck w) = [] /\
                    awaiting (bodySettled 0 0 VersionCheck w) = [] /\
                    closed (this (bodySettled 0 0 VersionCheck w)) = false).
    { pose proof (@bodySettled_clears 0 0 VersionCheck w Hc Ha) as B.
      cbv zeta in B. destruct B as (B1 & B2 & B3).
      rewrite B1, B2, B3, F3, F4, F5. repeat split. }
    destruct o as [|[items|]]; try exact Plain.
    pose proof (op_activate items w) as A.
    pose proof (_activateNewVersionInfo_same items w) as S. cbv zeta in S.
    destruct S as (S1 & _ & _ & _ & _ & S6 & S7 & _).
    pose proof (@bodySettled_clears 0 0 VersionCheck
                  (_activateNewVersionInfo items w)
                  (op_cfgOk A Hc)
                  (op_awaitOk (t := TActivate) ltac:(discriminate) A Ha))
      as B.
    cbv zeta in B. destruct B as (B1 & B2 & B3).
    rewrite B1, B2, B3, S1, S6, S7, F3, F4, F5. repeat split. }
  destruct Hcl as (C1 & C2 & C3).
  destruct (runMicrotasks_trace_gen (microtasks (httpSettles 0 o w))
              (setMicrotasks [] (httpSettles 0 o w)))
    as (M1 & _ & _ & M4 & M5 & _).
  assert (Es : step (HttpSettles 0 o) w
               = fold_left
                   (fun w cb =>
                      emit (ListenerCall cb (_versionCheckResult (this w))) w)
                   (microtasks (httpSettles 0 o w))
                   (setMicrotasks [] (httpSettles 0 o w)))
    by reflexivity.
  specialize (Ez o).
  remember (step (HttpSettles 0 o) w) as w' eqn:Ew'. clear Ew'.
  assert (Hq : requests w' = []) by (rewrite Es, M4; exact C1).
  assert (Hw : awaiting w' = []) by (rewrite Es, M5; exact C2).
  assert (Ho : closed (this w') = false) by (rewrite Es, M1; exact C3).
  clear Es M1 M4 M5.
  split; [exact Hq|]. split; [exact Hw|]. intro nm.
  assert (Hb : sound (boot penv n v)) by apply boot_sound.
  destruct (reachable_timerBook penv n v [Init; HttpSettles 0 o])
    as (_ & Hl & _).
  rewrite Ez in Hl. split.
  - intros (t & Hin & Hn).
    destruct (JobConfig.enabled (jobConfigs (constructor penv n v) nm))
      eqn:En; [reflexivity|exfalso].
    assert (N : neverUsed nm (boot penv n v)) by (repeat split; exact En).
    destruct (run_neverUsed [Init; HttpSettles 0 o]
                (boot_timerInv penv n v) N) as (_ & _ & _ & T & _).
    rewrite Ez in T.
    assert (Hsz : sound w') by (rewrite <- Ez; now apply run_sound).
    destruct Hsz as ((Htr & _) & _). apply Htr in Hin.
    rewrite Hn in Hin. congruence.
  - intro En.
    assert (Hj : jobRuntime (this w') nm <> None).
    { rewrite <- Ez. apply init_registers_enabled;
        [apply Hb|now left|exact En]. }
    assert (Hok : scheduleOk w').
    { rewrite <- Ez. apply run_scheduleOk;
        [exact Hb| |apply boot_scheduleOk].
      split; [intros q []|constructor]. }
    destruct Hok as (K & Bz & Aw).
    destruct (K Ho nm Hj) as [Hr|[Ht|(x & rest & Hin & _)]].
    + destruct (Bz nm Hr) as (r & x & k & Hin). rewrite Hq in Hin.
      contradiction.
    + destruct (timers (this w') nm) as [h|] eqn:E; [|congruence].
      destruct (Hl nm h E) as (t & T1 & T2 & _). now exists t.
    + rewrite Hw in Hin. contradiction.
Qed.

Lemma init_checks_the_version_first_witness :
  let w := step Init (boot sampleEnv "proc" "1.0") in
  trace w
  = [HttpPost (requestUrl sampleEnv "report/version")
       [("id", json_of_opt (JsRecord.get "WORLDVIOUS_ID" sampleEnv));
        ("process", JStr "proc"); ("version", JStr "1.0")];
     BodyStart VersionCheck] /\
  timeouts w = [] /\
  forall o,
    let w' := step (HttpSettles 0 o) w in
    requests w' = [] /\ awaiting w' = [] /\
    forall nm,
      (exists t, In t (timeouts w') /\ Timeout.name t = nm) <->
      JobConfig.enabled (jobConfigs (constructor sampleEnv "proc" "1.0") nm)
      = true.
Proof.
  exact (@init_checks_the_version_first sampleEnv "proc" "1.0" eq_refl).
Defined.

(** ** The first revision: the flags are written and never read *)

Ltac legacy_worlds w1 w2 :=
  destruct w1 as [[? ? ? ? ? ? ? ? ? ? ? ?] ? ? ? ? ? ?];
  destruct w2 as [[? ? ? ? ? ? ? ? ? ? ? ?] ? ? ? ? ? ?];
  let H := fresh "H" in
  intro H; unfold Legacy.sameButFlags in H; simpl in H;
  destruct H as (? & ? & ? & ? & ? & ? & ? & ? & ? & ? & ? & ? & ? & ? & ? & ?);
  subst.

Ltac legacy_done :=
  try (unfold Legacy.sameButFlags; simpl; repeat split; congruence).

Lemma legacy_armTimer_same name job w1 w2 :
  Legacy.sameButFlags w1 w2 ->
  Legacy.sameButFlags (Legacy.armTimer name job w1)
    (Legacy.armTimer name job w2).
Proof.
  legacy_worlds w1 w2. unfold Legacy.armTimer, Legacy.callPreSchedule. simpl.
  break; legacy_done.
Qed.

Lemma legacy_stop_same name w1 w2 :
  Legacy.sameButFlags w1 w2 ->
  Legacy.sameButFlags (Legacy._stopScheduledJob name w1)
    (Legacy._stopScheduledJob name w2).
Proof.
  legacy_worlds w1 w2. unfold Legacy._stopScheduledJob. simpl.
  break; legacy_done.
Qed.

Lemma legacy_runJobLater_same name w1 w2 :
  Legacy.sameButFlags w1 w2 ->
  Legacy.sameButFlags (Legacy._runJobLater name w1)
    (Legacy._runJobLater name w2).
Proof.
  intro H. pose proof H as (_ & _ & _ & _ & _ & Hj & _).
  unfold Legacy._runJobLater. rewrite Hj.
  destruct (Legacy.jobs (Legacy.this w2) name); [|exact H].
  now apply legacy_armTimer_same.
Qed.

Lemma legacy_setRunning_same name v w1 w2 :
  Legacy.sameButFlags w1 w2 ->
  Legacy.sameButFlags (Legacy.setRunning name v w1)
    (Legacy.setRunning name v w2).
Proof. legacy_worlds w1 w2. legacy_done. Qed.

Lemma legacy_finish_same name w1 w2 :
  Legacy.sameButFlags w1 w2 ->
  Legacy.sameButFlags (Legacy.finish name w1) (Legacy.finish name w2).
Proof.
  intro H. pose proof H as (_ & _ & _ & _ & _ & _ & Hr & _).
  unfold Legacy.finish. rewrite Hr.
  destruct (Legacy.jobRuntime (Legacy.this w2) name); [|exact H].
  now apply legacy_runJobLater_same, legacy_setRunning_same.
Qed.

Lemma legacy_callJob_same cb K w1 w2 :
  Legacy.sameButFlags w1 w2 ->
  Legacy.sameButFlags (fst (Legacy.callJob cb K w1))
    (fst (Legacy.callJob cb K w2)) /\
  snd (Legacy.callJob cb K w1) = snd (Legacy.callJob cb K w2).
Proof.
  legacy_worlds w1 w2.
  unfold Legacy.callJob, Legacy._checkVersion, Legacy._reportError,
    Legacy._reportCounters, Legacy.serialRequests, Legacy.errorPayload,
    Legacy._makeNewData.
  simpl. break; legacy_done.
Qed.

Lemma legacy_started_same name w1 w2 :
  Legacy.sameButFlags w1 w2 ->
  Legacy.sameButFlags
    (Legacy.emit (Legacy.BodyStart name) (Legacy.setRunning name true w1))
    (Legacy.emit (Legacy.BodyStart name) (Legacy.setRunning name true w2)).
Proof. legacy_worlds w1 w2. legacy_done. Qed.

Lemma legacy_handler_same name job w1 w2 :
  Legacy.sameButFlags w1 w2 ->
  Legacy.sameButFlags (fst (Legacy.handler name job w1))
    (fst (Legacy.handler name job w2)) /\
  snd (Legacy.handler name job w1) = snd (Legacy.handler name job w2).
Proof.
  intro H. pose proof H as (_ & _ & _ & _ & _ & _ & Hr & _).
  unfold Legacy.handler. rewrite Hr.
  destruct (Legacy.jobRuntime (Legacy.this w2) name) as [runtime|];
    [|split; [exact H|reflexivity]].
  destruct (JobRuntime.isRunning runtime);
    [split; [now apply legacy_runJobLater_same|reflexivity]|].
  pose proof (legacy_started_same name H) as S.
  destruct (legacy_callJob_same (Legacy.JobInfo.cb job) (Legacy.KJob name) S)
    as [A B].
  cbv zeta.
  destruct (Legacy.callJob (Legacy.JobInfo.cb job) (Legacy.KJob name)
              (Legacy.emit (Legacy.BodyStart name)
                 (Legacy.setRunning name true w1))) as [a1 b1].
  destruct (Legacy.callJob (Legacy.JobInfo.cb job) (Legacy.KJob name)
              (Legacy.emit (Legacy.BodyStart name)
                 (Legacy.setRunning name true w2))) as [a2 b2].
  simpl in A, B. subst b2. destruct b1; split; auto.
Qed.

Lemma legacy_completion_same p1 p2 :
  Legacy.sameButFlags (fst p1) (fst p2) /\ snd p1 = snd p2 ->
  Legacy.sameButFlags (Legacy.completion p1) (Legacy.completion p2).
Proof.
  destruct p1 as [w1 r1], p2 as [w2 r2]. simpl. intros [H <-].
  destruct r1; [now apply legacy_finish_same|exact H].
Qed.

Lemma legacy_runJob_same name now w1 w2 :
  Legacy.sameButFlags w1 w2 ->
  Legacy.sameButFlags (fst (Legacy._runJob name now w1))
    (fst (Legacy._runJob name now w2)) /\
  snd (Legacy._runJob name now w1) = snd (Legacy._runJob name now w2).
Proof.
  intro H. pose proof H as (_ & _ & _ & _ & _ & Hj & _).
  unfold Legacy._runJob. rewrite Hj.
  destruct (Legacy.jobs (Legacy.this w2) name) as [job|];
    [|split; [exact H|reflexivity]].
  destruct now.
  - now apply legacy_handler_same, legacy_stop_same.
  - split; [now apply legacy_armTimer_same|reflexivity].
Qed.

Lemma legacy_runJob_fst_same name now w1 w2 :
  Legacy.sameButFlags w1 w2 ->
  Legacy.sameButFlags (fst (Legacy._runJob name now w1))
    (fst (Legacy._runJob name now w2)).
Proof. intro H. now apply legacy_runJob_same. Qed.

Lemma legacy_register_same name seconds over cb pre w1 w2 :
  Legacy.sameButFlags w1 w2 ->
  Legacy.sameButFlags (Legacy._register name seconds over cb pre w1)
    (Legacy._register name seconds over cb pre w2).
Proof. legacy_worlds w1 w2. unfold Legacy._register. simpl. legacy_done. Qed.

Lemma legacy_init_same w1 w2 :
  Legacy.sameButFlags w1 w2 ->
  Legacy.sameButFlags (Legacy.init w1) (Legacy.init w2).
Proof.
  intro H. unfold Legacy.init, Legacy._runJobNow, Legacy._schedule,
    Legacy.allJobs.
  cbv zeta. cbn [fold_left].
  apply legacy_completion_same, legacy_runJob_same.
  repeat apply legacy_runJob_fst_same. repeat apply legacy_register_same.
  exact H.
Qed.

Lemma legacy_close_same w1 w2 :
  Legacy.sameButFlags w1 w2 ->
  Legacy.sameButFlags (Legacy.close w1) (Legacy.close w2).
Proof.
  legacy_worlds w1 w2. unfold Legacy.close, Legacy.allJobs. simpl.
  break; legacy_done.
Qed.

Lemma legacy_setFirst_same v w1 w2 :
  Legacy.sameButFlags w1 w2 ->
  Legacy.sameButFlags (Legacy.onThis (Legacy.setIsFirstErrorReported v) w1)
    (Legacy.onThis (Legacy.setIsFirstErrorReported v) w2).
Proof. legacy_worlds w1 w2. legacy_done. Qed.

Lemma legacy_acceptError_same error w1 w2 :
  Legacy.sameButFlags w1 w2 ->
  Legacy.sameButFlags (fst (Legacy.acceptError error w1))
    (fst (Legacy.acceptError error w2)) /\
  snd (Legacy.acceptError error w1) = snd (Legacy.acceptError error w2).
Proof.
  intro H. unfold Legacy.acceptError, Legacy._runJobNow. cbv zeta.
  match goal with
  | |- context [Legacy.onThis ?F w1] =>
      assert (S : Legacy.sameButFlags (Legacy.onThis F w1)
                    (Legacy.onThis F w2));
        [|remember (Legacy.onThis F w1) as a1 eqn:E1;
          remember (Legacy.onThis F w2) as a2 eqn:E2; clear E1 E2]
  end.
  { revert H. legacy_worlds w1 w2. unfold Legacy.sameButFlags. simpl.
    match goal with
    | |- context [JsRecord.get (_getErrorString error) ?e] =>
        destruct (JsRecord.get (_getErrorString error) e)
    end;
      [|destruct (JsRecord.inherited (_getErrorString error))];
      simpl; repeat split. }
  pose proof S as (_ & _ & _ & Hf & _). rewrite Hf.
  destruct (Legacy.isFirstErrorReported (Legacy.this a2)); simpl;
    [split; [exact S|reflexivity]|].
  now apply legacy_runJob_same, legacy_setFirst_same.
Qed.

Lemma legacy_timerFires_same h w1 w2 :
  Legacy.sameButFlags w1 w2 ->
  Legacy.sameButFlags (Legacy.timerFires h w1) (Legacy.timerFires h w2).
Proof.
  legacy_worlds w1 w2. unfold Legacy.timerFires. simpl.
  break; try (apply legacy_completion_same, legacy_handler_same);
    legacy_done.
Qed.

Lemma legacy_httpSettles_same r o w1 w2 :
  Legacy.sameButFlags w1 w2 ->
  Legacy.sameButFlags (Legacy.httpSettles r o w1) (Legacy.httpSettles r o w2).
Proof.
  legacy_worlds w1 w2. unfold Legacy.httpSettles. simpl.
  break; try (apply legacy_finish_same); legacy_done.
Qed.

Lemma legacy_gauge_same (f : Json -> Legacy.Client -> Legacy.Client) value
  w1 w2 :
  f = Legacy.setCounters \/ f = Legacy.setMetrics ->
  Legacy.sameButFlags w1 w2 ->
  Legacy.sameButFlags (Legacy.onThis (f value) w1)
    (Legacy.onThis (f value) w2).
Proof. intros [-> | ->]; legacy_worlds w1 w2; legacy_done. Qed.

Lemma legacy_step_same ev w1 w2 :
  Legacy.sameButFlags w1 w2 ->
  Legacy.sameButFlags (Legacy.step ev w1) (Legacy.step ev w2).
Proof.
  intro H. destruct ev; simpl.
  - now apply legacy_init_same.
  - now apply legacy_close_same.
  - now apply legacy_completion_same, legacy_acceptError_same.
  - apply legacy_gauge_same; auto.
  - apply legacy_gauge_same; auto.
  - now apply legacy_timerFires_same.
  - now apply legacy_httpSettles_same.
Qed.

Lemma legacy_run_same evs w1 w2 :
  Legacy.sameButFlags w1 w2 ->
  Legacy.sameButFlags (Legacy.run evs w1) (Legacy.run evs w2).
Proof.
  revert w1 w2. induction evs as [|ev evs IH]; intros w1 w2 H; simpl;
    [exact H|].
  apply IH. now apply legacy_step_same.
Qed.

(** X10.  In the first revision the flags [closed] and [enabled] are written
    and never read.  From any state, whatever the two flags are set to,
    every later turn sends the same requests, arms and cancels the same
    timers and leaves the same requests and timeouts pending: [close()]
    cancels the pending timers and stops nothing else, and a client built
    without identity or base address reports like any other. *)
Theorem legacy_flags_are_never_read w c e evs :
  let w' :=
    Legacy.onThis (fun k => Legacy.setEnabled e (Legacy.setClosed c k)) w in
  Legacy.trace (Legacy.run evs w') = Legacy.trace (Legacy.run evs w) /\
  Legacy.timeouts (Legacy.run evs w') = Legacy.timeouts (Legacy.run evs w) /\
  Legacy.requests (Legacy.run evs w') = Legacy.requests (Legacy.run evs w) /\
  Legacy.errors (Legacy.this (Legacy.run evs w'))
  = Legacy.errors (Legacy.this (Legacy.run evs w)).
Proof.
  intro w'.
  assert (S : Legacy.sameButFlags w' w)
    by (unfold w', Legacy.sameButFlags; simpl; repeat split).
  clearbody w'.
  destruct (legacy_run_same evs S)
    as (_ & _ & _ & _ & _ & _ & _ & _ & _ & A & _ & B & _ & C & _ & D).
  auto.
Qed.

(** X11.  [init()] of the first revision, on a client that has just been
    built, whatever the environment holds: the three jobs are registered and
    armed in turn (the hook of the error job runs before its timer), then
    the timer of the version check is cancelled and the version check is
    sent at once.  This also happens when the identity or the base address is
    missing and [enabled] is down: the request then carries no identity and
    goes to an address that starts with [undefined]. *)
Theorem legacy_init_reports_whatever_the_configuration penv n v :
  let w := Legacy.step Legacy.Init (Legacy.boot penv n v) in
  Legacy.enabled (Legacy.this w)
  = (truthy (JsRecord.get "WORLDVIOUS_ID" penv)
     && truthy (JsRecord.get "WORLDVIOUS_URL" penv))%bool /\
  exists vc re rc,
    Legacy.jobs (Legacy.this w) Legacy.VersionCheck = Some vc /\
    Legacy.jobs (Legacy.this w) Legacy.ReportError = Some re /\
    Legacy.jobs (Legacy.this w) Legacy.ReportCounters = Some rc /\
    Legacy.trace w
    = [Legacy.HttpPost (requestUrl penv "report/version")
         [("id", json_of_opt (JsRecord.get "WORLDVIOUS_ID" penv));
          ("process", JStr n); ("version", JStr v)];
       Legacy.BodyStart Legacy.VersionCheck;
       Legacy.ClearTimeout 0;
       Legacy.SetTimeout 2 Legacy.ReportCounters
         (Legacy.JobInfo.seconds rc * 1000);
       Legacy.SetTimeout 1 Legacy.ReportError
         (Legacy.JobInfo.seconds re * 1000);
       Legacy.PreSchedule Legacy.ReportError;
       Legacy.SetTimeout 0 Legacy.VersionCheck
         (Legacy.JobInfo.seconds vc * 1000)] /\
    Legacy.timeouts w
    = [Legacy.Timeout.make 1 Legacy.ReportError re;
       Legacy.Timeout.make 2 Legacy.ReportCounters rc] /\
    Legacy.requests w
    = [(0, Legacy.KJob Legacy.VersionCheck Legacy.ThenDone)].
Proof.
  intro w. unfold w. cbn -[JsNumber.parseInt JsRecord.get requestUrl Z.mul].
  split.
  - destruct (truthy (JsRecord.get "WORLDVIOUS_ID" penv)),
      (truthy (JsRecord.get "WORLDVIOUS_URL" penv)); reflexivity.
  - do 3 eexists. repeat split; reflexivity.
Qed.
